(** * audio-video-sync: the numeric alignment engine, embedded in Rocq

    Shallow embedding of [src/fft.ts] (transform, cross-correlation, peak
    resolver, confidence scorer), of the sample converters and of
    [preprocessAudio] from the audio module, and of [AudioVideoSync] from the
    sync module.

    Conventions of the embedding.
    - A JavaScript [number] is a real number ([R]): the arithmetic on
      numbers (binary64) is the exact arithmetic that the floating-point code
      approximates, and "within floating tolerance" reads as equality.
      [NaN], where the code can produce one from an [undefined] operand, is
      [None].
    - A store of a computed number into a [Float32Array] rounds it to
      binary32.  The rounding is [fround], a parameter of the embedding
      (class [Float32Store]) known by the laws of round-to-nearest that the
      proofs use.  A copy from one [Float32Array] to another stores what it
      read.
    - A [Float32Array] is a [list R]; a [Complex] is a pair [R * R]; a
      [Complex[]] is a list of pairs.
    - Lengths and indices are [nat]; where the code feeds them to the 32-bit
      operators [&] and [<<] they are [Z] with the wrap-around written out.
    - A call either returns, throws, or recurses for ever; recursion is
      bounded by a fuel argument and [Exhausted] is the answer of a call that
      needed more. *)

From Stdlib Require Import String DecimalString.
From Stdlib Require Strings.Byte.
From Stdlib Require Import Reals Lra Lia ZArith List Bool Psatz.
Import ListNotations.

Open Scope R_scope.

(** ** Outcomes of a call *)

Inductive exn : Type :=
| Error (message : string)   (* [new Error(message)] *)
| RangeError                 (* raised by the engine; its text is engine-defined *)
| NotAnError.                (* a thrown value that is not an [Error] instance *)

Inductive outcome (A : Type) : Type :=
| Return (a : A)
| Throw (e : exn)
| Exhausted.

Arguments Return {A} a.
Arguments Throw {A} e.
Arguments Exhausted {A}.

Definition bind {A B : Type} (m : outcome A) (k : A -> outcome B) : outcome B :=
  match m with
  | Return a => k a
  | Throw e => Throw e
  | Exhausted => Exhausted
  end.

Notation "x <- m ;; k" := (bind m (fun x => k))
  (at level 61, m at next level, right associativity).

(** ** Stores into a [Float32Array]

    [fround x] is the number that reading back gives after [x] was stored
    into a [Float32Array]: the binary32 number nearest to [x]
    ([Math.fround]).  Of round-to-nearest the embedding keeps that it is
    monotone and odd, that it leaves 1 alone, and that it moves a number of
    the normal range (magnitude from [2^-126] to [2^127]) by at most the
    fraction [2^-24] of its magnitude.  Overflow to an infinity is outside
    the embedding, as it is for the arithmetic. *)
Class Float32Store : Type := {
  fround : R -> R;
  fround_monotone : forall x y, x <= y -> fround x <= fround y;
  fround_opp : forall x, fround (- x) = - fround x;
  fround_1 : fround 1 = 1;
  fround_error :
    forall x, / 2 ^ 126 <= Rabs x <= 2 ^ 127 ->
              Rabs (fround x - x) <= Rabs x / 2 ^ 24
}.

(** ** 32-bit integer operators *)

Module Int32.

Definition wrap (z : Z) : Z := ((z + 2 ^ 31) mod 2 ^ 32 - 2 ^ 31)%Z.

(** [a & b] *)
Definition and (a b : Z) : Z := Z.land (wrap a) (wrap b).

(** [a << c]: the count is taken modulo 32, the result wraps. *)
Definition shl (a c : Z) : Z := wrap (Z.shiftl (wrap a) (Z.land c 31)).

End Int32.

(** ** fft.ts *)

Definition Complex : Type := (R * R)%type.

Definition Float32Array : Type := list R.

(** [new Float32Array(targetLength)] followed by [padded.set(arr)]: the
    constructor rejects a negative length and [set] rejects a source longer
    than the target. *)
Definition padToPowerOfTwo (arr : Float32Array) (targetLength : Z)
  : outcome Float32Array :=
  if (targetLength <? 0)%Z then Throw RangeError
  else if (targetLength <? Z.of_nat (length arr))%Z then Throw RangeError
  else Return (arr ++ repeat 0 (Z.to_nat targetLength - length arr)).

(** [Math.ceil(Math.log2(n))] as the shift count that [<<] sees: [log2] of 0
    is [-Infinity] and of a negative number [NaN], both of which [<<] reads
    as 0. *)
Definition ceil_log2 (n : Z) : Z :=
  if (n <=? 0)%Z then 0%Z else Z.log2_up n.

Definition nextPowerOfTwo (n : Z) : Z := Int32.shl 1 (ceil_log2 n).

Definition fft_length_message : string :=
  "FFT 输入长度必须是 2 的幂次".

(** [[Math.cos(angle), Math.sin(angle)]] for [angle = -2 * Math.PI * k / n]. *)
Definition twiddle (n k : nat) : Complex :=
  let angle := -2 * PI * INR k / INR n in
  (cos angle, sin angle).

(** The second loop of [fft] and [fftComplex]: [result[k]] and
    [result[k + n/2]] for [k < n/2].  Every read of [evenFFT] and [oddFFT] is
    in range, both having length [n/2]. *)
Definition butterfly (n : nat) (evenFFT oddFFT : list Complex) : list Complex :=
  let t (k : nat) : Complex :=
    let tw := twiddle n k in
    let o := nth k oddFFT (0, 0) in
    (fst tw * fst o - snd tw * snd o, fst tw * snd o + snd tw * fst o) in
  map (fun k => let e := nth k evenFFT (0, 0) in
                (fst e + fst (t k), snd e + snd (t k))) (seq 0 (n / 2))
  ++
  map (fun k => let e := nth k evenFFT (0, 0) in
                (fst e - fst (t k), snd e - snd (t k))) (seq 0 (n / 2)).

(** The first loop: [even[i] = input[2 * i]], [odd[i] = input[2 * i + 1]] for
    [i < n / 2].  The loops are reached with [n] zero or even (the test before
    them lets no other length below [2^32] through), so [n / 2] is exact and
    every read is in range. *)
Definition evens {A : Type} (d : A) (input : list A) : list A :=
  map (fun i => nth (2 * i) input d) (seq 0 (length input / 2)).

Definition odds {A : Type} (d : A) (input : list A) : list A :=
  map (fun i => nth (2 * i + 1) input d) (seq 0 (length input / 2)).

Definition not_power_of_two_test (n : nat) : bool :=
  negb (Int32.and (Z.of_nat n) (Z.of_nat n - 1) =? 0)%Z.

Fixpoint fft (fuel : nat) (input : Float32Array) : outcome (list Complex) :=
  match fuel with
  | O => Exhausted
  | S fuel' =>
      let n := length input in
      if (n =? 1)%nat then Return [(nth 0 input 0, 0)]
      else if not_power_of_two_test n then Throw (Error fft_length_message)
      else
        evenFFT <- fft fuel' (evens 0 input) ;;
        oddFFT <- fft fuel' (odds 0 input) ;;
        Return (butterfly n evenFFT oddFFT)
  end.

Fixpoint fftComplex (fuel : nat) (input : list Complex) : outcome (list Complex) :=
  match fuel with
  | O => Exhausted
  | S fuel' =>
      let n := length input in
      if (n =? 1)%nat then Return [nth 0 input (0, 0)]
      else if not_power_of_two_test n then Throw (Error fft_length_message)
      else
        evenFFT <- fftComplex fuel' (evens (0, 0) input) ;;
        oddFFT <- fftComplex fuel' (odds (0, 0) input) ;;
        Return (butterfly n evenFFT oddFFT)
  end.

Definition ifft (fuel : nat) (input : list Complex) : outcome (list Complex) :=
  let n := length input in
  let conjugated := map (fun c : Complex => (fst c, - snd c)) input in
  result <- fftComplex fuel conjugated ;;
  Return (map (fun c : Complex => (fst c / INR n, - snd c / INR n)) result).

(** [fftA.map((a, i) => ...)]: [fftB[i]] is in range, both transforms having
    the padded length. *)
Definition spectrum_product (fftA fftB : list Complex) : list Complex :=
  map (fun i =>
         let a := nth i fftA (0, 0) in
         let b := nth i fftB (0, 0) in
         (fst a * fst b + snd a * snd b, snd a * fst b - fst a * snd b))
      (seq 0 (length fftA)).

(** The last loop stores the real parts into a [Float32Array]. *)
Definition crossCorrelate {F32 : Float32Store} (fuel : nat)
  (signalA signalB : Float32Array) : outcome Float32Array :=
  let n := nextPowerOfTwo (Z.of_nat (length signalA) + Z.of_nat (length signalB) - 1) in
  paddedA <- padToPowerOfTwo signalA n ;;
  paddedB <- padToPowerOfTwo signalB n ;;
  fftA <- fft fuel paddedA ;;
  fftB <- fft fuel paddedB ;;
  let product := spectrum_product fftA fftB in
  correlation <- ifft fuel product ;;
  Return (map (fun i => fround (fst (nth i correlation (0, 0))))
              (seq 0 (Z.to_nat n))).

(** [maxValue] starts at [-Infinity], which every real exceeds: [None]. *)
Definition exceeds (x : R) (maxValue : option R) : bool :=
  match maxValue with
  | None => true
  | Some m => if Rlt_dec m x then true else false
  end.

Fixpoint peak_scan (rest : list R) (i : nat) (maxValue : option R) (maxIndex : nat)
  : nat :=
  match rest with
  | [] => maxIndex
  | x :: rest' =>
      if exceeds x maxValue
      then peak_scan rest' (S i) (Some x) i
      else peak_scan rest' (S i) maxValue maxIndex
  end.

Definition findPeakOffset (correlation : Float32Array) (signalBLength : nat) : Z :=
  let maxIndex := peak_scan correlation 0 None 0 in
  let n := length correlation in
  if Rlt_dec (INR n / 2) (INR maxIndex)
  then (Z.of_nat maxIndex - Z.of_nat n)%Z
  else Z.of_nat maxIndex.

(** [correlation[k]] for a number [k]: [undefined] out of range. *)
Definition at_index (correlation : Float32Array) (k : Z) : option R :=
  if (k <? 0)%Z then None else nth_error correlation (Z.to_nat k).

Definition energy (signal : Float32Array) : R :=
  fold_left (fun e x => e + x * x) signal 0.

(** The result is a number or [NaN] ([None]): [Math.abs(undefined)] is [NaN]. *)
Definition calculateConfidence (signalA signalB correlation : Float32Array)
  (peakIndex : Z) : option R :=
  let maxCorr :=
    at_index correlation
      (if (peakIndex <? 0)%Z then Z.of_nat (length correlation) + peakIndex
       else peakIndex)%Z in
  let energyA := energy signalA in
  let energyB := energy signalB in
  let normFactor := sqrt (energyA * energyB) in
  if Req_dec_T normFactor 0 then Some 0
  else match maxCorr with
       | Some v => Some (Rabs v / normFactor)
       | None => None
       end.

(** ** audio module: preprocessAudio *)

(** [sum], [mean] and [maxAbs] are numbers; [result] is a [Float32Array], so
    [result[i] = samples[i] - mean] and [result[i] /= maxAbs] store, and
    [maxAbs] is taken over the stored differences.  For an empty input
    [mean] is [0 / 0]; no sample reads it. *)
Definition preprocessAudio {F32 : Float32Store} (samples : Float32Array)
  : Float32Array :=
  let sum := fold_left Rplus samples 0 in
  let mean := sum / INR (length samples) in
  let result := map (fun x => fround (x - mean)) samples in
  let maxAbs := fold_left (fun m x => Rmax m (Rabs x)) result 0 in
  if Rlt_dec 0 maxAbs then map (fun x => fround (x / maxAbs)) result else result.

(** ** sync module: AudioVideoSync.syncVideos *)

Record AudioData : Type := {
  samples : Float32Array;
  audioSampleRate : Z;
  duration : R;
  channels : Z
}.

Record ExtractOptions : Type := {
  sampleRate : option Z;
  mono : option bool;
  maxDuration : option R
}.

Section Sync.

Context {F32 : Float32Store}.

(** The host: video files, dates, the FFmpeg.wasm instance and the audio
    extraction that runs on it.  [extractAudio] and [ffmpeg_load] belong to
    the collaborator and may throw. *)
Variables File Date FFmpeg : Type.
Variable getTime : Date -> R.
Variable newDate : R -> Date.
Variable ffmpeg_loaded : FFmpeg -> bool.
Variable ffmpeg_load : FFmpeg -> outcome FFmpeg.
Variable extractAudio :
  FFmpeg -> File -> ExtractOptions -> outcome (AudioData * FFmpeg).
(** The [message] of the engine's [RangeError]. *)
Variable range_error_message : string.

Record VideoInput : Type := {
  file : File;
  id : option string;
  originalStartTime : option Date
}.

Record SyncResult : Type := {
  resultId : string;
  offsetSeconds : R;
  offsetSamples : Z;
  confidence : option R;          (* [None] is [NaN] *)
  correctedStartTime : option Date
}.

Record MultiSyncResult : Type := {
  referenceId : string;
  results : list SyncResult;
  resultSampleRate : Z;
  success : bool;
  error : option string
}.

Record SyncOptions : Type := {
  extractOptions : ExtractOptions;
  referenceIndex : option Z;
  minConfidence : option R;
  onProgress : option (string -> R -> outcome unit)
}.

Record AudioVideoSync : Type := {
  ffmpeg : FFmpeg;
  loaded : bool
}.

Definition load (self : AudioVideoSync) : outcome AudioVideoSync :=
  if loaded self then Return self
  else
    f <- (if ffmpeg_loaded (ffmpeg self) then Return (ffmpeg self)
          else ffmpeg_load (ffmpeg self)) ;;
    Return {| ffmpeg := f; loaded := true |}.

(** [i.toString()] *)
Definition toString (i : nat) : string :=
  NilEmpty.string_of_uint (Nat.to_uint i).

(** [s || d] on an optional string: [undefined] and the empty string are
    falsy. *)
Definition string_or (s : option string) (d : string) : string :=
  match s with
  | Some EmptyString => d
  | Some v => v
  | None => d
  end.

(** [extractOptions.sampleRate || 16000] *)
Definition sampleRate_or_default (o : ExtractOptions) : Z :=
  match sampleRate o with
  | Some 0%Z => 16000%Z
  | Some r => r
  | None => 16000%Z
  end.

(** [onProgress?.(stage, progress)] *)
Definition report (cb : option (string -> R -> outcome unit))
  (stage : string) (progress : R) : outcome unit :=
  match cb with
  | Some f => f stage progress
  | None => Return tt
  end.

(** [r.confidence >= minConfidence]; a comparison with [NaN] is false. *)
Definition confidence_ok (minimum : R) (r : SyncResult) : bool :=
  match confidence r with
  | Some c => if Rle_dec minimum c then true else false
  | None => false
  end.

(** The loop that extracts the audio of [videos[i]], [videos[i+1]], ... *)
Fixpoint extract_from (cb : option (string -> R -> outcome unit))
  (opts : ExtractOptions) (total : nat) (f : FFmpeg) (i : nat)
  (rest : list VideoInput) : outcome (list AudioData) :=
  match rest with
  | [] => Return []
  | v :: rest' =>
      _ <- report cb "extracting"%string ((INR i + 1) / INR total) ;;
      r <- extractAudio f (file v) opts ;;
      tl <- extract_from cb opts total (snd r) (S i) rest' ;;
      Return (fst r :: tl)
  end.

(** One turn of the correlation loop, for the video at index [i]. *)
Definition correlate_one (fuel : nat) (referenceIdx : Z)
  (referenceVideo : VideoInput) (referenceAudio : Float32Array)
  (rate : Z) (processedAudio : list Float32Array)
  (i : nat) (video : VideoInput) : outcome SyncResult :=
  let videoId := string_or (id video) (toString i) in
  if (Z.of_nat i =? referenceIdx)%Z then
    Return {| resultId := videoId;
              offsetSeconds := 0;
              offsetSamples := 0;
              confidence := Some 1;
              correctedStartTime := originalStartTime video |}
  else
    let targetAudio := nth i processedAudio [] in
    correlation <- crossCorrelate fuel referenceAudio targetAudio ;;
    let offset := findPeakOffset correlation (length targetAudio) in
    let seconds := IZR offset / IZR rate in
    let conf := calculateConfidence referenceAudio targetAudio correlation offset in
    let corrected :=
      match originalStartTime referenceVideo with
      | Some t => Some (newDate (getTime t - seconds * 1000))
      | None => None
      end in
    Return {| resultId := videoId;
              offsetSeconds := seconds;
              offsetSamples := offset;
              confidence := conf;
              correctedStartTime := corrected |}.

Fixpoint correlate_from (fuel : nat) (cb : option (string -> R -> outcome unit))
  (total : nat) (referenceIdx : Z) (referenceVideo : VideoInput)
  (referenceAudio : Float32Array) (rate : Z)
  (processedAudio : list Float32Array) (i : nat) (rest : list VideoInput)
  : outcome (list SyncResult) :=
  match rest with
  | [] => Return []
  | video :: rest' =>
      _ <- report cb "correlating"%string ((INR i + 1) / INR total) ;;
      r <- correlate_one fuel referenceIdx referenceVideo referenceAudio rate
             processedAudio i video ;;
      tl <- correlate_from fuel cb total referenceIdx referenceVideo
              referenceAudio rate processedAudio (S i) rest' ;;
      Return (r :: tl)
  end.

(** [error instanceof Error ? error.message : ...] *)
Definition message_of (e : exn) : string :=
  match e with
  | Error m => m
  | RangeError => range_error_message
  | NotAnError => "同步过程发生错误"%string
  end.

(** The body of the [try] block; [referenceIdx] is a valid index here. *)
Definition syncVideos_try (fuel : nat) (self : AudioVideoSync)
  (videos : list VideoInput) (referenceVideo : VideoInput)
  (referenceIdx : Z) (minimum : R)
  (cb : option (string -> R -> outcome unit)) (opts : ExtractOptions)
  : outcome MultiSyncResult :=
  self' <- load self ;;
  audioDataList <-
    extract_from cb opts (length videos) (ffmpeg self') 0 videos ;;
  let processedAudio := map (fun a => preprocessAudio (samples a)) audioDataList in
  let referenceAudio := nth (Z.to_nat referenceIdx) processedAudio [] in
  let rate :=   (* [audioDataList[referenceIndex].sampleRate], in range *)
    match nth_error audioDataList (Z.to_nat referenceIdx) with
    | Some a => audioSampleRate a
    | None => 0%Z
    end in
  res <- correlate_from fuel cb (length videos) referenceIdx referenceVideo
           referenceAudio rate processedAudio 0 videos ;;
  let allSuccessful := forallb (confidence_ok minimum) res in
  Return {| referenceId :=
              string_or (id referenceVideo) (toString (Z.to_nat referenceIdx));
            results := res;
            resultSampleRate := rate;
            success := allSuccessful;
            error := if allSuccessful then None
                     else Some "部分视频同步置信度过低"%string |}.

Definition syncVideos (fuel : nat) (self : AudioVideoSync)
  (videos : list VideoInput) (options : SyncOptions)
  : outcome MultiSyncResult :=
  let referenceIdx := match referenceIndex options with Some i => i | None => 0%Z end in
  let minimum := match minConfidence options with Some m => m | None => 3 / 10 end in
  let cb := onProgress options in
  let opts := extractOptions options in
  if (length videos <? 2)%nat then
    Return {| referenceId :=
                string_or (match videos with v :: _ => id v | [] => None end) "0"%string;
              results := [];
              resultSampleRate := sampleRate_or_default opts;
              success := false;
              error := Some "至少需要 2 个视频进行同步"%string |}
  else if ((referenceIdx <? 0) || (Z.of_nat (length videos) <=? referenceIdx))%Z then
    Return {| referenceId := EmptyString;
              results := [];
              resultSampleRate := sampleRate_or_default opts;
              success := false;
              error := Some "参考视频索引无效"%string |}
  else
    match nth_error videos (Z.to_nat referenceIdx) with
    | None => Exhausted   (* not reached: the index was checked *)
    | Some referenceVideo =>
        match syncVideos_try fuel self videos referenceVideo referenceIdx
                minimum cb opts with
        | Throw e =>
            Return {| referenceId :=
                        string_or (id referenceVideo)
                          (toString (Z.to_nat referenceIdx));
                      results := [];
                      resultSampleRate := sampleRate_or_default opts;
                      success := false;
                      error := Some (message_of e) |}
        | other => other
        end
    end.

End Sync.

Arguments file {File Date} _.
Arguments id {File Date} _.
Arguments originalStartTime {File Date} _.
Arguments resultId {Date} _.
Arguments offsetSeconds {Date} _.
Arguments offsetSamples {Date} _.
Arguments confidence {Date} _.
Arguments correctedStartTime {Date} _.
Arguments referenceId {Date} _.
Arguments results {Date} _.
Arguments resultSampleRate {Date} _.
Arguments success {Date} _.
Arguments error {Date} _.
Arguments ffmpeg {FFmpeg} _.
Arguments loaded {FFmpeg} _.
Arguments load {FFmpeg} _ _ _.
Arguments confidence_ok {Date} _ _.
Arguments extract_from {File Date FFmpeg} _ _ _ _ _ _ _.
Arguments correlate_one {F32 File Date} _ _ _ _ _ _ _ _ _ _.
Arguments correlate_from {F32 File Date} _ _ _ _ _ _ _ _ _ _ _ _.
Arguments syncVideos_try {F32 File Date FFmpeg} _ _ _ _ _ _ _ _ _ _ _ _ _.
Arguments syncVideos {F32 File Date FFmpeg} _ _ _ _ _ _ _ _ _ _.

(** ** audio module: pcm16ToFloat32, audioBufferToFloat32, downsample *)

(** [view.getInt16(offset, true)]: the two bytes at [offset], low byte first,
    read as a signed 16-bit integer. *)
Definition getInt16_le (lo hi : Byte.byte) : Z :=
  let u := (Z.of_N (Byte.to_N lo) + 256 * Z.of_N (Byte.to_N hi))%Z in
  if (u <? 32768)%Z then u else (u - 65536)%Z.

(** The loop reads one sample per pair of bytes.  On an odd length
    [numSamples] ends in .5, the loop runs once more than there are pairs and
    [getInt16] reads past the end of the view, which is a [RangeError].  The
    quotient [int16 / 32768] is a binary32 number (16 significant bits, a
    power-of-two divisor), so its store is exact. *)
Fixpoint pcm16ToFloat32 (pcmData : list Byte.byte) : outcome Float32Array :=
  match pcmData with
  | [] => Return []
  | [_] => Throw RangeError
  | lo :: hi :: rest =>
      tl <- pcm16ToFloat32 rest ;;
      Return (IZR (getInt16_le lo hi) / 32768 :: tl)
  end.

(** An [AudioBuffer]: its channel count, its length in sample frames and its
    channels, each of that length. *)
Record AudioBuffer : Type := {
  numberOfChannels : nat;
  bufferLength : nat;
  getChannelData : nat -> Float32Array
}.

(** One turn of the outer loop: [mixed[i] += channelData[i] / numChannels],
    a store into the [Float32Array] [mixed]. *)
Definition mix_channel {F32 : Float32Store} (numChannels : nat)
  (mixed channelData : Float32Array) : Float32Array :=
  map (fun i => fround (nth i mixed 0 + nth i channelData 0 / INR numChannels))
      (seq 0 (length mixed)).

Definition audioBufferToFloat32 {F32 : Float32Store} (audioBuffer : AudioBuffer)
  : Float32Array :=
  if (numberOfChannels audioBuffer =? 1)%nat then getChannelData audioBuffer 0
  else
    fold_left
      (fun mixed ch =>
         mix_channel (numberOfChannels audioBuffer) mixed
                     (getChannelData audioBuffer ch))
      (seq 0 (numberOfChannels audioBuffer))
      (repeat 0 (bufferLength audioBuffer)).

(** [Math.floor] *)
Definition floor (x : R) : Z := Int_part x.

(** The loop copies samples from one [Float32Array] to another.  The rates
    are real numbers.  A zero [toRate] makes [ratio] infinite and
    [newLength] 0; a zero [fromRate] makes [samples.length / ratio] infinite
    ([NaN] on an empty input, which the constructor reads as 0); a negative
    [newLength] is refused by the constructor.  With a positive [ratio] every
    read [samples[srcIndex]] is in range. *)
Definition downsample (samples : Float32Array) (fromRate toRate : R)
  : outcome Float32Array :=
  if Req_dec_T fromRate toRate then Return samples
  else if Req_dec_T toRate 0 then Return []
  else if Req_dec_T fromRate 0 then
    (if (length samples =? 0)%nat then Return [] else Throw RangeError)
  else
    let ratio := fromRate / toRate in
    let newLength := floor (INR (length samples) / ratio) in
    if (newLength <? 0)%Z then Throw RangeError
    else Return (map (fun i => nth (Z.to_nat (floor (INR i * ratio))) samples 0)
                     (seq 0 (Z.to_nat newLength))).

(** ** sync module: AudioVideoSync.calculateOffset *)

Section Offset.

Context {F32 : Float32Store}.

Variables File FFmpeg : Type.
Variable ffmpeg_loaded : FFmpeg -> bool.
Variable ffmpeg_load : FFmpeg -> outcome FFmpeg.
Variable extractAudio :
  FFmpeg -> File -> ExtractOptions -> outcome (AudioData * FFmpeg).

(** No [try] here: a fault of the host or of the correlation is thrown to the
    caller.  The result is the pair [{ offsetSeconds, confidence }]. *)
Definition calculateOffset (fuel : nat) (self : AudioVideoSync FFmpeg)
  (referenceVideo targetVideo : File) (options : ExtractOptions)
  : outcome (R * option R) :=
  self' <- load ffmpeg_loaded ffmpeg_load self ;;
  ref <- extractAudio (ffmpeg self') referenceVideo options ;;
  target <- extractAudio (snd ref) targetVideo options ;;
  let refProcessed := preprocessAudio (samples (fst ref)) in
  let targetProcessed := preprocessAudio (samples (fst target)) in
  correlation <- crossCorrelate fuel refProcessed targetProcessed ;;
  let offset := findPeakOffset correlation (length targetProcessed) in
  let seconds := IZR offset / IZR (audioSampleRate (fst ref)) in
  let conf := calculateConfidence refProcessed targetProcessed correlation offset in
  Return (seconds, conf).

End Offset.

Arguments calculateOffset {F32 File FFmpeg} _ _ _ _ _ _ _ _.

(** ** Vocabulary of the statements

    The definitions below are not code of the repository: they are the
    mathematical objects that the properties compare the code with. *)

(** A real sequence read as complex numbers with zero imaginary part. *)
Definition zero_imag (x : Float32Array) : list Complex :=
  map (fun r => (r, 0)) x.

Definition C0 : Complex := (0, 0).
Definition C1 : Complex := (1, 0).
Definition Cadd (a b : Complex) : Complex := (fst a + fst b, snd a + snd b).
Definition Csub (a b : Complex) : Complex := (fst a - fst b, snd a - snd b).
Definition Cmul (a b : Complex) : Complex :=
  (fst a * fst b - snd a * snd b, fst a * snd b + snd a * fst b).
Definition Cconj (a : Complex) : Complex := (fst a, - snd a).
Definition Cscale (r : R) (a : Complex) : Complex := (r * fst a, r * snd a).

(** [w n e] is the [e]-th power of the principal [n]-th root of unity
    [exp(-2 pi i / n)]. *)
Definition w (n : nat) (e : Z) : Complex :=
  (cos (-2 * PI * IZR e / INR n), sin (-2 * PI * IZR e / INR n)).

Fixpoint Csum (f : nat -> Complex) (n : nat) : Complex :=
  match n with
  | O => C0
  | S m => Cadd (Csum f m) (f m)
  end.

(** The discrete Fourier transform of [x], bin [k]. *)
Definition dft_bin (x : list Complex) (k : nat) : Complex :=
  Csum (fun j => Cmul (nth j x C0) (w (length x) (Z.of_nat j * Z.of_nat k)))
       (length x).

Definition dft (x : list Complex) : list Complex :=
  map (dft_bin x) (seq 0 (length x)).

(** The circular correlation of two real sequences of the same length [n]:
    [sum over p of a[(p + k) mod n] * b[p]]. *)
Fixpoint Rsum (f : nat -> R) (n : nat) : R :=
  match n with
  | O => 0
  | S m => Rsum f m + f m
  end.

Definition circular_correlation (a b : list R) (k : nat) : R :=
  Rsum (fun p => nth ((p + k) mod length a) a 0 * nth p b 0) (length a).

(** The same on complex sequences, the second one conjugated. *)
Definition complex_correlation (a b : list Complex) (k : nat) : Complex :=
  Csum (fun p => Cmul (nth ((p + k) mod length a) a C0) (Cconj (nth p b C0)))
       (length a).

(** [arr] followed by zeros up to length [n]. *)
Definition zero_pad (arr : list R) (n : nat) : list R :=
  arr ++ repeat 0 (n - length arr).

(** [i] is the lowest index at which [l] attains its greatest value. *)
Definition first_max (l : list R) (i : nat) : Prop :=
  (i < length l)%nat /\
  (forall j, (j < i)%nat -> nth j l 0 < nth i l 0) /\
  (forall j, (j < length l)%nat -> nth j l 0 <= nth i l 0).

(** The circular-index-to-lag map: [i] if [i <= n/2], else [i - n]. *)
Definition lag (i n : nat) : Z :=
  if (n <? 2 * i)%nat then (Z.of_nat i - Z.of_nat n)%Z else Z.of_nat i.

(** [a] delayed by [d] samples, zero-filled on the left, same length:
    [b[i] = a[i - d]] for [i >= d], else 0. *)
Definition shift_right (d : nat) (a : list R) : list R :=
  map (fun i => if (i <? d)%nat then 0 else nth (i - d) a 0) (seq 0 (length a)).

(** The reference index and the threshold that a call works with. *)
Definition reference_of (options : SyncOptions) : Z :=
  match referenceIndex options with Some i => i | None => 0%Z end.

Definition minimum_of (options : SyncOptions) : R :=
  match minConfidence options with Some m => m | None => 3 / 10 end.

Definition with_minConfidence (options : SyncOptions) (m : R) : SyncOptions :=
  {| extractOptions := extractOptions options;
     referenceIndex := referenceIndex options;
     minConfidence := Some m;
     onProgress := onProgress options |}.

(** A host whose audio extraction fails on every file, and one that decodes
    every file to the same two silent samples. *)
Definition failing_extract (f : unit) (v : unit) (o : ExtractOptions)
  : outcome (AudioData * unit) :=
  Throw (Error "no audio stream").

Definition silent_audio : AudioData :=
  {| samples := [0; 0]; audioSampleRate := 16000; duration := 0; channels := 1 |}.

Definition silent_extract (f : unit) (v : unit) (o : ExtractOptions)
  : outcome (AudioData * unit) :=
  Return (silent_audio, f).

Definition ready : AudioVideoSync unit := {| ffmpeg := tt; loaded := true |}.

Definition two_videos : list (VideoInput unit R) :=
  [ {| file := tt; id := Some "cam1"%string; originalStartTime := None |};
    {| file := tt; id := Some "cam2"%string; originalStartTime := None |} ].

Definition default_options : SyncOptions :=
  {| extractOptions := {| sampleRate := None; mono := None; maxDuration := None |};
     referenceIndex := None;
     minConfidence := None;
     onProgress := None |}.

(** [a[k]] for an integer [k], read as 0 outside the sequence. *)
Definition sample_at (a : list R) (k : Z) : R :=
  if (k <? 0)%Z then 0 else nth (Z.to_nat k) a 0.

(** The linear cross-correlation of [a] against [b] at the integer lag [k]:
    [sum over p of a[p + k] * b[p]], without wrap-around. *)
Definition linear_correlation (a b : list R) (k : Z) : R :=
  Rsum (fun p => sample_at a (Z.of_nat p + k) * nth p b 0) (length b).

(** The squared modulus of a complex number. *)
Definition Cnorm2 (c : Complex) : R := fst c * fst c + snd c * snd c.

(** [c * x + y], entry by entry. *)
Definition Caxpy (c : Complex) (x y : list Complex) : list Complex :=
  map (fun i => Cadd (Cmul c (nth i x C0)) (nth i y C0)) (seq 0 (length x)).

(** The running sum and the running maximum of absolute values that the
    loops of [preprocessAudio] compute. *)
Definition sum_of (l : list R) : R := fold_left Rplus l 0.

Definition maxAbs_of (l : list R) : R :=
  fold_left (fun m x => Rmax m (Rabs x)) l 0.

(** The two bytes of a 16-bit sample, low byte first (two's complement). *)
Definition byte_of_Z (m : Z) : Byte.byte :=
  match Byte.of_N (Z.to_N m) with
  | Some b => b
  | None => Byte.x00
  end.

Definition int16_bytes (z : Z) : list Byte.byte :=
  [byte_of_Z (z mod 256); byte_of_Z ((z / 256) mod 256)].

(** The sum of the squares of the samples of a sequence. *)
Definition sum_of_squares (x : list R) : R :=
  Rsum (fun i => nth i x 0 * nth i x 0) (length x).

(** The unit impulse of length 8. *)
Definition impulse : Float32Array := [1; 0; 0; 0; 0; 0; 0; 0].

Definition is_power_of_two (n : Z) : Prop := exists k : Z, (0 <= k)%Z /\ n = (2 ^ k)%Z.

(** The store that rounds nothing: exact arithmetic throughout. *)
Definition exact_store : Float32Store.
Proof.
  refine {| fround := fun x => x |}.
  - intros x y H. exact H.
  - intros x. reflexivity.
  - reflexivity.
  - intros x _. unfold Rminus. rewrite Rplus_opp_r, Rabs_R0.
    apply Rmult_le_pos; [apply Rabs_pos |].
    apply Rlt_le, Rinv_0_lt_compat, pow_lt. lra.
Defined.

(** The nearest integer, halves away from zero. *)
Definition nearest (y : R) : Z :=
  if Rle_dec 0 y then floor (y + / 2) else (- floor (- y + / 2))%Z.

(** The nearest multiple of [2^-149], the spacing of the binary32 numbers
    next to zero. *)
Definition grid_round (x : R) : R := IZR (nearest (x * 2 ^ 149)) / 2 ^ 149.

(** A store that rounds, to the grid of spacing [2^-149]: it is finer than
    binary32 away from zero and obeys the same laws. *)
Definition grid_store : Float32Store.
Proof.
  assert (Hfloor : forall u, IZR (floor u) <= u < IZR (floor u) + 1).
  { intros u. unfold floor. destruct (base_Int_part u). lra. }
  assert (Hmono : forall u v, u <= v -> (floor u <= floor v)%Z).
  { intros u v Huv. pose proof (Hfloor u). pose proof (Hfloor v).
    assert (H1 : IZR (floor u) < IZR (floor v + 1)) by (rewrite plus_IZR; lra).
    apply lt_IZR in H1. lia. }
  assert (Hnonneg : forall u, 0 <= u -> (0 <= floor u)%Z).
  { intros u Hu. pose proof (Hfloor u).
    assert (H1 : IZR (-1) < IZR (floor u)) by lra.
    apply lt_IZR in H1. lia. }
  assert (Hint : forall z, floor (IZR z + / 2) = z).
  { intros z. pose proof (Hfloor (IZR z + / 2)).
    assert (H1 : IZR (floor (IZR z + / 2)) < IZR (z + 1)) by (rewrite plus_IZR; lra).
    assert (H2 : IZR (z - 1) < IZR (floor (IZR z + / 2))) by (rewrite minus_IZR; lra).
    apply lt_IZR in H1, H2. lia. }
  assert (Hnear_mono : forall u v, u <= v -> (nearest u <= nearest v)%Z).
  { intros u v Huv. unfold nearest.
    destruct (Rle_dec 0 u) as [Hu | Hu], (Rle_dec 0 v) as [Hv | Hv].
    - apply Hmono. lra.
    - lra.
    - pose proof (Hnonneg (- u + / 2)). pose proof (Hnonneg (v + / 2)).
      assert (0 <= floor (- u + / 2))%Z by (apply Hnonneg; lra).
      assert (0 <= floor (v + / 2))%Z by (apply Hnonneg; lra).
      lia.
    - assert (floor (- v + / 2) <= floor (- u + / 2))%Z by (apply Hmono; lra).
      lia. }
  assert (Hnear_opp : forall u, nearest (- u) = (- nearest u)%Z).
  { intros u. unfold nearest.
    destruct (Rle_dec 0 u) as [Hu | Hu], (Rle_dec 0 (- u)) as [Hv | Hv].
    - assert (E : u = 0) by lra. subst u. rewrite Ropp_0.
      change 0 with (IZR 0). rewrite Hint. reflexivity.
    - rewrite Ropp_involutive. reflexivity.
    - lia.
    - lra. }
  assert (Hnear_int : forall z, nearest (IZR z) = z).
  { intros z. unfold nearest. destruct (Rle_dec 0 (IZR z)) as [Hz | Hz].
    - apply Hint.
    - rewrite <- opp_IZR, Hint. lia. }
  assert (Hnear_err : forall u, Rabs (IZR (nearest u) - u) <= / 2).
  { intros u. unfold nearest. destruct (Rle_dec 0 u) as [Hu | Hu].
    - pose proof (Hfloor (u + / 2)). apply Rabs_le. lra.
    - pose proof (Hfloor (- u + / 2)). rewrite opp_IZR. apply Rabs_le. lra. }
  assert (Hpos : 0 < 2 ^ 149) by (apply pow_lt; lra).
  refine {| fround := grid_round |}.
  - intros x y Hxy. unfold grid_round.
    apply Rmult_le_compat_r; [apply Rlt_le, Rinv_0_lt_compat, Hpos |].
    apply IZR_le, Hnear_mono. apply Rmult_le_compat_r; lra.
  - intros x. unfold grid_round.
    rewrite Ropp_mult_distr_l_reverse, Hnear_opp, opp_IZR.
    unfold Rdiv. ring.
  - unfold grid_round. rewrite Rmult_1_l.
    replace (2 ^ 149) with (IZR (2 ^ Z.of_nat 149)) at 1
      by (rewrite <- pow_IZR; reflexivity).
    rewrite Hnear_int, <- pow_IZR. apply Rinv_r. lra.
  - intros x [Hx _]. unfold grid_round.
    replace (IZR (nearest (x * 2 ^ 149)) / 2 ^ 149 - x)
      with ((IZR (nearest (x * 2 ^ 149)) - x * 2 ^ 149) / 2 ^ 149)
      by (field; lra).
    unfold Rdiv at 1. rewrite Rabs_mult, (Rabs_pos_eq (/ 2 ^ 149))
      by (apply Rlt_le, Rinv_0_lt_compat, Hpos).
    pose proof (Hnear_err (x * 2 ^ 149)) as Herr.
    assert (Hsplit : 2 ^ 149 = 2 ^ 126 * 2 ^ 23)
      by (rewrite <- pow_add; reflexivity).
    assert (H126 : 0 < 2 ^ 126) by (apply pow_lt; lra).
    assert (H23 : 2 ^ 23 * 2 = 2 ^ 24) by (simpl; ring).
    assert (Hinv : 0 < / 2 ^ 149) by (apply Rinv_0_lt_compat, Hpos).
    apply Rle_trans with (/ 2 * / 2 ^ 149).
    + apply Rmult_le_compat_r; [lra | exact Herr].
    + apply Rle_trans with (/ 2 ^ 126 / 2 ^ 24).
      * right. rewrite Hsplit, <- H23. field.
      * apply Rmult_le_compat_r; [| exact Hx].
        apply Rlt_le, Rinv_0_lt_compat, pow_lt. lra.
Defined.

(** A host that decodes every file to the same two samples of a tone, and
    two videos that carry a start time. *)
Definition tone_audio : AudioData :=
  {| samples := [1; -1]; audioSampleRate := 16000; duration := 0; channels := 1 |}.

Definition tone_extract (f : unit) (v : unit) (o : ExtractOptions)
  : outcome (AudioData * unit) :=
  Return (tone_audio, f).

Definition timed_videos : list (VideoInput unit R) :=
  [ {| file := tt; id := Some "cam1"%string; originalStartTime := Some 5000 |};
    {| file := tt; id := None; originalStartTime := Some 7000 |} ].

(** * Properties *)

(** ** Outcomes *)

Lemma bind_Return {A B : Type} (m : outcome A) (k : A -> outcome B) (b : B) :
  bind m k = Return b -> exists a, m = Return a /\ k a = Return b.
Proof.
  destruct m as [a | e | ]; simpl; intros H; try discriminate.
  exists a; split; [reflexivity | exact H].
Qed.

(** ** The two entry points of the forward transform *)

Lemma zero_imag_length (x : Float32Array) : length (zero_imag x) = length x.
Proof. apply length_map. Qed.

Lemma evens_map {A B : Type} (f : A -> B) (d : A) (l : list A) :
  evens (f d) (map f l) = map f (evens d l).
Proof.
  unfold evens. rewrite length_map, map_map.
  apply map_ext. intros i. apply map_nth.
Qed.

Lemma odds_map {A B : Type} (f : A -> B) (d : A) (l : list A) :
  odds (f d) (map f l) = map f (odds d l).
Proof.
  unfold odds. rewrite length_map, map_map.
  apply map_ext. intros i. apply map_nth.
Qed.

Lemma evens_zero_imag (x : Float32Array) :
  evens (0, 0) (zero_imag x) = zero_imag (evens 0 x).
Proof. exact (evens_map (fun r : R => (r, 0)) 0 x). Qed.

Lemma odds_zero_imag (x : Float32Array) :
  odds (0, 0) (zero_imag x) = zero_imag (odds 0 x).
Proof. exact (odds_map (fun r : R => (r, 0)) 0 x). Qed.

Lemma nth_zero_imag (i : nat) (x : Float32Array) :
  nth i (zero_imag x) (0, 0) = (nth i x 0, 0).
Proof. exact (map_nth (fun r : R => (r, 0)) x 0 i). Qed.

Lemma fft_fftComplex (fuel : nat) :
  forall x : Float32Array, fft fuel x = fftComplex fuel (zero_imag x).
Proof.
  induction fuel as [| fuel IH]; intros x; [reflexivity |].
  cbn [fft fftComplex]. rewrite zero_imag_length.
  destruct (length x =? 1)%nat.
  - rewrite nth_zero_imag. reflexivity.
  - destruct (not_power_of_two_test (length x)); [reflexivity |].
    rewrite evens_zero_imag, odds_zero_imag, <- !IH. reflexivity.
Qed.

(** ** The 32-bit operators on lengths *)

Lemma wrap_small (z : Z) :
  (- 2 ^ 31 <= z < 2 ^ 31)%Z -> Int32.wrap z = z.
Proof.
  intros H. unfold Int32.wrap.
  rewrite Z.mod_small by lia. lia.
Qed.

Lemma wrap_multiple (m : Z) : Int32.wrap (2 ^ 32 * m) = 0%Z.
Proof.
  unfold Int32.wrap.
  rewrite Z.add_comm, Z.mul_comm, Z.mod_add by lia.
  reflexivity.
Qed.

Lemma of_nat_pow2 (k : nat) : Z.of_nat (2 ^ k) = (2 ^ Z.of_nat k)%Z.
Proof. rewrite Nat2Z.inj_pow. reflexivity. Qed.

Lemma and_pow2_pred (k : Z) :
  (0 <= k)%Z -> Int32.and (2 ^ k) (2 ^ k - 1) = 0%Z.
Proof.
  intros Hk. unfold Int32.and.
  destruct (Z_lt_le_dec k 32) as [Hlt | Hge].
  - assert (Hcases : exists j : nat, (j < 32)%nat /\ k = Z.of_nat j).
    { exists (Z.to_nat k). split; lia. }
    destruct Hcases as [j [Hj ->]].
    do 32 (destruct j as [| j]; [vm_compute; reflexivity |]).
    lia.
  - replace k with (32 + (k - 32))%Z by lia.
    rewrite Z.pow_add_r by lia.
    rewrite wrap_multiple. apply Z.land_0_l.
Qed.

Lemma power_of_two_passes (k : nat) : not_power_of_two_test (2 ^ k) = false.
Proof.
  unfold not_power_of_two_test.
  rewrite of_nat_pow2, and_pow2_pred by lia. reflexivity.
Qed.

Lemma zero_passes : not_power_of_two_test 0 = false.
Proof. reflexivity. Qed.

(** A positive number below [2^31] that is not a power of two shares its
    leading bit with its predecessor. *)
Lemma land_pred_nonzero (n : Z) :
  (0 < n)%Z -> (forall k, (0 <= k)%Z -> n <> 2 ^ k)%Z -> Z.land n (n - 1) <> 0%Z.
Proof.
  intros Hpos Hnp Hland.
  pose proof (Z.log2_spec n Hpos) as [Hlo Hhi].
  pose proof (Z.log2_nonneg n) as Hk.
  assert (Hlt : (2 ^ Z.log2 n < n)%Z).
  { specialize (Hnp (Z.log2 n) Hk). lia. }
  assert (Hlog : Z.log2 (n - 1) = Z.log2 n).
  { apply Z.log2_unique; lia. }
  assert (Hbit : Z.testbit (Z.land n (n - 1)) (Z.log2 n) = true).
  { rewrite Z.land_spec, Z.bit_log2 by lia.
    rewrite <- Hlog, Z.bit_log2 by lia. reflexivity. }
  rewrite Hland, Z.bits_0 in Hbit. discriminate.
Qed.

Lemma non_power_of_two_fails (n : nat) :
  (0 < n)%nat -> (Z.of_nat n < 2 ^ 31)%Z -> (forall k, n <> 2 ^ k)%nat ->
  not_power_of_two_test n = true.
Proof.
  intros Hpos Hbound Hnp. unfold not_power_of_two_test, Int32.and.
  rewrite !wrap_small by lia.
  apply negb_true_iff, Z.eqb_neq, land_pred_nonzero; [lia |].
  intros k Hk Heq. apply (Hnp (Z.to_nat k)).
  apply Nat2Z.inj. rewrite of_nat_pow2, Z2Nat.id by lia. exact Heq.
Qed.

(** ** Termination of the transform *)

Lemma evens_length {A : Type} (d : A) (l : list A) :
  length (evens d l) = (length l / 2)%nat.
Proof. unfold evens. rewrite length_map, length_seq. reflexivity. Qed.

Lemma odds_length {A : Type} (d : A) (l : list A) :
  length (odds d l) = (length l / 2)%nat.
Proof. unfold odds. rewrite length_map, length_seq. reflexivity. Qed.

Lemma butterfly_length (n : nat) (e o : list Complex) :
  length (butterfly n e o) = (n / 2 + n / 2)%nat.
Proof.
  unfold butterfly. rewrite length_app, !length_map, !length_seq. reflexivity.
Qed.

Lemma half_pow2 (k : nat) : (2 ^ S k / 2 = 2 ^ k)%nat.
Proof.
  rewrite Nat.pow_succ_r', Nat.mul_comm. apply Nat.div_mul. discriminate.
Qed.

Lemma pow2_succ_neq_1 (k : nat) : (2 ^ S k =? 1)%nat = false.
Proof.
  apply Nat.eqb_neq. rewrite Nat.pow_succ_r'.
  pose proof (Nat.pow_nonzero 2 k). lia.
Qed.

Lemma fftComplex_S (fuel : nat) (input : list Complex) :
  fftComplex (S fuel) input =
  if (length input =? 1)%nat then Return [nth 0 input (0, 0)]
  else if not_power_of_two_test (length input)
       then Throw (Error fft_length_message)
       else evenFFT <- fftComplex fuel (evens (0, 0) input) ;;
            oddFFT <- fftComplex fuel (odds (0, 0) input) ;;
            Return (butterfly (length input) evenFFT oddFFT).
Proof. reflexivity. Qed.

Lemma fftComplex_returns (k : nat) :
  forall x, length x = (2 ^ k)%nat ->
  exists r, fftComplex (S k) x = Return r /\ length r = (2 ^ k)%nat.
Proof.
  induction k as [| k IH]; intros x Hlen.
  - rewrite fftComplex_S, Hlen. simpl. eexists; split; reflexivity.
  - rewrite fftComplex_S, Hlen, pow2_succ_neq_1, power_of_two_passes.
    destruct (IH (evens (0, 0) x)) as [re [He Hle]].
    { rewrite evens_length, Hlen. apply half_pow2. }
    destruct (IH (odds (0, 0) x)) as [ro [Ho Hlo]].
    { rewrite odds_length, Hlen. apply half_pow2. }
    rewrite He, Ho. cbn [bind].
    eexists; split; [reflexivity |].
    rewrite butterfly_length, half_pow2, Nat.pow_succ_r'. lia.
Qed.

Lemma fftComplex_more_fuel (fuel : nat) :
  forall x r, fftComplex fuel x = Return r -> fftComplex (S fuel) x = Return r.
Proof.
  induction fuel as [| fuel IH]; intros x r H; [discriminate |].
  rewrite fftComplex_S in H. rewrite (fftComplex_S (S fuel)).
  destruct (length x =? 1)%nat; [exact H |].
  destruct (not_power_of_two_test (length x)); [exact H |].
  apply bind_Return in H. destruct H as [re [He H]].
  apply bind_Return in H. destruct H as [ro [Ho H]].
  rewrite (IH _ _ He), (IH _ _ Ho). exact H.
Qed.

Lemma fftComplex_fuel_le (fuel fuel' : nat) (x r : list Complex) :
  (fuel <= fuel')%nat -> fftComplex fuel x = Return r ->
  fftComplex fuel' x = Return r.
Proof.
  induction 1 as [| m Hle IH]; intros H; [exact H |].
  apply fftComplex_more_fuel, IH, H.
Qed.

Lemma fftComplex_empty (fuel : nat) : fftComplex fuel [] = Exhausted.
Proof.
  induction fuel as [| fuel IH]; [reflexivity |].
  rewrite fftComplex_S. change (length (@nil Complex)) with 0%nat.
  rewrite zero_passes. cbn [Nat.eqb].
  change (evens (0, 0) (@nil Complex)) with (@nil Complex).
  rewrite IH. reflexivity.
Qed.

Lemma fftComplex_rejects (fuel : nat) (x : list Complex) :
  (0 < length x)%nat -> (Z.of_nat (length x) < 2 ^ 31)%Z ->
  (forall k, length x <> 2 ^ k)%nat ->
  fftComplex (S fuel) x = Throw (Error fft_length_message).
Proof.
  intros Hpos Hbound Hnp. rewrite fftComplex_S.
  rewrite (non_power_of_two_fails _ Hpos Hbound Hnp).
  destruct (length x =? 1)%nat eqn:E; [| reflexivity].
  apply Nat.eqb_eq in E. exfalso. apply (Hnp 0%nat). exact E.
Qed.

(** ** Complex arithmetic on pairs *)

Ltac cpx :=
  unfold Cadd, Csub, Cmul, Cconj, Cscale, C0, C1; cbn [fst snd];
  try (f_equal; ring).

Lemma Cadd_0_l (a : Complex) : Cadd C0 a = a.
Proof. destruct a. cpx. Qed.

Lemma Cadd_0_r (a : Complex) : Cadd a C0 = a.
Proof. destruct a. cpx. Qed.

Lemma Cadd_comm (a b : Complex) : Cadd a b = Cadd b a.
Proof. cpx. Qed.

Lemma Cadd_assoc (a b c : Complex) : Cadd a (Cadd b c) = Cadd (Cadd a b) c.
Proof. cpx. Qed.

Lemma Cmul_comm (a b : Complex) : Cmul a b = Cmul b a.
Proof. cpx. Qed.

Lemma Cmul_assoc (a b c : Complex) : Cmul a (Cmul b c) = Cmul (Cmul a b) c.
Proof. cpx. Qed.

Lemma Cmul_1_r (a : Complex) : Cmul a C1 = a.
Proof. destruct a. cpx. Qed.

Lemma Cmul_1_l (a : Complex) : Cmul C1 a = a.
Proof. destruct a. cpx. Qed.

Lemma Cmul_0_r (a : Complex) : Cmul a C0 = C0.
Proof. cpx. Qed.

Lemma Cmul_0_l (a : Complex) : Cmul C0 a = C0.
Proof. cpx. Qed.

Lemma Cmul_add_distr_l (a b c : Complex) :
  Cmul a (Cadd b c) = Cadd (Cmul a b) (Cmul a c).
Proof. cpx. Qed.

Lemma Cmul_add_distr_r (a b c : Complex) :
  Cmul (Cadd a b) c = Cadd (Cmul a c) (Cmul b c).
Proof. cpx. Qed.

Lemma Cconj_mul (a b : Complex) : Cconj (Cmul a b) = Cmul (Cconj a) (Cconj b).
Proof. cpx. Qed.

Lemma Cconj_add (a b : Complex) : Cconj (Cadd a b) = Cadd (Cconj a) (Cconj b).
Proof. cpx. Qed.

Lemma Cconj_involutive (a : Complex) : Cconj (Cconj a) = a.
Proof. destruct a. cpx. Qed.

(** The complex numbers have no zero divisors. *)
Lemma Cmul_integral (a s : Complex) : Cmul a s = C0 -> a <> C0 -> s = C0.
Proof.
  destruct a as [a1 a2], s as [s1 s2]. unfold Cmul, C0. cbn [fst snd].
  intros H Ha. injection H as H1 H2.
  assert (Hn : 0 < a1 * a1 + a2 * a2).
  { destruct (Req_dec a1 0) as [-> | Hne1].
    - destruct (Req_dec a2 0) as [-> | Hne2]; [exfalso; apply Ha; reflexivity |].
      nra.
    - nra. }
  assert (E1 : (a1 * a1 + a2 * a2) * s1 = 0).
  { replace ((a1 * a1 + a2 * a2) * s1)
      with (a1 * (a1 * s1 - a2 * s2) + a2 * (a1 * s2 + a2 * s1)) by ring.
    rewrite H1, H2. ring. }
  assert (E2 : (a1 * a1 + a2 * a2) * s2 = 0).
  { replace ((a1 * a1 + a2 * a2) * s2)
      with (a1 * (a1 * s2 + a2 * s1) - a2 * (a1 * s1 - a2 * s2)) by ring.
    rewrite H1, H2. ring. }
  apply Rmult_integral in E1, E2.
  destruct E1 as [E1 | E1]; [lra |].
  destruct E2 as [E2 | E2]; [lra |].
  subst. reflexivity.
Qed.

(** ** Roots of unity *)

Lemma w_0 (n : nat) : w n 0 = C1.
Proof.
  unfold w, C1.
  replace (-2 * PI * 0 / INR n) with 0 by (unfold Rdiv; ring).
  rewrite cos_0, sin_0. reflexivity.
Qed.

Lemma w_add (n : nat) (a b : Z) : w n (a + b) = Cmul (w n a) (w n b).
Proof.
  unfold w, Cmul. cbn [fst snd]. rewrite plus_IZR.
  replace (-2 * PI * (IZR a + IZR b) / INR n)
    with (-2 * PI * IZR a / INR n + -2 * PI * IZR b / INR n)
    by (unfold Rdiv; ring).
  rewrite cos_plus, sin_plus. f_equal; ring.
Qed.

Lemma w_opp (n : nat) (a : Z) : w n (- a) = Cconj (w n a).
Proof.
  unfold w, Cconj. cbn [fst snd]. rewrite opp_IZR.
  replace (-2 * PI * - IZR a / INR n) with (- (-2 * PI * IZR a / INR n))
    by (unfold Rdiv; ring).
  rewrite cos_neg, sin_neg. reflexivity.
Qed.

Lemma w_n (n : nat) : n <> 0%nat -> w n (Z.of_nat n) = C1.
Proof.
  intros Hn. unfold w, C1. rewrite <- INR_IZR_INZ.
  assert (INR n <> 0) by (apply not_0_INR; exact Hn).
  replace (-2 * PI * INR n / INR n) with (- (2 * PI)) by (field; assumption).
  rewrite cos_neg, sin_neg, cos_2PI, sin_2PI. f_equal. ring.
Qed.

Lemma w_mul_n_nat (n : nat) (e : nat) :
  n <> 0%nat -> w n (Z.of_nat n * Z.of_nat e) = C1.
Proof.
  intros Hn. induction e as [| e IH].
  - rewrite Z.mul_0_r. apply w_0.
  - rewrite Nat2Z.inj_succ, Z.mul_succ_r, w_add, IH, w_n by exact Hn.
    apply Cmul_1_l.
Qed.

Lemma w_mul_n (n : nat) (e : Z) : n <> 0%nat -> w n (Z.of_nat n * e) = C1.
Proof.
  intros Hn. destruct (Z_le_gt_dec 0 e) as [Hpos | Hneg].
  - rewrite <- (Z2Nat.id e Hpos). apply w_mul_n_nat, Hn.
  - replace (Z.of_nat n * e)%Z with (- (Z.of_nat n * Z.of_nat (Z.to_nat (- e))))%Z
      by (rewrite Z2Nat.id; lia).
    rewrite w_opp, w_mul_n_nat by exact Hn. cpx.
Qed.

Lemma w_periodic (n : nat) (a e : Z) :
  n <> 0%nat -> w n (a + Z.of_nat n * e) = w n a.
Proof.
  intros Hn. rewrite w_add, w_mul_n by exact Hn. apply Cmul_1_r.
Qed.

Lemma w_mod (n : nat) (a : Z) : n <> 0%nat -> w n (a mod Z.of_nat n) = w n a.
Proof.
  intros Hn.
  rewrite (Z.div_mod a (Z.of_nat n)) at 2 by lia.
  rewrite Z.add_comm. symmetry. apply w_periodic, Hn.
Qed.

Lemma w_half (m : nat) : m <> 0%nat -> w (m + m) (Z.of_nat m) = (-1, 0).
Proof.
  intros Hm. unfold w. rewrite <- INR_IZR_INZ, plus_INR.
  assert (INR m <> 0) by (apply not_0_INR; exact Hm).
  replace (-2 * PI * INR m / (INR m + INR m)) with (- PI) by (field; lra).
  rewrite cos_neg, sin_neg, cos_PI, sin_PI. f_equal. ring.
Qed.

Lemma w_double (m : nat) (a : Z) : m <> 0%nat -> w (m + m) (2 * a) = w m a.
Proof.
  intros Hm. unfold w. rewrite mult_IZR, plus_INR.
  assert (INR m <> 0) by (apply not_0_INR; exact Hm).
  replace (-2 * PI * (2 * IZR a) / (INR m + INR m))
    with (-2 * PI * IZR a / INR m) by (field; lra).
  reflexivity.
Qed.

Lemma twiddle_w (n k : nat) : twiddle n k = w n (Z.of_nat k).
Proof. unfold twiddle, w. rewrite <- INR_IZR_INZ. reflexivity. Qed.

(** ** Finite sums *)

Lemma Csum_ext (f g : nat -> Complex) (n : nat) :
  (forall i, (i < n)%nat -> f i = g i) -> Csum f n = Csum g n.
Proof.
  induction n as [| n IH]; intros H; [reflexivity |].
  cbn [Csum]. rewrite IH, H by (intros; try apply H; lia). reflexivity.
Qed.

Lemma Csum_add (f g : nat -> Complex) (n : nat) :
  Csum (fun i => Cadd (f i) (g i)) n = Cadd (Csum f n) (Csum g n).
Proof.
  induction n as [| n IH]; cbn [Csum]; [cpx |].
  rewrite IH. cpx.
Qed.

Lemma Csum_scale (c : Complex) (f : nat -> Complex) (n : nat) :
  Csum (fun i => Cmul c (f i)) n = Cmul c (Csum f n).
Proof.
  induction n as [| n IH]; cbn [Csum]; [cpx |].
  rewrite IH. cpx.
Qed.

Lemma Csum_zero (n : nat) : Csum (fun _ => C0) n = C0.
Proof.
  induction n as [| n IH]; cbn [Csum]; [reflexivity |].
  rewrite IH. cpx.
Qed.

Lemma Csum_even_odd (f : nat -> Complex) (m : nat) :
  Csum f (m + m) =
  Cadd (Csum (fun i => f (2 * i)%nat) m) (Csum (fun i => f (2 * i + 1)%nat) m).
Proof.
  induction m as [| m IH]; [cbn; cpx |].
  replace (S m + S m)%nat with (S (S (m + m))) by lia.
  cbn [Csum]. rewrite IH.
  replace (2 * m)%nat with (m + m)%nat by lia.
  replace (m + m + 1)%nat with (S (m + m)) by lia.
  cpx.
Qed.

Lemma Csum_swap (f : nat -> nat -> Complex) (n m : nat) :
  Csum (fun i => Csum (fun j => f i j) m) n =
  Csum (fun j => Csum (fun i => f i j) n) m.
Proof.
  induction n as [| n IH]; cbn [Csum].
  - symmetry. apply Csum_zero.
  - rewrite IH, <- Csum_add. reflexivity.
Qed.

Lemma Csum_single (f : nat -> Complex) (n l : nat) :
  (l < n)%nat -> (forall i, (i < n)%nat -> i <> l -> f i = C0) ->
  Csum f n = f l.
Proof.
  induction n as [| n IH]; intros Hl H; [lia |].
  cbn [Csum]. destruct (Nat.eq_dec l n) as [-> | Hne].
  - rewrite (Csum_ext f (fun _ => C0)) by (intros; apply H; lia).
    rewrite Csum_zero. apply Cadd_0_l.
  - rewrite IH, (H n) by (intros; try apply H; lia). apply Cadd_0_r.
Qed.

(** ** Reading lists by index *)

Lemma nth_map_seq {A : Type} (f : nat -> A) (m j : nat) (d : A) :
  (j < m)%nat -> nth j (map f (seq 0 m)) d = f j.
Proof.
  intros H.
  rewrite (nth_indep _ d (f 0%nat)) by (rewrite length_map, length_seq; exact H).
  rewrite map_nth, seq_nth by exact H. reflexivity.
Qed.

Lemma nth_evens {A : Type} (d : A) (l : list A) (i : nat) :
  (i < length l / 2)%nat -> nth i (evens d l) d = nth (2 * i) l d.
Proof.
  intros H. unfold evens.
  apply (nth_map_seq (fun i => nth (2 * i) l d) _ _ d H).
Qed.

Lemma nth_odds {A : Type} (d : A) (l : list A) (i : nat) :
  (i < length l / 2)%nat -> nth i (odds d l) d = nth (2 * i + 1) l d.
Proof.
  intros H. unfold odds.
  apply (nth_map_seq (fun i => nth (2 * i + 1) l d) _ _ d H).
Qed.

Lemma seq_shift_by (m len s : nat) :
  seq (s + m) len = map (fun j => (j + m)%nat) (seq s len).
Proof.
  revert s. induction len as [| len IH]; intros s; [reflexivity |].
  cbn [seq map]. f_equal. apply (IH (S s)).
Qed.

Lemma half_double (m : nat) : ((m + m) / 2 = m)%nat.
Proof.
  replace (m + m)%nat with (m * 2)%nat by lia.
  apply Nat.div_mul. discriminate.
Qed.

(** ** The transform computes the discrete Fourier transform *)

Lemma dft_bin_low (x : list Complex) (m j : nat) :
  m <> 0%nat -> length x = (m + m)%nat ->
  dft_bin x j =
  Cadd (dft_bin (evens C0 x) j)
       (Cmul (w (m + m) (Z.of_nat j)) (dft_bin (odds C0 x) j)).
Proof.
  intros Hm Hlen. unfold dft_bin.
  rewrite evens_length, odds_length, Hlen, half_double, Csum_even_odd.
  f_equal.
  - apply Csum_ext. intros i Hi.
    rewrite nth_evens by (rewrite Hlen, half_double; exact Hi).
    f_equal.
    replace (Z.of_nat (2 * i) * Z.of_nat j)%Z
      with (2 * (Z.of_nat i * Z.of_nat j))%Z by lia.
    apply w_double, Hm.
  - rewrite <- Csum_scale. apply Csum_ext. intros i Hi.
    rewrite nth_odds by (rewrite Hlen, half_double; exact Hi).
    replace (Z.of_nat (2 * i + 1) * Z.of_nat j)%Z
      with (2 * (Z.of_nat i * Z.of_nat j) + Z.of_nat j)%Z by lia.
    rewrite w_add, w_double by exact Hm. cpx.
Qed.

Lemma dft_bin_high (x : list Complex) (m j : nat) :
  m <> 0%nat -> length x = (m + m)%nat ->
  dft_bin x (j + m) =
  Csub (dft_bin (evens C0 x) j)
       (Cmul (w (m + m) (Z.of_nat j)) (dft_bin (odds C0 x) j)).
Proof.
  intros Hm Hlen.
  assert (Hsub : forall a b c : Complex,
             Csub a (Cmul b c) = Cadd a (Cmul (Cmul (-1, 0) b) c)) by (intros; cpx).
  rewrite Hsub. clear Hsub. unfold dft_bin.
  rewrite evens_length, odds_length, Hlen, half_double, Csum_even_odd.
  f_equal.
  - apply Csum_ext. intros i Hi.
    rewrite nth_evens by (rewrite Hlen, half_double; exact Hi).
    f_equal.
    replace (Z.of_nat (2 * i) * Z.of_nat (j + m))%Z
      with (2 * (Z.of_nat i * Z.of_nat j) + Z.of_nat (m + m) * Z.of_nat i)%Z by lia.
    rewrite w_periodic by lia. apply w_double, Hm.
  - rewrite <- Csum_scale. apply Csum_ext. intros i Hi.
    rewrite nth_odds by (rewrite Hlen, half_double; exact Hi).
    replace (Z.of_nat (2 * i + 1) * Z.of_nat (j + m))%Z
      with (2 * (Z.of_nat i * Z.of_nat j) + (Z.of_nat j + Z.of_nat m)
            + Z.of_nat (m + m) * Z.of_nat i)%Z by lia.
    rewrite w_periodic by lia.
    rewrite !w_add, w_double, w_half by exact Hm. cpx.
Qed.

Lemma butterfly_spec (n : nat) (e o : list Complex) :
  butterfly n e o =
  map (fun k => Cadd (nth k e C0) (Cmul (twiddle n k) (nth k o C0))) (seq 0 (n / 2))
  ++ map (fun k => Csub (nth k e C0) (Cmul (twiddle n k) (nth k o C0))) (seq 0 (n / 2)).
Proof. reflexivity. Qed.

Lemma butterfly_dft (x : list Complex) (m : nat) :
  m <> 0%nat -> length x = (m + m)%nat ->
  butterfly (length x) (dft (evens C0 x)) (dft (odds C0 x)) = dft x.
Proof.
  intros Hm Hlen. rewrite butterfly_spec.
  change (dft x) with (map (dft_bin x) (seq 0 (length x))).
  rewrite Hlen, half_double, seq_app, map_app.
  rewrite (seq_shift_by m m 0), map_map.
  assert (He : forall j, (j < m)%nat ->
             nth j (dft (evens C0 x)) C0 = dft_bin (evens C0 x) j).
  { intros j Hj. unfold dft. rewrite evens_length, Hlen, half_double.
    apply nth_map_seq, Hj. }
  assert (Ho : forall j, (j < m)%nat ->
             nth j (dft (odds C0 x)) C0 = dft_bin (odds C0 x) j).
  { intros j Hj. unfold dft. rewrite odds_length, Hlen, half_double.
    apply nth_map_seq, Hj. }
  f_equal; apply map_ext_in; intros j Hj; apply in_seq in Hj;
    rewrite He, Ho, twiddle_w by lia.
  - rewrite (dft_bin_low x m j Hm Hlen). reflexivity.
  - rewrite (dft_bin_high x m j Hm Hlen). reflexivity.
Qed.

Lemma dft_single (c : Complex) : dft [c] = [c].
Proof.
  unfold dft, dft_bin. cbn [length seq map Csum nth].
  rewrite Z.mul_0_l, w_0. destruct c as [re im]. cpx.
  do 2 f_equal; ring.
Qed.

Theorem fftComplex_dft (k : nat) :
  forall x, length x = (2 ^ k)%nat -> fftComplex (S k) x = Return (dft x).
Proof.
  induction k as [| k IH]; intros x Hlen.
  - rewrite fftComplex_S, Hlen. cbn [Nat.pow Nat.eqb].
    destruct x as [| c [| c' x']]; try discriminate.
    cbn [nth]. rewrite dft_single. reflexivity.
  - rewrite fftComplex_S, Hlen, pow2_succ_neq_1, power_of_two_passes.
    rewrite !IH by (rewrite ?evens_length, ?odds_length, Hlen; apply half_pow2).
    cbn [bind]. rewrite <- Hlen. f_equal.
    apply (butterfly_dft x (2 ^ k)).
    + apply Nat.pow_nonzero. discriminate.
    + rewrite Hlen, Nat.pow_succ_r'. lia.
Qed.

(** ** Orthogonality of the roots of unity *)

Lemma w_neq_1_pos (n : nat) (d : Z) :
  (0 < d < Z.of_nat n)%Z -> w n d <> C1.
Proof.
  intros [Hd Hn] Heq. unfold w, C1 in Heq. injection Heq as Hcos _.
  assert (Hnpos : 0 < INR n) by (apply lt_0_INR; lia).
  assert (Hdpos : 0 < IZR d) by (apply IZR_lt; exact Hd).
  assert (Hdn : IZR d < INR n) by (rewrite INR_IZR_INZ; apply IZR_lt; exact Hn).
  set (h := PI * IZR d / INR n).
  assert (Hh : 0 < h < PI).
  { unfold h. pose proof PI_RGT_0 as Hpi. split.
    - apply Rdiv_lt_0_compat; [nra | exact Hnpos].
    - apply (Rmult_lt_reg_r (INR n)); [exact Hnpos |].
      unfold Rdiv. rewrite Rmult_assoc, Rinv_l by lra. nra. }
  replace (-2 * PI * IZR d / INR n) with (- (2 * h)) in Hcos
    by (unfold h, Rdiv; ring).
  rewrite cos_neg, cos_2a_sin in Hcos.
  pose proof (sin_gt_0 h (proj1 Hh) (proj2 Hh)) as Hsin.
  nra.
Qed.

Lemma w_neq_1 (n : nat) (d : Z) :
  n <> 0%nat -> (d mod Z.of_nat n <> 0)%Z -> w n d <> C1.
Proof.
  intros Hn Hd. rewrite <- (w_mod n d Hn).
  apply w_neq_1_pos.
  pose proof (Z.mod_pos_bound d (Z.of_nat n)). lia.
Qed.

Lemma Csum_shift (g : nat -> Complex) (n : nat) :
  Cadd (Csum (fun k => g (S k)) n) (g 0%nat) = Cadd (Csum g n) (g n).
Proof.
  induction n as [| n IH]; cbn [Csum]; [cpx |].
  rewrite <- IH. cpx.
Qed.

Lemma Cadd_cancel_r (a b c : Complex) : Cadd a c = Cadd b c -> a = b.
Proof.
  destruct a, b, c. unfold Cadd. cbn [fst snd]. intros H.
  injection H as H1 H2. f_equal; lra.
Qed.

Lemma roots_sum_zero (n : nat) (d : Z) :
  n <> 0%nat -> (d mod Z.of_nat n <> 0)%Z ->
  Csum (fun k => w n (d * Z.of_nat k)) n = C0.
Proof.
  intros Hn Hd.
  set (s := Csum (fun k => w n (d * Z.of_nat k)) n).
  assert (Hfix : Cmul (w n d) s = s).
  { unfold s. rewrite <- Csum_scale.
    apply (Cadd_cancel_r _ _ C1).
    rewrite (Csum_ext _ (fun k => (fun i => w n (d * Z.of_nat i)) (S k))).
    2:{ intros i _. rewrite <- w_add. f_equal. lia. }
    rewrite <- (w_0 n) at 1.
    replace 0%Z with (d * Z.of_nat 0)%Z at 1 by lia.
    rewrite (Csum_shift (fun i => w n (d * Z.of_nat i)) n).
    f_equal. rewrite Z.mul_comm. apply w_mul_n, Hn. }
  apply (Cmul_integral (Csub (w n d) C1)).
  - transitivity (Csub (Cmul (w n d) s) s); [cpx |].
    rewrite Hfix. destruct s. cpx.
  - intros Hz. apply (w_neq_1 n d Hn Hd).
    destruct (w n d) as [re im]. unfold Csub, C0, C1 in *. cbn [fst snd] in Hz.
    injection Hz as H1 H2. f_equal; lra.
Qed.

Lemma Csum_const (c : Complex) (n : nat) :
  Csum (fun _ => c) n = Cscale (INR n) c.
Proof.
  induction n as [| n IH]; [cbn; cpx |].
  cbn [Csum]. rewrite IH, S_INR. cpx.
Qed.

Lemma roots_sum_full (n : nat) (d : Z) :
  n <> 0%nat -> (d mod Z.of_nat n = 0)%Z ->
  Csum (fun k => w n (d * Z.of_nat k)) n = (INR n, 0).
Proof.
  intros Hn Hd.
  rewrite (Csum_ext _ (fun _ => C1)).
  - rewrite Csum_const. cpx.
  - intros k _. apply Z.mod_divide in Hd; [| lia].
    destruct Hd as [q ->].
    replace (q * Z.of_nat n * Z.of_nat k)%Z with (Z.of_nat n * (q * Z.of_nat k))%Z
      by lia.
    apply w_mul_n, Hn.
Qed.

(** ** The inverse transform undoes the discrete Fourier transform *)

Lemma nth_map_in {A B : Type} (f : A -> B) (l : list A) (k : nat) (dA : A) (dB : B) :
  (k < length l)%nat -> nth k (map f l) dB = f (nth k l dA).
Proof.
  intros H. rewrite (nth_indep _ dB (f dA)) by (rewrite length_map; exact H).
  apply map_nth.
Qed.

Lemma dft_length (x : list Complex) : length (dft x) = length x.
Proof. unfold dft. rewrite length_map, length_seq. reflexivity. Qed.

Lemma nth_dft (x : list Complex) (k : nat) :
  (k < length x)%nat -> nth k (dft x) C0 = dft_bin x k.
Proof. intros H. unfold dft. apply nth_map_seq, H. Qed.

Lemma Cconj_Csum (f : nat -> Complex) (n : nat) :
  Cconj (Csum f n) = Csum (fun i => Cconj (f i)) n.
Proof.
  induction n as [| n IH]; cbn [Csum]; [cpx |].
  rewrite Cconj_add, IH. reflexivity.
Qed.

(** [sum over k of (dft x)[k] * w^(-k l) = n * x[l]] *)
Lemma dft_inversion (x : list Complex) (l : nat) :
  (l < length x)%nat ->
  Csum (fun k => Cmul (dft_bin x k)
                      (w (length x) (- (Z.of_nat k * Z.of_nat l)))) (length x)
  = Cscale (INR (length x)) (nth l x C0).
Proof.
  intros Hl. set (n := length x).
  assert (Hn : n <> 0%nat) by (unfold n; lia).
  transitivity
    (Csum (fun j => Cmul (nth j x C0)
                     (Csum (fun k => w n ((Z.of_nat j - Z.of_nat l) * Z.of_nat k)) n)) n).
  - unfold dft_bin. fold n.
    rewrite (Csum_ext _ (fun k => Csum (fun j =>
               Cmul (nth j x C0) (w n ((Z.of_nat j - Z.of_nat l) * Z.of_nat k))) n) n).
    2:{ intros k _. rewrite Cmul_comm, <- Csum_scale.
        apply Csum_ext. intros j _.
        rewrite Cmul_comm, <- Cmul_assoc, <- w_add. do 2 f_equal. lia. }
    rewrite Csum_swap. apply Csum_ext. intros j _.
    apply Csum_scale.
  - rewrite (Csum_single _ n l Hl).
    + rewrite roots_sum_full by (rewrite ?Z.sub_diag; auto).
      destruct (nth l x C0). cpx.
    + intros j Hj Hne. rewrite roots_sum_zero; [apply Cmul_0_r | exact Hn |].
      intros Hmod. apply Z.mod_divide in Hmod; [| lia].
      destruct Hmod as [q Hq].
      assert (Hq0 : q = 0%Z) by nia. lia.
Qed.

Lemma dft_conj_dft (x : list Complex) (l : nat) :
  (l < length x)%nat ->
  dft_bin (map Cconj (dft x)) l = Cconj (Cscale (INR (length x)) (nth l x C0)).
Proof.
  intros Hl. rewrite <- (dft_inversion x l Hl), Cconj_Csum.
  unfold dft_bin at 1. rewrite length_map, dft_length.
  apply Csum_ext. intros k Hk.
  rewrite (nth_map_in Cconj _ _ C0) by (rewrite dft_length; exact Hk).
  rewrite nth_dft by exact Hk.
  rewrite Cconj_mul, <- w_opp, Z.opp_involutive. reflexivity.
Qed.

Lemma ifft_post (n : nat) (c : Complex) :
  n <> 0%nat ->
  (fst (Cconj (Cscale (INR n) c)) / INR n, - snd (Cconj (Cscale (INR n) c)) / INR n)
  = c.
Proof.
  intros Hn. assert (INR n <> 0) by (apply not_0_INR; exact Hn).
  destruct c as [re im]. unfold Cconj, Cscale. cbn [fst snd].
  f_equal; field; assumption.
Qed.

Theorem ifft_dft (k : nat) (x : list Complex) :
  length x = (2 ^ k)%nat -> ifft (S k) (dft x) = Return x.
Proof.
  intros Hlen. unfold ifft.
  change (map (fun c : Complex => (fst c, - snd c)) (dft x))
    with (map Cconj (dft x)).
  rewrite fftComplex_dft by (rewrite length_map, dft_length; exact Hlen).
  cbn [bind]. rewrite dft_length.
  assert (Hn : length x <> 0%nat).
  { rewrite Hlen. apply Nat.pow_nonzero. discriminate. }
  apply (f_equal (@Return (list Complex))).
  apply (nth_ext _ _ C0 C0).
  - rewrite length_map, dft_length, length_map, dft_length. reflexivity.
  - intros l Hl.
    rewrite length_map, dft_length, length_map, dft_length in Hl.
    rewrite (nth_map_in _ _ _ C0)
      by (rewrite dft_length, length_map, dft_length; exact Hl).
    rewrite nth_dft by (rewrite length_map, dft_length; exact Hl).
    rewrite dft_conj_dft by exact Hl.
    apply ifft_post, Hn.
Qed.

(** ** The correlation theorem *)

Lemma Csum_rotate (g : nat -> Complex) (n p : nat) :
  n <> 0%nat -> Csum (fun k => g ((p + k) mod n)%nat) n = Csum g n.
Proof.
  intros Hn. induction p as [| p IH].
  - apply Csum_ext. intros k Hk. cbn [Nat.add]. rewrite Nat.mod_small by exact Hk.
    reflexivity.
  - rewrite <- IH.
    apply (Cadd_cancel_r _ _ (g ((p + 0) mod n)%nat)).
    rewrite (Csum_ext _ (fun k => (fun i => g ((p + i) mod n)%nat) (S k))).
    2:{ intros k _. cbn beta. do 2 f_equal. lia. }
    rewrite (Csum_shift (fun i => g ((p + i) mod n)%nat) n).
    f_equal. f_equal.
    rewrite Nat.add_0_r.
    rewrite <- (Nat.mul_1_l n) at 1.
    rewrite Nat.Div0.mod_add. reflexivity.
Qed.

Lemma correlation_theorem (a b : list Complex) (f : nat) :
  length a <> 0%nat -> length b = length a ->
  dft_bin (map (complex_correlation a b) (seq 0 (length a))) f =
  Cmul (dft_bin a f) (Cconj (dft_bin b f)).
Proof.
  intros Hn Hb. set (n := length a) in *.
  unfold dft_bin at 1. rewrite length_map, length_seq. fold n.
  (* bring the sum over [p] outside *)
  rewrite (Csum_ext _ (fun k => Csum (fun p =>
             Cmul (Cmul (nth ((p + k) mod n) a C0) (w n (Z.of_nat k * Z.of_nat f)))
                  (Cconj (nth p b C0))) n) n).
  2:{ intros k Hk. rewrite nth_map_seq by exact Hk.
      unfold complex_correlation. fold n.
      rewrite Cmul_comm, <- Csum_scale. apply Csum_ext. intros p _. cpx. }
  rewrite Csum_swap.
  (* the inner sum is a rotated transform of [a] *)
  rewrite (Csum_ext _ (fun p =>
             Cmul (dft_bin a f) (Cconj (Cmul (nth p b C0)
                                          (w n (Z.of_nat p * Z.of_nat f))))) n).
  - rewrite Csum_scale. f_equal.
    unfold dft_bin. rewrite Hb. fold n. symmetry. apply Cconj_Csum.
  - intros p _.
    rewrite (Csum_ext _ (fun k => Cmul (Cmul (Cconj (nth p b C0))
                                            (w n (- (Z.of_nat p * Z.of_nat f))))
               ((fun m => Cmul (nth m a C0) (w n (Z.of_nat m * Z.of_nat f)))
                  ((p + k) mod n)%nat)) n).
    2:{ intros k _. cbn beta.
        assert (Hw : w n (Z.of_nat k * Z.of_nat f) =
                     Cmul (w n (- (Z.of_nat p * Z.of_nat f)))
                          (w n (Z.of_nat ((p + k) mod n) * Z.of_nat f))).
        { rewrite <- w_add.
          rewrite Nat2Z.inj_mod, Nat2Z.inj_add.
          rewrite (Z.mod_eq (Z.of_nat p + Z.of_nat k) (Z.of_nat n)) by lia.
          fold n.
          replace (- (Z.of_nat p * Z.of_nat f) +
                   (Z.of_nat p + Z.of_nat k -
                    Z.of_nat n * ((Z.of_nat p + Z.of_nat k) / Z.of_nat n)) * Z.of_nat f)%Z
            with (Z.of_nat k * Z.of_nat f +
                  Z.of_nat n * (- ((Z.of_nat p + Z.of_nat k) / Z.of_nat n) * Z.of_nat f))%Z
            by ring.
          symmetry. apply w_periodic, Hn. }
        rewrite Hw. cpx. }
    pose (g := fun m : nat => Cmul (nth m a C0) (w n (Z.of_nat m * Z.of_nat f))).
    rewrite (Csum_scale _ (fun k => g ((p + k) mod n)%nat) n).
    rewrite (Csum_rotate g n p Hn).
    change (Csum g n) with (dft_bin a f).
    rewrite Cconj_mul, <- w_opp. cpx.
Qed.

(** ** nextPowerOfTwo *)

Lemma ceil_log2_nonneg (n : Z) : (0 <= ceil_log2 n)%Z.
Proof.
  unfold ceil_log2. destruct (n <=? 0)%Z; [lia | apply Z.log2_up_nonneg].
Qed.

Lemma ceil_log2_bound (n : Z) : (n <= 2 ^ 30)%Z -> (ceil_log2 n <= 30)%Z.
Proof.
  intros H. unfold ceil_log2. destruct (Z.leb_spec n 0) as [Hle | Hgt]; [lia |].
  apply Z.log2_up_le_pow2; lia.
Qed.

Lemma ceil_log2_covers (n : Z) : (n <= 2 ^ ceil_log2 n)%Z.
Proof.
  unfold ceil_log2. destruct (Z.leb_spec n 0) as [Hle | Hgt].
  - simpl. lia.
  - destruct (Z.eq_dec n 1) as [-> | Hne]; [simpl; lia |].
    apply Z.log2_up_spec. lia.
Qed.

Lemma shl_1_small (c : Z) : (0 <= c <= 30)%Z -> Int32.shl 1 c = (2 ^ c)%Z.
Proof.
  intros Hc. unfold Int32.shl.
  change 31%Z with (Z.ones 5). rewrite Z.land_ones by lia.
  rewrite Z.mod_small by (change (2 ^ 5)%Z with 32%Z; lia).
  rewrite (wrap_small 1) by lia.
  rewrite Z.shiftl_1_l.
  apply wrap_small.
  assert (2 ^ c <= 2 ^ 30)%Z by (apply Z.pow_le_mono_r; lia).
  pose proof (Z.pow_pos_nonneg 2 c). lia.
Qed.

Lemma nextPowerOfTwo_small (n : Z) :
  (n <= 2 ^ 30)%Z -> nextPowerOfTwo n = (2 ^ ceil_log2 n)%Z.
Proof.
  intros H. unfold nextPowerOfTwo. apply shl_1_small.
  split; [apply ceil_log2_nonneg | apply ceil_log2_bound, H].
Qed.

(** ** More fuel never changes an answer *)

Lemma fft_fuel_le (fuel fuel' : nat) (x : Float32Array) (r : list Complex) :
  (fuel <= fuel')%nat -> fft fuel x = Return r -> fft fuel' x = Return r.
Proof.
  rewrite !fft_fftComplex. apply fftComplex_fuel_le.
Qed.

Lemma ifft_fuel_le (fuel fuel' : nat) (x r : list Complex) :
  (fuel <= fuel')%nat -> ifft fuel x = Return r -> ifft fuel' x = Return r.
Proof.
  intros Hle H. unfold ifft in *.
  apply bind_Return in H. destruct H as [y [Hy H]].
  rewrite (fftComplex_fuel_le _ _ _ _ Hle Hy). exact H.
Qed.

Lemma fft_dft (k fuel : nat) (x : Float32Array) :
  length x = (2 ^ k)%nat -> (k < fuel)%nat ->
  fft fuel x = Return (dft (zero_imag x)).
Proof.
  intros Hlen Hfuel. apply (fft_fuel_le (S k)); [lia |].
  rewrite fft_fftComplex. apply fftComplex_dft.
  rewrite zero_imag_length. exact Hlen.
Qed.

(** ** Laws of the store *)

Lemma fround_0 {F32 : Float32Store} : fround 0 = 0.
Proof.
  pose proof (fround_opp 0) as H. rewrite Ropp_0 in H. lra.
Qed.

Lemma fround_nonneg {F32 : Float32Store} (x : R) : 0 <= x -> 0 <= fround x.
Proof.
  intros H. rewrite <- fround_0. apply fround_monotone, H.
Qed.

Lemma fround_Rabs {F32 : Float32Store}
  (x : R) : Rabs (fround x) = fround (Rabs x).
Proof.
  unfold Rabs at 2. destruct (Rcase_abs x) as [Hneg | Hpos].
  - rewrite fround_opp. apply Rabs_left1.
    rewrite <- fround_0. apply fround_monotone. lra.
  - apply Rabs_pos_eq, fround_nonneg. lra.
Qed.

Lemma fround_Rabs_le {F32 : Float32Store} (x y : R) :
  Rabs x <= y -> Rabs (fround x) <= fround y.
Proof.
  intros H. rewrite fround_Rabs. apply fround_monotone, H.
Qed.

(** A positive number of the normal range moves by at most the fraction
    [2^-24]. *)
Lemma fround_near {F32 : Float32Store} (x : R) :
  / 2 ^ 126 <= x <= 2 ^ 127 ->
  x * (1 - / 2 ^ 24) <= fround x <= x * (1 + / 2 ^ 24).
Proof.
  intros Hx.
  assert (H126 : 0 < / 2 ^ 126) by (apply Rinv_0_lt_compat, pow_lt; lra).
  pose proof (fround_error x) as H. rewrite (Rabs_pos_eq x) in H by lra.
  specialize (H Hx). unfold Rdiv in H.
  pose proof (Rle_abs (fround x - x)) as Hup.
  pose proof (Rle_abs (- (fround x - x))) as Hdown.
  rewrite Rabs_Ropp in Hdown. lra.
Qed.

(** ** crossCorrelate stores the circular correlation of the padded inputs *)

Lemma Csum_real (f : nat -> R) (n : nat) :
  Csum (fun i => (f i, 0)) n = (Rsum f n, 0).
Proof.
  induction n as [| n IH]; [reflexivity |].
  cbn [Csum Rsum]. rewrite IH. cpx.
Qed.

Lemma complex_correlation_real (a b : list R) (k : nat) :
  complex_correlation (zero_imag a) (zero_imag b) k =
  (circular_correlation a b k, 0).
Proof.
  unfold complex_correlation, circular_correlation.
  rewrite zero_imag_length, <- Csum_real.
  apply Csum_ext. intros p _.
  change C0 with (0, 0). rewrite !nth_zero_imag. cpx.
Qed.

Lemma spectrum_product_spec (fa fb : list Complex) :
  spectrum_product fa fb =
  map (fun i => Cmul (nth i fa C0) (Cconj (nth i fb C0))) (seq 0 (length fa)).
Proof.
  unfold spectrum_product. apply map_ext. intros i. cpx.
Qed.

Lemma spectrum_product_dft (a b : list R) :
  length a <> 0%nat -> length b = length a ->
  spectrum_product (dft (zero_imag a)) (dft (zero_imag b)) =
  dft (zero_imag (map (circular_correlation a b) (seq 0 (length a)))).
Proof.
  intros Hn Hb. rewrite spectrum_product_spec, dft_length, zero_imag_length.
  unfold dft at 3. rewrite zero_imag_length, length_map, length_seq.
  apply map_ext_in. intros f Hf. apply in_seq in Hf.
  rewrite !nth_dft by (rewrite zero_imag_length; lia).
  rewrite <- correlation_theorem by (rewrite !zero_imag_length; assumption).
  rewrite zero_imag_length. f_equal.
  transitivity (map (fun k => (circular_correlation a b k, 0)) (seq 0 (length a))).
  - apply map_ext. intros k. apply complex_correlation_real.
  - symmetry. apply (map_map (circular_correlation a b) (fun r => (r, 0))).
Qed.

Lemma padToPowerOfTwo_ok (arr : Float32Array) (k : nat) :
  (length arr <= 2 ^ k)%nat ->
  padToPowerOfTwo arr (2 ^ Z.of_nat k) = Return (zero_pad arr (2 ^ k)) /\
  length (zero_pad arr (2 ^ k)) = (2 ^ k)%nat.
Proof.
  intros Hle. unfold padToPowerOfTwo, zero_pad.
  rewrite <- of_nat_pow2.
  destruct (Z.ltb_spec (Z.of_nat (2 ^ k)) 0) as [Hneg | _]; [lia |].
  destruct (Z.ltb_spec (Z.of_nat (2 ^ k)) (Z.of_nat (length arr))) as [Hlt | _];
    [lia |].
  rewrite Nat2Z.id. split; [reflexivity |].
  rewrite length_app, repeat_length. lia.
Qed.

Theorem crossCorrelate_circular {F32 : Float32Store}
  (fuel k : nat) (a b : Float32Array) :
  (Z.of_nat (length a) + Z.of_nat (length b) - 1 <= 2 ^ 30)%Z ->
  Z.of_nat k = ceil_log2 (Z.of_nat (length a) + Z.of_nat (length b) - 1) ->
  (length a <= 2 ^ k)%nat -> (length b <= 2 ^ k)%nat -> (k < fuel)%nat ->
  crossCorrelate fuel a b =
  Return (map (fun i => fround (circular_correlation (zero_pad a (2 ^ k))
                                  (zero_pad b (2 ^ k)) i))
              (seq 0 (2 ^ k))).
Proof.
  intros Hsmall Hk Ha Hb Hfuel. unfold crossCorrelate.
  rewrite nextPowerOfTwo_small, <- Hk by exact Hsmall.
  destruct (padToPowerOfTwo_ok a k Ha) as [-> HlenA].
  destruct (padToPowerOfTwo_ok b k Hb) as [-> HlenB].
  cbn [bind].
  rewrite (fft_dft k fuel _ HlenA Hfuel), (fft_dft k fuel _ HlenB Hfuel).
  cbn [bind].
  assert (Hn : length (zero_pad a (2 ^ k)) <> 0%nat).
  { rewrite HlenA. apply Nat.pow_nonzero. discriminate. }
  rewrite spectrum_product_dft by (assumption || congruence).
  assert (Hlen : length (zero_imag
             (map (circular_correlation (zero_pad a (2 ^ k)) (zero_pad b (2 ^ k)))
                  (seq 0 (length (zero_pad a (2 ^ k)))))) = (2 ^ k)%nat).
  { rewrite zero_imag_length, length_map, length_seq. exact HlenA. }
  rewrite (ifft_fuel_le (S k) fuel _ _ Hfuel (ifft_dft k _ Hlen)).
  cbn [bind]. rewrite <- of_nat_pow2, Nat2Z.id, HlenA.
  apply (f_equal (@Return (list R))).
  apply (nth_ext _ _ 0 0).
  - rewrite !length_map, !length_seq. reflexivity.
  - intros i Hi. rewrite length_map, length_seq in Hi.
    rewrite !nth_map_seq by exact Hi.
    rewrite nth_zero_imag. cbn [fst]. f_equal. apply nth_map_seq, Hi.
Qed.

(** ** The peak resolver *)

Lemma first_max_unique (l : list R) (i i' : nat) :
  first_max l i -> first_max l i' -> i = i'.
Proof.
  intros [Hi [Hlo Hall]] [Hi' [Hlo' Hall']].
  destruct (Nat.lt_trichotomy i i') as [Hlt | [Heq | Hgt]]; [| exact Heq |].
  - specialize (Hlo' i Hlt). specialize (Hall i' Hi'). lra.
  - specialize (Hlo i' Hgt). specialize (Hall' i Hi). lra.
Qed.

Lemma exceeds_Some (x m : R) : exceeds x (Some m) = true <-> m < x.
Proof.
  unfold exceeds. destruct (Rlt_dec m x); split; intros; try discriminate;
    try reflexivity; try assumption; contradiction.
Qed.

(** The loop invariant: after the prefix [pre], [maxIndex] is the first
    maximum of [pre] and [maxValue] its value. *)
Lemma peak_scan_invariant (rest : list R) :
  forall (pre : list R) (m : R) (mi : nat),
  first_max pre mi -> nth mi pre 0 = m ->
  first_max (pre ++ rest) (peak_scan rest (length pre) (Some m) mi).
Proof.
  induction rest as [| x rest IH]; intros pre m mi Hfm Hm.
  - rewrite app_nil_r. exact Hfm.
  - cbn [peak_scan].
    replace (pre ++ x :: rest) with ((pre ++ [x]) ++ rest)
      by (rewrite <- app_assoc; reflexivity).
    replace (S (length pre)) with (length (pre ++ [x]))
      by (rewrite length_app; simpl; lia).
    destruct Hfm as [Hmi [Hlo Hall]].
    destruct (exceeds x (Some m)) eqn:E.
    + apply exceeds_Some in E.
      rewrite length_app. simpl length.
      replace (length pre + 1)%nat with (length (pre ++ [x]))
        by (rewrite length_app; simpl; lia).
      assert (Hx : nth (length pre) (pre ++ [x]) 0 = x).
      { rewrite app_nth2, Nat.sub_diag by lia. reflexivity. }
      apply IH; [| exact Hx].
      split; [rewrite length_app; simpl; lia |].
      rewrite Hx. split.
      * intros j Hj. rewrite app_nth1 by exact Hj.
        specialize (Hall j Hj). lra.
      * intros j Hj. rewrite length_app in Hj. simpl in Hj.
        destruct (Nat.eq_dec j (length pre)) as [-> | Hne]; [rewrite Hx; lra |].
        rewrite app_nth1 by lia. specialize (Hall j ltac:(lia)). lra.
    + assert (Hle : x <= m).
      { destruct (Rle_lt_dec x m) as [H | H]; [exact H |].
        apply exceeds_Some in H. congruence. }
      apply IH.
      * split; [rewrite length_app; simpl; lia |].
        rewrite (app_nth1 pre [x] 0 Hmi). split.
        -- intros j Hj. rewrite app_nth1 by lia. apply Hlo, Hj.
        -- intros j Hj. rewrite length_app in Hj. simpl in Hj.
           destruct (Nat.eq_dec j (length pre)) as [-> | Hne].
           ++ rewrite app_nth2, Nat.sub_diag by lia. simpl. lra.
           ++ rewrite app_nth1 by lia. apply Hall. lia.
      * rewrite app_nth1 by exact Hmi. exact Hm.
Qed.

Lemma peak_scan_first_max (correlation : list R) :
  correlation <> [] -> first_max correlation (peak_scan correlation 0 None 0).
Proof.
  destruct correlation as [| x rest]; [congruence |]. intros _.
  cbn [peak_scan exceeds].
  apply (peak_scan_invariant rest [x] x 0); [| reflexivity].
  split; [simpl; lia |]. split.
  - intros j Hj. lia.
  - intros j Hj. simpl in Hj. replace j with 0%nat by lia. simpl. lra.
Qed.

Lemma half_lt_iff (n i : nat) : INR n / 2 < INR i <-> (n < 2 * i)%nat.
Proof.
  split.
  - intros H. apply INR_lt. rewrite mult_INR. simpl INR. lra.
  - intros H. apply lt_INR in H. rewrite mult_INR in H. simpl INR in H. lra.
Qed.

Lemma findPeakOffset_lag (correlation : list R) (signalBLength : nat) :
  findPeakOffset correlation signalBLength =
  lag (peak_scan correlation 0 None 0) (length correlation).
Proof.
  unfold findPeakOffset, lag.
  destruct (Rlt_dec _ _) as [H | H]; destruct (Nat.ltb_spec (length correlation)
    (2 * peak_scan correlation 0 None 0)) as [H' | H']; try reflexivity.
  - apply half_lt_iff in H. lia.
  - exfalso. apply H, half_lt_iff, H'.
Qed.

Lemma findPeakOffset_at (correlation : list R) (signalBLength i : nat) :
  first_max correlation i ->
  findPeakOffset correlation signalBLength = lag i (length correlation).
Proof.
  intros Hfm. rewrite findPeakOffset_lag. f_equal.
  apply (first_max_unique correlation); [| exact Hfm].
  apply peak_scan_first_max. destruct Hfm as [Hi _].
  destruct correlation; [simpl in Hi; lia | discriminate].
Qed.

(** C3: on a non-empty correlation sequence of length [N], [findPeakOffset]
    returns the lag of the lowest index [i] holding the greatest value
    (every earlier value is strictly smaller, no value is greater): [i - N]
    if [i > N/2], else [i]; a flat sequence gives 0. *)
Theorem findPeakOffset_first_greatest (correlation : list R) (signalBLength : nat) :
  correlation <> [] ->
  exists i : nat,
    first_max correlation i /\
    (INR (length correlation) / 2 < INR i ->
     findPeakOffset correlation signalBLength
     = (Z.of_nat i - Z.of_nat (length correlation))%Z) /\
    (~ INR (length correlation) / 2 < INR i ->
     findPeakOffset correlation signalBLength = Z.of_nat i) /\
    ((forall j j', nth j correlation 0 = nth j' correlation 0) ->
     findPeakOffset correlation signalBLength = 0%Z).
Proof.
  intros Hne. exists (peak_scan correlation 0 None 0).
  pose proof (peak_scan_first_max correlation Hne) as Hfm.
  split; [exact Hfm |].
  rewrite findPeakOffset_lag. unfold lag.
  destruct (Nat.ltb_spec (length correlation) (2 * peak_scan correlation 0 None 0))
    as [Hlt | Hge]; repeat split.
  - intros H. exfalso. apply H, half_lt_iff, Hlt.
  - intros Hflat. exfalso.
    destruct Hfm as [_ [Hlo _]].
    destruct (peak_scan correlation 0 None 0) as [| i]; [lia |].
    specialize (Hlo 0%nat ltac:(lia)). rewrite (Hflat 0%nat (S i)) in Hlo. lra.
  - intros H. apply half_lt_iff in H. lia.
  - intros Hflat.
    destruct Hfm as [_ [Hlo _]].
    destruct (peak_scan correlation 0 None 0) as [| i]; [reflexivity |].
    specialize (Hlo 0%nat ltac:(lia)). rewrite (Hflat 0%nat (S i)) in Hlo. lra.
Qed.

Lemma findPeakOffset_first_greatest_witness :
  [0; 3; 1; 3] <> [] /\
  exists i : nat,
    first_max [0; 3; 1; 3] i /\
    (INR (length [0; 3; 1; 3]) / 2 < INR i ->
     findPeakOffset [0; 3; 1; 3] 4 = (Z.of_nat i - Z.of_nat (length [0; 3; 1; 3]))%Z) /\
    (~ INR (length [0; 3; 1; 3]) / 2 < INR i ->
     findPeakOffset [0; 3; 1; 3] 4 = Z.of_nat i) /\
    ((forall j j', nth j [0; 3; 1; 3] 0 = nth j' [0; 3; 1; 3] 0) ->
     findPeakOffset [0; 3; 1; 3] 4 = 0%Z).
Proof.
  split; [discriminate |].
  apply (findPeakOffset_first_greatest [0; 3; 1; 3] 4). discriminate.
Defined.

(** ** The sign of the offset on a delayed copy *)

Lemma impulse_delayed : shift_right 2 impulse = [0; 0; 1; 0; 0; 0; 0; 0].
Proof. reflexivity. Qed.

Lemma impulse_correlation {F32 : Float32Store} :
  crossCorrelate 5 impulse (shift_right 2 impulse) =
  Return [0; 0; 0; 0; 0; 0; 0; 0; 0; 0; 0; 0; 0; 0; 1; 0].
Proof.
  rewrite impulse_delayed.
  rewrite (crossCorrelate_circular 5 4); try reflexivity;
    try (unfold impulse; simpl; lia).
  apply (f_equal (@Return (list R))).
  unfold circular_correlation, zero_pad, impulse. simpl.
  repeat match goal with
         | |- context [fround ?e] =>
             first [ replace e with 0 by ring; rewrite fround_0
                   | replace e with 1 by ring; rewrite fround_1 ]
         end.
  reflexivity.
Qed.

Lemma impulse_peak :
  first_max [0; 0; 0; 0; 0; 0; 0; 0; 0; 0; 0; 0; 0; 0; 1; 0] 14.
Proof.
  split; [simpl; lia |]. split; intros j Hj.
  - do 14 (destruct j as [| j]; [simpl; lra |]). lia.
  - do 16 (destruct j as [| j]; [simpl; lra |]). simpl in Hj. lia.
Qed.

(** On any eight samples, the correlation at circular index 14 (lag -2)
    of the sequence with its copy delayed by 2 is the stored energy of the
    six samples that survive the shift. *)
Lemma delayed_copy_energy_at_lag_minus_two {F32 : Float32Store}
  (a0 a1 a2 a3 a4 a5 a6 a7 : R) :
  let a := [a0; a1; a2; a3; a4; a5; a6; a7] in
  exists corr,
    crossCorrelate 5 a (shift_right 2 a) = Return corr /\
    nth 14 corr 0 =
      fround (a0 * a0 + a1 * a1 + a2 * a2 + a3 * a3 + a4 * a4 + a5 * a5).
Proof.
  intros a. eexists. split.
  - apply (crossCorrelate_circular 5 4); try reflexivity; simpl; lia.
  - unfold circular_correlation, zero_pad, a. simpl. f_equal. ring.
Qed.

(** C1 (the code returns -2, not 2): for the unit impulse [a] of length 8 and
    [b] equal to [a] delayed by 2 samples,
    [findPeakOffset(crossCorrelate(a, b), len(b))] is -2. *)
Theorem delayed_copy_offset_is_minus_two {F32 : Float32Store} :
  exists corr,
    crossCorrelate 5 impulse (shift_right 2 impulse) = Return corr /\
    findPeakOffset corr (length (shift_right 2 impulse)) = (-2)%Z.
Proof.
  eexists. split; [apply impulse_correlation |].
  rewrite (findPeakOffset_at _ _ 14 impulse_peak). reflexivity.
Qed.

(** ** The confidence scorer *)

Lemma energy_from (l : list R) (acc : R) :
  fold_left (fun e x => e + x * x) l acc = acc + energy l.
Proof.
  unfold energy. revert acc. induction l as [| x l IH]; intros acc; simpl.
  - ring.
  - rewrite IH, (IH (0 + x * x)). ring.
Qed.

Lemma energy_cons (x : R) (l : list R) : energy (x :: l) = x * x + energy l.
Proof. unfold energy at 1. simpl. rewrite energy_from. ring. Qed.

Lemma energy_nonneg (l : list R) : 0 <= energy l.
Proof.
  induction l as [| x l IH]; [unfold energy; simpl; lra |].
  rewrite energy_cons. nra.
Qed.

Lemma energy_zeros (n : nat) : energy (repeat 0 n) = 0.
Proof.
  induction n as [| n IH]; [reflexivity |].
  cbn [repeat]. rewrite energy_cons, IH. ring.
Qed.

Lemma norm_zero_iff (ea eb : R) :
  0 <= ea -> 0 <= eb -> (sqrt (ea * eb) = 0 <-> ea = 0 \/ eb = 0).
Proof.
  intros Ha Hb. split.
  - intros H. apply sqrt_eq_0 in H; [| nra].
    apply Rmult_integral in H. exact H.
  - intros [-> | ->]; rewrite ?Rmult_0_l, ?Rmult_0_r; apply sqrt_0.
Qed.

(** ** The preprocessor *)

Lemma sum_constant (c : R) (n : nat) (acc : R) :
  fold_left Rplus (repeat c n) acc = acc + INR n * c.
Proof.
  revert acc. induction n as [| n IH]; intros acc.
  - simpl. ring.
  - cbn [repeat fold_left]. rewrite IH, S_INR. ring.
Qed.

Lemma maxAbs_zeros (n : nat) :
  fold_left (fun m x => Rmax m (Rabs x)) (repeat 0 n) 0 = 0.
Proof.
  induction n as [| n IH]; [reflexivity |].
  cbn [repeat fold_left]. rewrite Rabs_R0, Rmax_left by lra. exact IH.
Qed.

Lemma constant_is_repeat (c : R) (l : list R) :
  (forall x, In x l -> x = c) -> l = repeat c (length l).
Proof.
  induction l as [| y l IH]; intros H; [reflexivity |].
  cbn [length repeat]. rewrite (H y) by (left; reflexivity).
  f_equal. apply IH. intros x Hx. apply H. right. exact Hx.
Qed.

Lemma preprocessAudio_constant {F32 : Float32Store} (c : R) (n : nat) :
  n <> 0%nat -> preprocessAudio (repeat c n) = repeat 0 n.
Proof.
  intros Hn. unfold preprocessAudio.
  rewrite sum_constant, repeat_length.
  assert (HINR : INR n <> 0) by (apply not_0_INR; exact Hn).
  replace ((0 + INR n * c) / INR n) with c by (field; exact HINR).
  rewrite map_repeat. replace (c - c) with 0 by ring.
  rewrite fround_0, maxAbs_zeros.
  destruct (Rlt_dec 0 0) as [H | _]; [lra | reflexivity].
Qed.

(** C10: on a non-empty constant sequence [preprocessAudio] returns the
    all-zero sequence of the same length, whatever the constant; two such
    streams then score confidence 0 for every correlation sequence and
    offset. *)
Theorem preprocessAudio_zeroes_constant {F32 : Float32Store}
  (c : R) (samples : Float32Array) :
  samples <> [] -> (forall x, In x samples -> x = c) ->
  preprocessAudio samples = repeat 0 (length samples) /\
  (forall (c' : R) (other : Float32Array) (correlation : Float32Array) (offset : Z),
      other <> [] -> (forall x, In x other -> x = c') ->
      calculateConfidence (preprocessAudio samples) (preprocessAudio other)
        correlation offset = Some 0).
Proof.
  intros Hne Hconst.
  assert (Hzero : forall d l, l <> [] -> (forall x, In x l -> x = d) ->
                              preprocessAudio l = repeat 0 (length l)).
  { intros d l Hl Hd. rewrite (constant_is_repeat d l Hd) at 1.
    apply preprocessAudio_constant. destruct l; [congruence | discriminate]. }
  split; [apply (Hzero c); assumption |].
  intros c' other correlation offset Hne' Hconst'.
  rewrite (Hzero c samples), (Hzero c' other) by assumption.
  unfold calculateConfidence. rewrite !energy_zeros, Rmult_0_l, sqrt_0.
  destruct (Req_dec_T 0 0) as [_ | H]; [reflexivity | contradiction].
Qed.

Lemma preprocessAudio_zeroes_constant_witness :
  [5; 5; 5] <> [] /\ (forall x, In x [5; 5; 5] -> x = 5) /\
  preprocessAudio (F32 := grid_store) [5; 5; 5] = repeat 0 (length [5; 5; 5]).
Proof.
  assert (Hc : forall x, In x [5; 5; 5] -> x = 5).
  { intros x Hx. simpl in Hx. intuition. }
  split; [discriminate |]. split; [exact Hc |].
  apply (preprocessAudio_zeroes_constant (F32 := grid_store)
      5 [5; 5; 5]); [discriminate | exact Hc].
Defined.

(** ** The transform engine *)

Lemma fft_empty (fuel : nat) : fft fuel [] = Exhausted.
Proof. rewrite fft_fftComplex. apply fftComplex_empty. Qed.

Lemma fft_rejects (fuel : nat) (x : Float32Array) :
  (0 < length x)%nat -> (Z.of_nat (length x) < 2 ^ 31)%Z ->
  (forall k, length x <> 2 ^ k)%nat ->
  fft (S fuel) x = Throw (Error fft_length_message).
Proof.
  intros Hpos Hbound Hnp. rewrite fft_fftComplex.
  apply fftComplex_rejects; rewrite zero_imag_length; assumption.
Qed.

(** C2 (fails on the code for length 0): on the empty sequence neither entry
    point of the forward transform ever throws the length error or returns;
    each call recurses on the empty sequence again, whatever the fuel. *)
Theorem transform_of_empty_never_answers (fuel : nat) :
  fft fuel [] = Exhausted /\ fftComplex fuel [] = Exhausted.
Proof. split; [apply fft_empty | apply fftComplex_empty]. Qed.

(** C8: on a real sequence [x] whose length is a power of two, [fft(x)] and
    [fftComplex] applied to [x] with explicit zero imaginary parts return the
    same complex sequence. *)
Theorem fft_same_as_fftComplex (k : nat) (x : Float32Array) :
  length x = (2 ^ k)%nat ->
  exists X : list Complex,
    length X = length x /\
    forall fuel, (k < fuel)%nat ->
      fft fuel x = Return X /\ fftComplex fuel (zero_imag x) = Return X.
Proof.
  intros Hlen. exists (dft (zero_imag x)).
  split; [rewrite dft_length; apply zero_imag_length |].
  intros fuel Hfuel.
  rewrite <- fft_fftComplex. split; apply (fft_dft k); assumption.
Qed.

Lemma fft_same_as_fftComplex_witness :
  length [1; 2] = (2 ^ 1)%nat /\
  exists X : list Complex,
    length X = length [1; 2] /\
    forall fuel, (1 < fuel)%nat ->
      fft fuel [1; 2] = Return X /\ fftComplex fuel (zero_imag [1; 2]) = Return X.
Proof.
  split; [reflexivity |].
  apply (fft_same_as_fftComplex 1 [1; 2]). reflexivity.
Defined.

(** C9: on a real sequence [x] whose length is a power of two, the inverse
    transform applied to the forward transform of [x] returns [x] (with zero
    imaginary parts). *)
Theorem ifft_fft_roundtrip (k : nat) (x : Float32Array) :
  length x = (2 ^ k)%nat ->
  forall fuel, (k < fuel)%nat ->
    (X <- fft fuel x ;; ifft fuel X) = Return (zero_imag x) /\
    map fst (zero_imag x) = x.
Proof.
  intros Hlen fuel Hfuel.
  rewrite (fft_dft k fuel x Hlen Hfuel). cbn [bind]. split.
  - apply (ifft_fuel_le (S k)); [lia |].
    apply ifft_dft. rewrite zero_imag_length. exact Hlen.
  - unfold zero_imag. rewrite map_map. cbn [fst]. apply map_id.
Qed.

Lemma ifft_fft_roundtrip_witness :
  length [1; 2; 3; 4] = (2 ^ 2)%nat /\ (2 < 3)%nat /\
  (X <- fft 3 [1; 2; 3; 4] ;; ifft 3 X) = Return (zero_imag [1; 2; 3; 4]).
Proof.
  split; [reflexivity |]. split; [lia |].
  apply (ifft_fft_roundtrip 2 [1; 2; 3; 4]); [reflexivity | lia].
Defined.

(** ** The length of the correlation sequence *)

Lemma shl_1_cases (c : Z) :
  Int32.shl 1 c = (- 2 ^ 31)%Z /\ Z.land c 31 = 31%Z \/
  exists s, (0 <= s <= 30)%Z /\ Z.land c 31 = s /\ Int32.shl 1 c = (2 ^ s)%Z.
Proof.
  unfold Int32.shl.
  assert (Hs : (0 <= Z.land c 31 < 32)%Z).
  { change 31%Z with (Z.ones 5). rewrite Z.land_ones by lia.
    apply Z.mod_pos_bound. reflexivity. }
  destruct (Z.eq_dec (Z.land c 31) 31) as [E | E].
  - left. rewrite E. split; reflexivity.
  - right. exists (Z.land c 31). split; [lia |]. split; [reflexivity |].
    rewrite (wrap_small 1) by lia. rewrite Z.shiftl_1_l.
    apply wrap_small.
    assert (2 ^ Z.land c 31 <= 2 ^ 30)%Z by (apply Z.pow_le_mono_r; lia).
    pose proof (Z.pow_pos_nonneg 2 (Z.land c 31)). lia.
Qed.

Lemma land_31_small (c : Z) : (0 <= c < 32)%Z -> Z.land c 31 = c.
Proof.
  intros H. change 31%Z with (Z.ones 5). rewrite Z.land_ones by lia.
  apply Z.mod_small. exact H.
Qed.

Lemma ceil_log2_upper (n b : Z) : (0 <= b)%Z -> (n <= 2 ^ b)%Z -> (ceil_log2 n <= b)%Z.
Proof.
  intros Hb H. unfold ceil_log2. destruct (Z.leb_spec n 0) as [Hle | Hgt]; [lia |].
  apply Z.log2_up_le_pow2; lia.
Qed.

Lemma ceil_log2_lower (n b : Z) : (2 ^ b < n)%Z -> (b < ceil_log2 n)%Z.
Proof.
  intros H. pose proof (ceil_log2_covers n) as Hc.
  pose proof (ceil_log2_nonneg n) as Hn.
  destruct (Z_lt_le_dec b (ceil_log2 n)) as [Hlt | Hge]; [exact Hlt |].
  destruct (Z_lt_le_dec b 0) as [Hneg | Hpos]; [lia |].
  assert (2 ^ ceil_log2 n <= 2 ^ b)%Z by (apply Z.pow_le_mono_r; lia).
  lia.
Qed.

(** A target length that admits both inputs is the true next power of two. *)
Lemma nextPowerOfTwo_admits (la lb : Z) :
  (0 <= la)%Z -> (0 <= lb)%Z ->
  (0 <= nextPowerOfTwo (la + lb - 1))%Z ->
  (la <= nextPowerOfTwo (la + lb - 1))%Z ->
  (lb <= nextPowerOfTwo (la + lb - 1))%Z ->
  (la + lb - 1 <= 2 ^ 30)%Z.
Proof.
  intros Hla Hlb Hpos Ha Hb. unfold nextPowerOfTwo in *.
  destruct (shl_1_cases (ceil_log2 (la + lb - 1))) as [[E _] | [s [Hs [Hland E]]]].
  - rewrite E in Hpos. lia.
  - rewrite E in Ha, Hb.
    assert (H30 : (2 ^ s <= 2 ^ 30)%Z) by (apply Z.pow_le_mono_r; lia).
    assert (Hc : (ceil_log2 (la + lb - 1) <= 31)%Z).
    { apply ceil_log2_upper; [lia |]. change (2 ^ 31)%Z with (2 * 2 ^ 30)%Z. lia. }
    pose proof (ceil_log2_nonneg (la + lb - 1)) as Hc0.
    rewrite land_31_small in Hland by lia.
    pose proof (ceil_log2_covers (la + lb - 1)) as Hcov.
    rewrite Hland in Hcov. lia.
Qed.

Lemma padToPowerOfTwo_Return (arr r : Float32Array) (n : Z) :
  padToPowerOfTwo arr n = Return r ->
  (0 <= n)%Z /\ (Z.of_nat (length arr) <= n)%Z.
Proof.
  unfold padToPowerOfTwo.
  destruct (Z.ltb_spec n 0); [discriminate |].
  destruct (Z.ltb_spec n (Z.of_nat (length arr))); [discriminate |].
  intros _. lia.
Qed.

Lemma crossCorrelate_Return {F32 : Float32Store}
  (fuel : nat) (a b r : Float32Array) :
  crossCorrelate fuel a b = Return r ->
  let n := nextPowerOfTwo (Z.of_nat (length a) + Z.of_nat (length b) - 1) in
  (Z.of_nat (length a) + Z.of_nat (length b) - 1 <= 2 ^ 30)%Z /\
  (Z.of_nat (length a) <= n)%Z /\ (Z.of_nat (length b) <= n)%Z /\
  Z.of_nat (length r) = n.
Proof.
  intros H n. unfold crossCorrelate in H. fold n in H.
  apply bind_Return in H. destruct H as [pa [Hpa H]].
  apply bind_Return in H. destruct H as [pb [Hpb H]].
  apply bind_Return in H. destruct H as [fa [_ H]].
  apply bind_Return in H. destruct H as [fb [_ H]].
  apply bind_Return in H. destruct H as [co [_ H]].
  apply padToPowerOfTwo_Return in Hpa, Hpb.
  injection H as <-. rewrite length_map, length_seq.
  repeat split; try lia.
  apply nextPowerOfTwo_admits; fold n; lia.
Qed.

Lemma crossCorrelate_returns {F32 : Float32Store} (a b : Float32Array) :
  (Z.of_nat (length a) + Z.of_nat (length b) - 1 <= 2 ^ 30)%Z ->
  (Z.of_nat (length a)
   <= nextPowerOfTwo (Z.of_nat (length a) + Z.of_nat (length b) - 1))%Z ->
  (Z.of_nat (length b)
   <= nextPowerOfTwo (Z.of_nat (length a) + Z.of_nat (length b) - 1))%Z ->
  exists k, (k <= 30)%nat /\
    Z.of_nat (2 ^ k) = nextPowerOfTwo (Z.of_nat (length a) + Z.of_nat (length b) - 1) /\
    forall fuel, (k < fuel)%nat ->
      crossCorrelate fuel a b =
      Return (map (fun i => fround (circular_correlation (zero_pad a (2 ^ k))
       (zero_pad b (2 ^ k)) i))
                  (seq 0 (2 ^ k))).
Proof.
  intros Hsmall Ha Hb.
  set (N := (Z.of_nat (length a) + Z.of_nat (length b) - 1)%Z) in *.
  pose proof (ceil_log2_nonneg N) as Hc0.
  pose proof (ceil_log2_bound N Hsmall) as Hc30.
  rewrite nextPowerOfTwo_small in Ha, Hb |- * by exact Hsmall.
  exists (Z.to_nat (ceil_log2 N)).
  assert (Hk : Z.of_nat (Z.to_nat (ceil_log2 N)) = ceil_log2 N) by lia.
  split; [lia |]. split; [rewrite of_nat_pow2, Hk; reflexivity |].
  intros fuel Hfuel.
  apply crossCorrelate_circular; fold N; try assumption.
  - apply Nat2Z.inj_le. rewrite of_nat_pow2, Hk. exact Ha.
  - apply Nat2Z.inj_le. rewrite of_nat_pow2, Hk. exact Hb.
Qed.

(** When the sum of the lengths passes [2^30 + 1] the shift wraps to
    [-2^31] and the typed-array constructor rejects the length. *)
Lemma crossCorrelate_overflow {F32 : Float32Store}
  (fuel : nat) (a b : Float32Array) :
  (2 ^ 30 < Z.of_nat (length a) + Z.of_nat (length b) - 1 <= 2 ^ 31)%Z ->
  crossCorrelate fuel a b = Throw RangeError.
Proof.
  intros [Hlo Hhi]. unfold crossCorrelate.
  set (N := (Z.of_nat (length a) + Z.of_nat (length b) - 1)%Z) in *.
  assert (Hc : ceil_log2 N = 31%Z).
  { pose proof (ceil_log2_lower N 30 Hlo).
    pose proof (ceil_log2_upper N 31 ltac:(lia) Hhi). lia. }
  unfold nextPowerOfTwo. rewrite Hc. reflexivity.
Qed.

(** An empty second input makes the target length [nextPowerOfTwo(len(a) - 1)],
    which is too short for [a] when [len(a) - 1] is a power of two. *)
Lemma crossCorrelate_empty_target {F32 : Float32Store} (fuel : nat) :
  crossCorrelate fuel [0; 0] [] = Throw RangeError.
Proof. reflexivity. Qed.

Lemma preprocessAudio_length {F32 : Float32Store} (samples : Float32Array) :
  length (preprocessAudio samples) = length samples.
Proof.
  unfold preprocessAudio.
  destruct (Rlt_dec _ _); rewrite ?length_map; reflexivity.
Qed.

(** C7: for non-empty [a] and [b], a sequence returned by [crossCorrelate]
    has length [nextPowerOfTwo(len(a) + len(b) - 1)], which is a power of two
    and at least [len(a) + len(b) - 1]; and the call does return, for every
    fuel above 30, when [len(a) + len(b) - 1 <= 2^30] (beyond that the 32-bit
    shift wraps and the call throws instead of returning). *)
Theorem crossCorrelate_length {F32 : Float32Store} (a b : Float32Array) :
  a <> [] -> b <> [] ->
  let N := (Z.of_nat (length a) + Z.of_nat (length b) - 1)%Z in
  (forall fuel r, crossCorrelate fuel a b = Return r ->
     Z.of_nat (length r) = nextPowerOfTwo N /\
     is_power_of_two (Z.of_nat (length r)) /\
     (N <= Z.of_nat (length r))%Z) /\
  ((N <= 2 ^ 30)%Z ->
   exists r, forall fuel, (30 < fuel)%nat -> crossCorrelate fuel a b = Return r).
Proof.
  intros Hna Hnb N.
  assert (Hla : (0 < length a)%nat) by (destruct a; [congruence | simpl; lia]).
  assert (Hlb : (0 < length b)%nat) by (destruct b; [congruence | simpl; lia]).
  split.
  - intros fuel r H. apply crossCorrelate_Return in H. fold N in H.
    destruct H as [Hsmall [Ha [Hb Hr]]].
    rewrite Hr. split; [reflexivity |].
    rewrite nextPowerOfTwo_small by exact Hsmall. split.
    + exists (ceil_log2 N). split; [apply ceil_log2_nonneg | reflexivity].
    + apply ceil_log2_covers.
  - intros Hsmall.
    pose proof (ceil_log2_covers N) as Hcov.
    destruct (crossCorrelate_returns a b) as [k [Hk [_ Hrun]]]; fold N.
    + exact Hsmall.
    + rewrite nextPowerOfTwo_small by exact Hsmall. lia.
    + rewrite nextPowerOfTwo_small by exact Hsmall. lia.
    + eexists. intros fuel Hfuel. apply Hrun. lia.
Qed.

Lemma crossCorrelate_length_witness :
  [1; 2; 3] <> [] /\ [4; 5] <> [] /\
  exists r, forall fuel, (30 < fuel)%nat -> crossCorrelate (F32 := grid_store)
      fuel [1; 2; 3] [4; 5] = Return r.
Proof.
  split; [discriminate |]. split; [discriminate |].
  apply (crossCorrelate_length (F32 := grid_store)
      [1; 2; 3] [4; 5]); [discriminate | discriminate |].
  simpl. lia.
Defined.

(** ** The stored peak against the norms of the inputs *)

Lemma Rsum_ext (f g : nat -> R) (n : nat) :
  (forall i, (i < n)%nat -> f i = g i) -> Rsum f n = Rsum g n.
Proof.
  induction n as [| n IH]; intros H; [reflexivity |].
  cbn [Rsum]. rewrite IH, H by (intros; try apply H; lia). reflexivity.
Qed.

Lemma Rsum_squares_nonneg (u : nat -> R) (n : nat) :
  0 <= Rsum (fun i => u i * u i) n.
Proof.
  induction n as [| n IH]; cbn [Rsum]; [lra | nra].
Qed.

Lemma cauchy_schwarz_step (s U V u v : R) :
  0 <= U -> 0 <= V -> s * s <= U * V ->
  (s + u * v) * (s + u * v) <= (U + u * u) * (V + v * v).
Proof.
  intros HU HV Hs.
  assert (Hcross : 2 * s * u * v <= U * v * v + V * u * u).
  { destruct (Req_dec U 0) as [-> | HU0].
    - assert (Hs0 : s = 0) by nra. subst s. nra.
    - assert (HUpos : 0 < U) by lra.
      assert (H : 0 <= U * (U * v * v + V * u * u - 2 * s * u * v)).
      { replace (U * (U * v * v + V * u * u - 2 * s * u * v))
          with ((U * v - s * u) * (U * v - s * u) + (U * V - s * s) * (u * u))
          by ring.
        pose proof (Rle_0_sqr (U * v - s * u)) as Hsq1.
        pose proof (Rle_0_sqr u) as Hsq2. unfold Rsqr in Hsq1, Hsq2.
        assert (0 <= (U * V - s * s) * (u * u)) by (apply Rmult_le_pos; lra).
        lra. }
      assert (0 <= U * v * v + V * u * u - 2 * s * u * v); [| lra].
      apply (Rmult_le_reg_l U); [exact HUpos |]. lra. }
  nra.
Qed.

Lemma Rsum_cauchy_schwarz (u v : nat -> R) (n : nat) :
  Rsum (fun i => u i * v i) n * Rsum (fun i => u i * v i) n
  <= Rsum (fun i => u i * u i) n * Rsum (fun i => v i * v i) n.
Proof.
  induction n as [| n IH]; cbn [Rsum]; [lra |].
  apply cauchy_schwarz_step;
    [apply Rsum_squares_nonneg | apply Rsum_squares_nonneg | exact IH].
Qed.

Lemma Rsum_rotate (g : nat -> R) (n p : nat) :
  n <> 0%nat -> Rsum (fun k => g ((p + k) mod n)%nat) n = Rsum g n.
Proof.
  intros Hn.
  pose proof (Csum_rotate (fun m => (g m, 0)) n p Hn) as H.
  cbn beta in H. rewrite !Csum_real in H. injection H as H. exact H.
Qed.

Lemma Rsum_tail_zero (f : nat -> R) (m n : nat) :
  (m <= n)%nat -> (forall i, (m <= i)%nat -> f i = 0) -> Rsum f n = Rsum f m.
Proof.
  intros Hle Hz. induction Hle as [| n Hle IH]; [reflexivity |].
  cbn [Rsum]. rewrite IH, Hz by exact Hle. ring.
Qed.

Lemma energy_app (l : list R) (x : R) : energy (l ++ [x]) = energy l + x * x.
Proof. unfold energy. rewrite fold_left_app. reflexivity. Qed.

Lemma energy_Rsum_exact (l : list R) :
  Rsum (fun m => nth m l 0 * nth m l 0) (length l) = energy l.
Proof.
  induction l as [| x l IH] using rev_ind; [reflexivity |].
  rewrite length_app, energy_app. cbn [length].
  replace (length l + 1)%nat with (S (length l)) by lia.
  cbn [Rsum]. rewrite app_nth2, Nat.sub_diag by lia. cbn [nth].
  rewrite <- IH. f_equal.
  apply Rsum_ext. intros i Hi. rewrite app_nth1 by exact Hi. reflexivity.
Qed.

Lemma energy_Rsum (l : list R) (n : nat) :
  (length l <= n)%nat ->
  Rsum (fun m => nth m l 0 * nth m l 0) n = energy l.
Proof.
  intros Hle. rewrite <- energy_Rsum_exact.
  apply Rsum_tail_zero; [exact Hle |].
  intros i Hi. rewrite nth_overflow by exact Hi. ring.
Qed.

(** C4: [calculateConfidence] returns [|peakValue| / sqrt(energyA * energyB)],
    where [energyA] and [energyB] are the sums of the squares of the samples
    of [a] and of [b] and the peak value is read at the offset itself or, for
    a negative offset, at [N + offset] (an index outside the sequence reads
    [undefined] and the quotient is [NaN]); it returns exactly 0 when either
    sum of squares is 0; it never returns a negative number. *)
Theorem calculateConfidence_normalised (a b correlation : list R) (peakOffset : Z) :
  let index := (if (peakOffset <? 0)%Z
                then Z.of_nat (length correlation) + peakOffset
                else peakOffset)%Z in
  (sum_of_squares a = 0 \/ sum_of_squares b = 0 ->
   calculateConfidence a b correlation peakOffset = Some 0) /\
  (sum_of_squares a <> 0 -> sum_of_squares b <> 0 ->
   (0 <= index < Z.of_nat (length correlation))%Z ->
   calculateConfidence a b correlation peakOffset =
   Some (Rabs (nth (Z.to_nat index) correlation 0)
         / sqrt (sum_of_squares a * sum_of_squares b))) /\
  (sum_of_squares a <> 0 -> sum_of_squares b <> 0 ->
   ~ (0 <= index < Z.of_nat (length correlation))%Z ->
   calculateConfidence a b correlation peakOffset = None) /\
  (forall r, calculateConfidence a b correlation peakOffset = Some r -> 0 <= r).
Proof.
  intros index. unfold calculateConfidence, sum_of_squares. fold index.
  rewrite !energy_Rsum_exact.
  pose proof (energy_nonneg a) as Ha. pose proof (energy_nonneg b) as Hb.
  pose proof (norm_zero_iff _ _ Ha Hb) as Hnorm.
  destruct (Req_dec_T (sqrt (energy a * energy b)) 0) as [Hz | Hnz].
  - apply Hnorm in Hz.
    split; [reflexivity |]. split; [tauto |]. split; [tauto |].
    intros r Hr. injection Hr as Hr. lra.
  - split; [intros H; exfalso; apply Hnz, Hnorm, H |].
    unfold at_index. split; [| split].
    + intros _ _ [Hlow Hhigh].
      destruct (Z.ltb_spec index 0) as [Hneg | _]; [lia |].
      rewrite (nth_error_nth' correlation 0) by lia. reflexivity.
    + intros _ _ Hout.
      destruct (Z.ltb_spec index 0) as [Hneg | Hnn]; [reflexivity |].
      assert (Hge : (length correlation <= Z.to_nat index)%nat) by lia.
      apply nth_error_None in Hge. rewrite Hge. reflexivity.
    + intros r Hr.
      destruct (if (index <? 0)%Z then None
                else nth_error correlation (Z.to_nat index)) as [v |];
        [| discriminate].
      injection Hr as Hr. rewrite <- Hr.
      apply Rmult_le_pos; [apply Rabs_pos |].
      apply Rlt_le, Rinv_0_lt_compat.
      pose proof (sqrt_pos (energy a * energy b)). lra.
Qed.

Lemma calculateConfidence_normalised_witness :
  calculateConfidence [3; 4] [1; 0] [2; -10; 5] (-2) =
  Some (Rabs (-10) / sqrt (sum_of_squares [3; 4] * sum_of_squares [1; 0])).
Proof.
  apply (calculateConfidence_normalised [3; 4] [1; 0] [2; -10; 5] (-2)).
  - unfold sum_of_squares. cbn. lra.
  - unfold sum_of_squares. cbn. lra.
  - cbn. lia.
Defined.

Lemma nth_zero_pad (a : list R) (n m : nat) : nth m (zero_pad a n) 0 = nth m a 0.
Proof.
  unfold zero_pad. destruct (Nat.lt_ge_cases m (length a)) as [Hlt | Hge].
  - apply app_nth1, Hlt.
  - rewrite app_nth2 by exact Hge.
    rewrite nth_repeat, nth_overflow by exact Hge. reflexivity.
Qed.

Lemma zero_pad_length (a : list R) (n : nat) :
  (length a <= n)%nat -> length (zero_pad a n) = n.
Proof. intros H. unfold zero_pad. rewrite length_app, repeat_length. lia. Qed.

Lemma circular_correlation_bound (a b : list R) (n k : nat) :
  n <> 0%nat -> (length a <= n)%nat -> (length b <= n)%nat ->
  Rabs (circular_correlation (zero_pad a n) (zero_pad b n) k)
  <= sqrt (energy a * energy b).
Proof.
  intros Hn Ha Hb. unfold circular_correlation.
  rewrite (zero_pad_length a n Ha).
  set (u := fun p => nth ((p + k) mod n) (zero_pad a n) 0).
  set (v := fun p => nth p (zero_pad b n) 0).
  change (Rabs (Rsum (fun p => u p * v p) n) <= sqrt (energy a * energy b)).
  pose proof (Rsum_cauchy_schwarz u v n) as Hcs.
  assert (Hu : Rsum (fun i => u i * u i) n = energy a).
  { unfold u.
    rewrite (Rsum_ext _ (fun p => (fun m => nth m a 0 * nth m a 0) ((k + p) mod n)%nat)).
    2:{ intros p _. cbn beta. rewrite (Nat.add_comm k p), !nth_zero_pad. reflexivity. }
    rewrite (Rsum_rotate (fun m => nth m a 0 * nth m a 0) n k Hn).
    apply energy_Rsum, Ha. }
  assert (Hv : Rsum (fun i => v i * v i) n = energy b).
  { unfold v.
    rewrite (Rsum_ext _ (fun m => nth m b 0 * nth m b 0))
      by (intros; rewrite !nth_zero_pad; reflexivity).
    apply energy_Rsum, Hb. }
  rewrite Hu, Hv in Hcs.
  rewrite <- sqrt_Rsqr_abs. apply sqrt_le_1_alt. exact Hcs.
Qed.

Lemma crossCorrelate_fuel_le {F32 : Float32Store}
  (fuel fuel' : nat) (a b r : Float32Array) :
  (fuel <= fuel')%nat -> crossCorrelate fuel a b = Return r ->
  crossCorrelate fuel' a b = Return r.
Proof.
  intros Hle H. unfold crossCorrelate in *.
  apply bind_Return in H. destruct H as [pa [Hpa H]].
  apply bind_Return in H. destruct H as [pb [Hpb H]].
  apply bind_Return in H. destruct H as [fa [Hfa H]].
  apply bind_Return in H. destruct H as [fb [Hfb H]].
  apply bind_Return in H. destruct H as [co [Hco H]].
  rewrite Hpa, Hpb. cbn [bind].
  rewrite (fft_fuel_le _ _ _ _ Hle Hfa), (fft_fuel_le _ _ _ _ Hle Hfb).
  cbn [bind]. rewrite (ifft_fuel_le _ _ _ _ Hle Hco). exact H.
Qed.

(** What a returned correlation sequence is. *)
Lemma crossCorrelate_value {F32 : Float32Store}
  (fuel : nat) (a b r : Float32Array) :
  crossCorrelate fuel a b = Return r ->
  exists k,
    (length a <= 2 ^ k)%nat /\ (length b <= 2 ^ k)%nat /\
    r = map (fun i => fround (circular_correlation (zero_pad a (2 ^ k))
       (zero_pad b (2 ^ k)) i))
            (seq 0 (2 ^ k)).
Proof.
  intros H. pose proof (crossCorrelate_Return _ _ _ _ H) as [Hsmall [Ha [Hb _]]].
  destruct (crossCorrelate_returns a b Hsmall Ha Hb) as [k [_ [Hk Hrun]]].
  exists k. rewrite <- Hk in Ha, Hb.
  split; [lia |]. split; [lia |].
  specialize (Hrun (S (Nat.max fuel k)) ltac:(lia)).
  rewrite (crossCorrelate_fuel_le fuel (S (Nat.max fuel k)) a b r ltac:(lia) H) in Hrun.
  injection Hrun as Hrun. exact Hrun.
Qed.

Lemma at_index_of_nat (l : list R) (i : nat) :
  at_index l (Z.of_nat i) = nth_error l i.
Proof.
  unfold at_index. destruct (Z.ltb_spec (Z.of_nat i) 0); [lia |].
  rewrite Nat2Z.id. reflexivity.
Qed.

Lemma peak_lookup (correlation : list R) (signalBLength : nat) :
  correlation <> [] ->
  let offset := findPeakOffset correlation signalBLength in
  at_index correlation
    (if (offset <? 0)%Z then Z.of_nat (length correlation) + offset else offset)%Z
  = Some (nth (peak_scan correlation 0 None 0) correlation 0).
Proof.
  intros Hne offset.
  pose proof (peak_scan_first_max correlation Hne) as [Hi _].
  unfold offset. rewrite findPeakOffset_lag. unfold lag.
  set (i := peak_scan correlation 0 None 0) in *.
  rewrite <- (nth_error_nth' correlation 0 Hi), <- at_index_of_nat.
  f_equal.
  destruct (Nat.ltb_spec (length correlation) (2 * i)) as [Hlt | Hge].
  - destruct (Z.ltb_spec (Z.of_nat i - Z.of_nat (length correlation)) 0); lia.
  - destruct (Z.ltb_spec (Z.of_nat i) 0); lia.
Qed.

(** No stored correlation value exceeds, in magnitude, the binary32 rounding
    of [sqrt(energyA * energyB)] (Cauchy-Schwarz, then the monotone store). *)
Lemma stored_peak_bound {F32 : Float32Store} (fuel : nat)
  (a b correlation : Float32Array) (j : nat) :
  crossCorrelate fuel a b = Return correlation ->
  (j < length correlation)%nat ->
  Rabs (nth j correlation 0) <= fround (sqrt (energy a * energy b)).
Proof.
  intros H Hj. destruct (crossCorrelate_value _ _ _ _ H) as [k [Ha [Hb Hr]]].
  assert (Hpow : (2 ^ k <> 0)%nat) by (apply Nat.pow_nonzero; discriminate).
  rewrite Hr in Hj |- *. rewrite length_map, length_seq in Hj.
  rewrite nth_map_seq by exact Hj.
  apply fround_Rabs_le, circular_correlation_bound; assumption.
Qed.

Lemma confidence_of_peak {F32 : Float32Store}
  (fuel : nat) (a b correlation : Float32Array) :
  crossCorrelate fuel a b = Return correlation ->
  exists c,
    calculateConfidence a b correlation (findPeakOffset correlation (length b))
    = Some c /\ 0 <= c.
Proof.
  intros H. destruct (crossCorrelate_value _ _ _ _ H) as [k [Ha [Hb Hr]]].
  assert (Hpow : (2 ^ k <> 0)%nat) by (apply Nat.pow_nonzero; discriminate).
  assert (Hne : correlation <> []).
  { intros E. apply (f_equal (@length R)) in Hr.
    rewrite E, length_map, length_seq in Hr. simpl in Hr. lia. }
  pose proof (peak_lookup correlation (length b) Hne) as Hlook.
  cbv zeta in Hlook. unfold calculateConfidence. rewrite Hlook.
  destruct (Req_dec_T (sqrt (energy a * energy b)) 0) as [Hz | Hnz].
  - exists 0. split; [reflexivity | lra].
  - eexists. split; [reflexivity |].
    pose proof (sqrt_pos (energy a * energy b)) as Hpos.
    apply Rmult_le_pos; [apply Rabs_pos |].
    apply Rlt_le, Rinv_0_lt_compat. lra.
Qed.

(** ** The multi-stream aligner *)

Section SyncProperties.

Context {F32 : Float32Store}.

Variables File Date FFmpeg : Type.
Variable getTime : Date -> R.
Variable newDate : R -> Date.
Variable ffmpeg_loaded : FFmpeg -> bool.
Variable ffmpeg_load : FFmpeg -> outcome FFmpeg.
Variable extractAudio :
  FFmpeg -> File -> ExtractOptions -> outcome (AudioData * FFmpeg).
Variable range_error_message : string.

Variable fuel : nat.
Variable cb : option (string -> R -> outcome unit).
Variable referenceIdx : Z.
Variable referenceVideo : VideoInput File Date.
Variable referenceAudio : Float32Array.
Variable rate : Z.
Variable processedAudio : list Float32Array.

Hypothesis callback_returns :
  forall stage progress, report cb stage progress = Return tt.

Lemma correlate_one_populated (i : nat) (video : VideoInput File Date) :
  (Z.of_nat i <> referenceIdx ->
   exists c, crossCorrelate fuel referenceAudio (nth i processedAudio []) = Return c) ->
  exists r,
    correlate_one getTime newDate fuel referenceIdx referenceVideo referenceAudio
      rate processedAudio i video = Return r /\
    (Z.of_nat i = referenceIdx -> confidence r = Some 1) /\
    exists c, confidence r = Some c /\ 0 <= c.
Proof.
  intros Hcorr. unfold correlate_one.
  destruct (Z.eqb_spec (Z.of_nat i) referenceIdx) as [E | E].
  - eexists. split; [reflexivity |]. cbn [confidence].
    split; [reflexivity |]. exists 1. split; [reflexivity | lra].
  - destruct (Hcorr E) as [c Hc]. rewrite Hc. cbn [bind].
    eexists. split; [reflexivity |]. cbn [confidence].
    split; [intros; contradiction |].
    apply (confidence_of_peak fuel), Hc.
Qed.

Lemma correlate_from_populated (total : nat) (rest : list (VideoInput File Date)) :
  forall i,
  (forall j, (i <= j < i + length rest)%nat -> Z.of_nat j <> referenceIdx ->
     exists c, crossCorrelate fuel referenceAudio (nth j processedAudio []) = Return c) ->
  exists res,
    correlate_from getTime newDate fuel cb total referenceIdx referenceVideo
      referenceAudio rate processedAudio i rest = Return res /\
    length res = length rest /\
    forall j r, nth_error res j = Some r ->
      (Z.of_nat (i + j) = referenceIdx -> confidence r = Some 1) /\
      exists c, confidence r = Some c /\ 0 <= c.
Proof.
  induction rest as [| video rest IH]; intros i Hcorr.
  - exists []. split; [reflexivity |]. split; [reflexivity |].
    intros j r H. destruct j; discriminate.
  - cbn [correlate_from]. rewrite callback_returns. cbn [bind].
    destruct (correlate_one_populated i video) as [r [Hr Hpop]].
    { intros E. apply Hcorr; [cbn [length]; lia | exact E]. }
    rewrite Hr. cbn [bind].
    destruct (IH (S i)) as [res [Hres [Hlen Hall]]].
    { intros j Hj. apply Hcorr. cbn [length]. lia. }
    rewrite Hres. cbn [bind].
    exists (r :: res). split; [reflexivity |].
    split; [cbn [length]; rewrite Hlen; reflexivity |].
    intros j r' Hj. destruct j as [| j].
    + injection Hj as <-. rewrite Nat.add_0_r. exact Hpop.
    + cbn [nth_error] in Hj. replace (i + S j)%nat with (S i + j)%nat by lia.
      apply Hall, Hj.
Qed.

End SyncProperties.

Lemma confidence_ok_true {Date : Type} (minimum : R) (r : SyncResult Date) (c : R) :
  confidence r = Some c -> (confidence_ok minimum r = true <-> minimum <= c).
Proof.
  intros Hc. unfold confidence_ok. rewrite Hc.
  destruct (Rle_dec minimum c); split; intros; try assumption; try reflexivity;
    try discriminate; contradiction.
Qed.

(** The aggregate flag, on a results list in which every entry carries a
    number as confidence and the reference entry, which is in the list, the
    constant 1.  The test runs over every entry, the reference's included:
    a threshold above 1 fails it. *)
Lemma all_successful_iff {Date : Type} (minimum : R) (referenceIdx : Z)
  (res : list (SyncResult Date)) :
  (0 <= referenceIdx < Z.of_nat (length res))%Z ->
  (forall i r, nth_error res i = Some r -> exists c, confidence r = Some c) ->
  (forall i r, nth_error res i = Some r -> Z.of_nat i = referenceIdx ->
     confidence r = Some 1) ->
  (forallb (confidence_ok minimum) res = true <->
   minimum <= 1 /\
   forall i r c, nth_error res i = Some r -> Z.of_nat i <> referenceIdx ->
     confidence r = Some c -> minimum <= c).
Proof.
  intros Hin Hpop Href. rewrite forallb_forall. split.
  - intros H. split.
    + destruct (nth_error res (Z.to_nat referenceIdx)) as [r |] eqn:Er;
        [| apply nth_error_None in Er; lia].
      assert (Hc : confidence r = Some 1)
        by (apply (Href (Z.to_nat referenceIdx)); [exact Er | lia]).
      apply (confidence_ok_true minimum r 1 Hc), H.
      apply nth_error_In with (Z.to_nat referenceIdx). exact Er.
    + intros i r c Hi _ Hc.
      apply (confidence_ok_true minimum r c Hc), H.
      apply nth_error_In with i. exact Hi.
  - intros [Hone H] r Hr. apply In_nth_error in Hr. destruct Hr as [i Hi].
    destruct (Z.eq_dec (Z.of_nat i) referenceIdx) as [E | E].
    + apply (confidence_ok_true minimum r 1 (Href i r Hi E)), Hone.
    + destruct (Hpop i r Hi) as [c Hc].
      apply (confidence_ok_true minimum r c Hc), (H i r c Hi E Hc).
Qed.

Lemma syncVideos_no_fault {F32 : Float32Store} (File Date FFmpeg : Type)
  (getTime : Date -> R) (newDate : R -> Date)
  (ffmpeg_loaded : FFmpeg -> bool) (ffmpeg_load : FFmpeg -> outcome FFmpeg)
  (extractAudio : FFmpeg -> File -> ExtractOptions -> outcome (AudioData * FFmpeg))
  (range_error_message : string)
  (fuel : nat) (self self' : AudioVideoSync FFmpeg)
  (videos : list (VideoInput File Date)) (audio : list AudioData)
  (eo : ExtractOptions) (ri : option Z)
  (cb : option (string -> R -> outcome unit)) :
  let referenceIdx := match ri with Some i => i | None => 0%Z end in
  let processed := map (fun a => preprocessAudio (samples a)) audio in
  let referenceAudio := nth (Z.to_nat referenceIdx) processed [] in
  (2 <= length videos)%nat ->
  (0 <= referenceIdx < Z.of_nat (length videos))%Z ->
  load ffmpeg_loaded ffmpeg_load self = Return self' ->
  extract_from extractAudio cb eo (length videos) (ffmpeg self') 0 videos
  = Return audio ->
  (forall stage progress, report cb stage progress = Return tt) ->
  (forall i, (i < length videos)%nat -> Z.of_nat i <> referenceIdx ->
     exists c, crossCorrelate fuel referenceAudio (nth i processed []) = Return c) ->
  exists res : list (SyncResult Date),
    length res = length videos /\
    (forall i r, nth_error res i = Some r ->
       exists c, confidence r = Some c /\ 0 <= c) /\
    (forall i r, nth_error res i = Some r -> Z.of_nat i = referenceIdx ->
       confidence r = Some 1) /\
    forall mc : option R,
    exists r,
      syncVideos getTime newDate ffmpeg_loaded ffmpeg_load extractAudio
        range_error_message fuel self videos
        {| extractOptions := eo; referenceIndex := ri;
           minConfidence := mc; onProgress := cb |} = Return r /\
      results r = res /\
      success r =
        forallb (confidence_ok (match mc with Some m => m | None => 3 / 10 end)) res /\
      error r = (if success r then None
                 else Some "部分视频同步置信度过低"%string).
Proof.
  intros referenceIdx processed referenceAudio Hlen Href Hload Hext Hcb Hcorr.
  destruct (nth_error videos (Z.to_nat referenceIdx)) as [referenceVideo |] eqn:Ev;
    [| apply nth_error_None in Ev; lia].
  destruct (correlate_from_populated File Date getTime newDate fuel cb referenceIdx
              referenceVideo referenceAudio
              (match nth_error audio (Z.to_nat referenceIdx) with
               | Some a => audioSampleRate a
               | None => 0%Z
               end)
              processed Hcb (length videos) videos 0%nat)
    as [res [Hres [Hreslen Hpop]]].
  { intros j Hj. apply Hcorr. lia. }
  exists res. split; [exact Hreslen |].
  split; [intros i r Hi; apply (Hpop i r Hi) |].
  split; [intros i r Hi E; apply (Hpop i r Hi); exact E |].
  intros mc. unfold syncVideos. cbn [referenceIndex minConfidence onProgress extractOptions].
  fold referenceIdx.
  destruct (Nat.ltb_spec (length videos) 2) as [Hlt | _]; [lia |].
  destruct (Z.ltb_spec referenceIdx 0) as [Hneg | _]; [lia |].
  destruct (Z.leb_spec (Z.of_nat (length videos)) referenceIdx) as [Hbig | _]; [lia |].
  cbn [orb]. rewrite Ev.
  unfold syncVideos_try. rewrite Hload. cbn [bind]. rewrite Hext. cbn [bind].
  fold processed. fold referenceAudio. rewrite Hres. cbn [bind].
  eexists. split; [reflexivity |].
  cbn [results success error]. repeat split.
Qed.

(** C5 (as amended): a run of [syncVideos] with at least 2 streams and a valid
    reference index in which no fault is caught (the host loads, every
    extraction, progress report and cross-correlation returns) returns one
    result per stream, each with its offset and a non-negative number as
    confidence; its flag is [true] if and only if [minConfidence] (default
    0.3) is at most 1, the confidence of the reference that the code tests
    with the others, and every non-reference confidence is at least
    [minConfidence]; the results do not depend on the threshold, and the
    diagnostic message is present exactly when the flag is [false]. *)
Theorem syncVideos_success_policy {F32 : Float32Store} (File Date FFmpeg : Type)
  (getTime : Date -> R) (newDate : R -> Date)
  (ffmpeg_loaded : FFmpeg -> bool) (ffmpeg_load : FFmpeg -> outcome FFmpeg)
  (extractAudio : FFmpeg -> File -> ExtractOptions -> outcome (AudioData * FFmpeg))
  (range_error_message : string)
  (fuel : nat) (self self' : AudioVideoSync FFmpeg)
  (videos : list (VideoInput File Date)) (audio : list AudioData)
  (options : SyncOptions) :
  let processed := map (fun a => preprocessAudio (samples a)) audio in
  let referenceAudio := nth (Z.to_nat (reference_of options)) processed [] in
  (2 <= length videos)%nat ->
  (0 <= reference_of options < Z.of_nat (length videos))%Z ->
  load ffmpeg_loaded ffmpeg_load self = Return self' ->
  extract_from extractAudio (onProgress options) (extractOptions options)
    (length videos) (ffmpeg self') 0 videos = Return audio ->
  (forall stage progress, report (onProgress options) stage progress = Return tt) ->
  (forall i, (i < length videos)%nat -> Z.of_nat i <> reference_of options ->
     exists c, crossCorrelate fuel referenceAudio (nth i processed []) = Return c) ->
  exists r,
    syncVideos getTime newDate ffmpeg_loaded ffmpeg_load extractAudio
      range_error_message fuel self videos options = Return r /\
    length (results r) = length videos /\
    (forall i res, nth_error (results r) i = Some res ->
       exists c, confidence res = Some c /\ 0 <= c) /\
    (success r = true <->
     minimum_of options <= 1 /\
     forall i res c, nth_error (results r) i = Some res ->
       Z.of_nat i <> reference_of options ->
       confidence res = Some c -> minimum_of options <= c) /\
    error r = (if success r then None
               else Some "部分视频同步置信度过低"%string) /\
    (forall m, exists r',
       syncVideos getTime newDate ffmpeg_loaded ffmpeg_load extractAudio
         range_error_message fuel self videos (with_minConfidence options m)
       = Return r' /\ results r' = results r).
Proof.
  destruct options as [eo ri mc cb].
  intros processed referenceAudio.
  unfold reference_of, minimum_of, with_minConfidence in *.
  cbn [referenceIndex minConfidence onProgress extractOptions] in *.
  intros Hlen Href Hload Hext Hcb Hcorr.
  destruct (syncVideos_no_fault File Date FFmpeg getTime newDate ffmpeg_loaded
              ffmpeg_load extractAudio range_error_message fuel self self'
              videos audio eo ri cb Hlen Href Hload Hext Hcb Hcorr)
    as [res [Hreslen [Hpop [Hrefc Hrun]]]].
  destruct (Hrun mc) as [r [Hr [Hres [Hsucc Herr]]]].
  exists r. split; [exact Hr |]. rewrite Hres.
  split; [exact Hreslen |]. split; [exact Hpop |]. split.
  - rewrite Hsucc. apply all_successful_iff; [lia | | exact Hrefc].
    intros i r0 Hi. destruct (Hpop i r0 Hi) as [c [Hc _]]. exists c. exact Hc.
  - split; [exact Herr |].
    intros m. destruct (Hrun (Some m)) as [r' [Hr' [Hres' _]]].
    exists r'. split; assumption.
Qed.

Lemma silent_correlates {F32 : Float32Store} :
  exists c, crossCorrelate 31 [0; 0] [0; 0] = Return c.
Proof.
  destruct (crossCorrelate_returns [0; 0] [0; 0]) as [k [Hk [_ Hrun]]];
    try (vm_compute; intros H; discriminate H).
  eexists. apply Hrun. lia.
Qed.

(** Two preprocessed tones correlate: the call returns. *)
Lemma tone_correlates {F32 : Float32Store} :
  exists c,
    crossCorrelate 31 (preprocessAudio (samples tone_audio))
      (preprocessAudio (samples tone_audio)) = Return c.
Proof.
  assert (Hlen : length (preprocessAudio (samples tone_audio)) = 2%nat)
    by (rewrite preprocessAudio_length; reflexivity).
  destruct (crossCorrelate_returns (preprocessAudio (samples tone_audio))
              (preprocessAudio (samples tone_audio))) as [k [Hk [_ Hrun]]];
    try (rewrite Hlen; vm_compute; intros H; discriminate H).
  eexists. apply Hrun. lia.
Qed.

Lemma syncVideos_success_policy_witness :
  exists r,
    syncVideos (F32 := grid_store) (fun t : R => t) (fun t : R => t)
      (fun _ : unit => true) (fun f : unit => Return f) tone_extract
      "RangeError" 31 ready timed_videos default_options = Return r /\
    length (results r) = length timed_videos /\
    (success r = true <->
     minimum_of default_options <= 1 /\
     forall i res c, nth_error (results r) i = Some res ->
       Z.of_nat i <> reference_of default_options ->
       confidence res = Some c -> minimum_of default_options <= c).
Proof.
  destruct (syncVideos_success_policy (F32 := grid_store) unit R unit
              (fun t => t) (fun t => t)
              (fun _ => true) (fun f => Return f) tone_extract "RangeError"
              31 ready ready timed_videos [tone_audio; tone_audio]
              default_options) as [r [Hr [Hlen [_ [Hiff _]]]]].
  - cbn. lia.
  - cbn. lia.
  - reflexivity.
  - reflexivity.
  - reflexivity.
  - intros i Hi _.
    cbn [map reference_of default_options referenceIndex Z.to_nat nth].
    cbn [length timed_videos] in Hi.
    destruct i as [| [| i]]; [| | lia]; apply tone_correlates.
  - exists r. split; [exact Hr |]. split; [exact Hlen | exact Hiff].
Defined.

(** C5 (as stated, refuted): with two streams and the valid reference index 0,
    a run whose audio extraction fails returns a [false] flag and no result
    at all. *)
Lemma syncVideos_fault_drops_results :
  (2 <= length two_videos)%nat /\
  (0 <= reference_of default_options < Z.of_nat (length two_videos))%Z /\
  exists r,
    syncVideos (F32 := grid_store)
        (fun t : R => t) (fun t : R => t) (fun _ : unit => true)
      (fun f : unit => Return f) failing_extract "RangeError" 31 ready two_videos
      default_options = Return r /\
    success r = false /\
    results r = [] /\
    ~ length (results r) = length two_videos.
Proof.
  split; [cbn; lia |]. split; [cbn; lia |].
  eexists. split; [reflexivity |]. cbn.
  split; [reflexivity |]. split; [reflexivity | discriminate].
Qed.

(** C6: a call of [syncVideos] with fewer than 2 streams, or with a reference
    index outside [0, streamCount), returns a result with [success = false],
    a non-empty error message and no results; the host is not consulted: the
    same result comes back on every host, FFmpeg state and fuel. *)
Theorem syncVideos_rejects_configuration {F32 : Float32Store}
  (File Date FFmpeg : Type)
  (getTime : Date -> R) (newDate : R -> Date)
  (ffmpeg_loaded : FFmpeg -> bool) (ffmpeg_load : FFmpeg -> outcome FFmpeg)
  (extractAudio : FFmpeg -> File -> ExtractOptions -> outcome (AudioData * FFmpeg))
  (range_error_message : string)
  (fuel : nat) (self : AudioVideoSync FFmpeg)
  (videos : list (VideoInput File Date)) (options : SyncOptions) :
  (length videos < 2)%nat \/
  (reference_of options < 0)%Z \/
  (Z.of_nat (length videos) <= reference_of options)%Z ->
  exists r,
    syncVideos getTime newDate ffmpeg_loaded ffmpeg_load extractAudio
      range_error_message fuel self videos options = Return r /\
    success r = false /\
    results r = [] /\
    (exists m, error r = Some m /\ m <> EmptyString) /\
    (forall (FFmpeg' : Type) (ffmpeg_loaded' : FFmpeg' -> bool)
            (ffmpeg_load' : FFmpeg' -> outcome FFmpeg')
            (extractAudio' : FFmpeg' -> File -> ExtractOptions
                             -> outcome (AudioData * FFmpeg'))
            (message' : string) (fuel' : nat) (self' : AudioVideoSync FFmpeg'),
        syncVideos getTime newDate ffmpeg_loaded' ffmpeg_load' extractAudio'
          message' fuel' self' videos options = Return r).
Proof.
  intros Hbad. unfold syncVideos. fold (reference_of options).
  destruct (Nat.ltb_spec (length videos) 2) as [Hlt | Hge].
  - eexists. split; [reflexivity |]. cbn [success results error].
    repeat split. eexists. split; [reflexivity | discriminate].
  - assert (Hguard : ((reference_of options <? 0)
                      || (Z.of_nat (length videos) <=? reference_of options))%Z = true).
    { apply orb_true_iff.
      destruct Hbad as [H | [H | H]]; [lia | left | right].
      - apply Z.ltb_lt, H.
      - apply Z.leb_le, H. }
    rewrite Hguard.
    eexists. split; [reflexivity |]. cbn [success results error].
    repeat split. eexists. split; [reflexivity | discriminate].
Qed.

Lemma syncVideos_rejects_configuration_witness :
  exists r,
    syncVideos (F32 := grid_store)
        (fun t : R => t) (fun t : R => t) (fun _ : unit => true)
      (fun f : unit => Return f) silent_extract "RangeError" 0 ready
      (firstn 1 two_videos) default_options = Return r /\
    success r = false /\ results r = [].
Proof.
  destruct (syncVideos_rejects_configuration (F32 := grid_store)
      unit R unit (fun t => t) (fun t => t)
              (fun _ => true) (fun f => Return f) silent_extract "RangeError"
              0 ready (firstn 1 two_videos) default_options)
    as [r [Hr [Hs [Hres _]]]].
  - left. cbn. lia.
  - exists r. repeat split; assumption.
Defined.

(** * Further properties of the transform engine *)

(** X1: on a sequence whose length is a power of two both entry points
    return the discrete Fourier transform: bin [j] is
    [sum over i of x[i] * exp(-2 pi i j / n)]. *)
Theorem transform_is_dft (k fuel : nat) (x : list Complex) (r : Float32Array) :
  length x = (2 ^ k)%nat -> length r = (2 ^ k)%nat -> (k < fuel)%nat ->
  exists X R',
    fftComplex fuel x = Return X /\ fft fuel r = Return R' /\
    length X = length x /\ length R' = length r /\
    forall j, (j < 2 ^ k)%nat ->
      nth j X C0 =
        Csum (fun i => Cmul (nth i x C0) (w (length x) (Z.of_nat i * Z.of_nat j)))
             (length x) /\
      nth j R' C0 =
        Csum (fun i => Cmul (nth i r 0, 0) (w (length r) (Z.of_nat i * Z.of_nat j)))
             (length r).
Proof.
  intros Hx Hr Hfuel. exists (dft x), (dft (zero_imag r)).
  split; [apply (fftComplex_fuel_le (S k)); [lia | apply fftComplex_dft, Hx] |].
  split; [apply (fft_dft k); assumption |].
  split; [apply dft_length |].
  split; [rewrite dft_length; apply zero_imag_length |].
  intros j Hj. split.
  - rewrite nth_dft by lia. reflexivity.
  - rewrite nth_dft by (rewrite zero_imag_length; lia).
    unfold dft_bin. rewrite zero_imag_length.
    apply Csum_ext. intros i _. change C0 with (0, 0).
    rewrite nth_zero_imag. reflexivity.
Qed.

Lemma transform_is_dft_witness :
  exists X R',
    fftComplex 2 [(1, 2); (3, 4)] = Return X /\ fft 2 [5; 6] = Return R' /\
    length X = length [(1, 2); (3, 4)] /\ length R' = length [5; 6].
Proof.
  assert (H : (1 < 2)%nat) by lia.
  destruct (transform_is_dft 1 2 [(1, 2); (3, 4)] [5; 6] eq_refl eq_refl H)
    as [X [R' [H1 [H2 [H3 [H4 _]]]]]].
  exists X, R'. repeat split; assumption.
Defined.

Lemma ifft_rejects (fuel : nat) (x : list Complex) :
  (0 < length x)%nat -> (Z.of_nat (length x) < 2 ^ 31)%Z ->
  (forall k, length x <> 2 ^ k)%nat ->
  ifft (S fuel) x = Throw (Error fft_length_message).
Proof.
  intros Hpos Hbound Hnp. unfold ifft.
  rewrite fftComplex_rejects; rewrite ?length_map; try assumption. reflexivity.
Qed.

(** X2: on a sequence whose length is positive, below [2^31] and not a power
    of two, [fft], [fftComplex] and [ifft] throw the length error at the first
    call, with any fuel to spend. *)
Theorem transform_rejects_other_lengths (fuel : nat) (x : list Complex) :
  (0 < length x)%nat -> (Z.of_nat (length x) < 2 ^ 31)%Z ->
  (forall k, length x <> 2 ^ k)%nat ->
  fftComplex (S fuel) x = Throw (Error fft_length_message) /\
  ifft (S fuel) x = Throw (Error fft_length_message) /\
  fft (S fuel) (map fst x) = Throw (Error fft_length_message).
Proof.
  intros Hpos Hbound Hnp. split; [apply fftComplex_rejects; assumption |].
  split; [apply ifft_rejects; assumption |].
  apply fft_rejects; rewrite length_map; assumption.
Qed.

Lemma three_is_no_power_of_two (k : nat) : (3 <> 2 ^ k)%nat.
Proof.
  destruct k as [| [| k]]; cbn [Nat.pow]; lia.
Qed.

Lemma transform_rejects_other_lengths_witness :
  fftComplex 1 [(1, 0); (2, 0); (3, 0)] = Throw (Error fft_length_message) /\
  ifft 1 [(1, 0); (2, 0); (3, 0)] = Throw (Error fft_length_message) /\
  fft 1 (map fst [(1, 0); (2, 0); (3, 0)]) = Throw (Error fft_length_message).
Proof.
  apply (transform_rejects_other_lengths 0 [(1, 0); (2, 0); (3, 0)]).
  - cbn. lia.
  - cbn. lia.
  - intros k. cbn [length]. apply three_is_no_power_of_two.
Defined.

Lemma Cscale_Cmul (s : R) (c : Complex) : Cscale s c = Cmul (s, 0) c.
Proof. cpx. Qed.

Lemma dft_bin_scaled (s : R) (y : list Complex) (l : nat) :
  dft_bin (map (fun c => Cscale s (Cconj c)) y) l =
  Cscale s (dft_bin (map Cconj y) l).
Proof.
  unfold dft_bin. rewrite !length_map, Cscale_Cmul, <- Csum_scale.
  apply Csum_ext. intros i Hi.
  rewrite (nth_map_in _ y i C0 C0), (nth_map_in Cconj y i C0 C0) by exact Hi.
  cpx.
Qed.

Lemma ifft_value (k : nat) (x : list Complex) :
  length x = (2 ^ k)%nat ->
  ifft (S k) x =
  Return (map (fun c => Cscale (/ INR (length x)) (Cconj c)) (dft (map Cconj x))).
Proof.
  intros Hlen. unfold ifft.
  change (map (fun c : Complex => (fst c, - snd c)) x) with (map Cconj x).
  rewrite fftComplex_dft by (rewrite length_map; exact Hlen).
  cbn [bind]. apply (f_equal (@Return (list Complex))).
  apply map_ext. intros c. unfold Cscale, Cconj, Rdiv. cbn [fst snd].
  f_equal; ring.
Qed.

Lemma dft_ifft_value (k : nat) (x : list Complex) :
  length x = (2 ^ k)%nat ->
  dft (map (fun c => Cscale (/ INR (length x)) (Cconj c)) (dft (map Cconj x))) = x.
Proof.
  intros Hlen.
  assert (Hn : length x <> 0%nat).
  { rewrite Hlen. apply Nat.pow_nonzero. discriminate. }
  assert (HINR : INR (length x) <> 0) by (apply not_0_INR; exact Hn).
  apply (nth_ext _ _ C0 C0).
  - rewrite dft_length, length_map, dft_length, length_map. reflexivity.
  - intros l Hl. rewrite dft_length, length_map, dft_length, length_map in Hl.
    rewrite nth_dft by (rewrite length_map, dft_length, length_map; exact Hl).
    rewrite dft_bin_scaled.
    pose proof (dft_conj_dft (map Cconj x) l) as H.
    rewrite length_map in H. rewrite (H Hl).
    rewrite (nth_map_in Cconj x l C0 C0) by exact Hl.
    destruct (nth l x C0) as [re im]. unfold Cscale, Cconj. cbn [fst snd].
    f_equal; field; exact HINR.
Qed.

(** X3: on a complex sequence whose length is a power of two the two
    transforms undo each other in both orders: [ifft(fftComplex(x)) = x] and
    [fftComplex(ifft(x)) = x]. *)
Theorem transforms_are_mutually_inverse (k fuel : nat) (x : list Complex) :
  length x = (2 ^ k)%nat -> (k < fuel)%nat ->
  (X <- fftComplex fuel x ;; ifft fuel X) = Return x /\
  (Y <- ifft fuel x ;; fftComplex fuel Y) = Return x.
Proof.
  intros Hlen Hfuel. split.
  - rewrite (fftComplex_fuel_le (S k) fuel x (dft x)) by
      (try lia; apply fftComplex_dft, Hlen).
    cbn [bind]. apply (ifft_fuel_le (S k)); [lia | apply ifft_dft, Hlen].
  - rewrite (ifft_fuel_le (S k) fuel x _ ltac:(lia) (ifft_value k x Hlen)).
    cbn [bind].
    apply (fftComplex_fuel_le (S k)); [lia |].
    rewrite fftComplex_dft
      by (rewrite length_map, dft_length, length_map; exact Hlen).
    f_equal. apply (dft_ifft_value k), Hlen.
Qed.

Lemma transforms_are_mutually_inverse_witness :
  (X <- fftComplex 3 [(1, 2); (3, 4); (5, 6); (7, 8)] ;; ifft 3 X)
  = Return [(1, 2); (3, 4); (5, 6); (7, 8)] /\
  (Y <- ifft 3 [(1, 2); (3, 4); (5, 6); (7, 8)] ;; fftComplex 3 Y)
  = Return [(1, 2); (3, 4); (5, 6); (7, 8)].
Proof.
  apply (transforms_are_mutually_inverse 2 3); [reflexivity | lia].
Defined.

Lemma dft_Caxpy (c : Complex) (x y : list Complex) :
  length y = length x -> dft (Caxpy c x y) = Caxpy c (dft x) (dft y).
Proof.
  intros Hy.
  assert (Hlen : length (Caxpy c x y) = length x)
    by (unfold Caxpy; rewrite length_map, length_seq; reflexivity).
  unfold dft at 1. rewrite Hlen. unfold Caxpy at 2. rewrite dft_length.
  apply map_ext_in. intros j Hj. apply in_seq in Hj.
  rewrite !nth_dft by lia.
  unfold dft_bin. rewrite Hlen, Hy, <- Csum_scale, <- Csum_add.
  apply Csum_ext. intros i Hi.
  unfold Caxpy. rewrite nth_map_seq by exact Hi. cpx.
Qed.

(** X4: the transform is linear: on sequences [x] and [y] of the same
    power-of-two length, [fftComplex(c * x + y) = c * fftComplex(x) +
    fftComplex(y)], entry by entry. *)
Theorem fftComplex_is_linear (k fuel : nat) (c : Complex) (x y : list Complex) :
  length x = (2 ^ k)%nat -> length y = (2 ^ k)%nat -> (k < fuel)%nat ->
  exists X Y,
    fftComplex fuel x = Return X /\ fftComplex fuel y = Return Y /\
    fftComplex fuel (Caxpy c x y) = Return (Caxpy c X Y).
Proof.
  intros Hx Hy Hfuel. exists (dft x), (dft y).
  assert (Hrun : forall z, length z = (2 ^ k)%nat -> fftComplex fuel z = Return (dft z)).
  { intros z Hz. apply (fftComplex_fuel_le (S k)); [lia | apply fftComplex_dft, Hz]. }
  split; [apply Hrun, Hx |]. split; [apply Hrun, Hy |].
  rewrite Hrun by (unfold Caxpy; rewrite length_map, length_seq; exact Hx).
  f_equal. apply dft_Caxpy. congruence.
Qed.

Lemma fftComplex_is_linear_witness :
  exists X Y,
    fftComplex 2 [(1, 0); (0, 1)] = Return X /\
    fftComplex 2 [(2, 0); (3, 0)] = Return Y /\
    fftComplex 2 (Caxpy (0, 1) [(1, 0); (0, 1)] [(2, 0); (3, 0)])
    = Return (Caxpy (0, 1) X Y).
Proof.
  apply (fftComplex_is_linear 1 2); [reflexivity | reflexivity | lia].
Defined.

Lemma Rsum_Csum_fst (f : nat -> Complex) (n : nat) :
  fst (Csum f n) = Rsum (fun i => fst (f i)) n.
Proof.
  induction n as [| n IH]; [reflexivity |].
  cbn [Csum Rsum]. rewrite <- IH. reflexivity.
Qed.

Lemma Rsum_scale (c : R) (f : nat -> R) (n : nat) :
  Rsum (fun i => c * f i) n = c * Rsum f n.
Proof.
  induction n as [| n IH]; cbn [Rsum]; [ring | rewrite IH; ring].
Qed.

Lemma dft_parseval (x : list Complex) :
  length x <> 0%nat ->
  Rsum (fun k => Cnorm2 (dft_bin x k)) (length x) =
  INR (length x) * Rsum (fun j => Cnorm2 (nth j x C0)) (length x).
Proof.
  intros Hn. set (n := length x) in *.
  assert (Hnorm : forall c, Cnorm2 c = fst (Cmul c (Cconj c))) by (intros; unfold Cnorm2; cpx; ring).
  rewrite (Rsum_ext _ (fun k => fst (Cmul (dft_bin x k) (Cconj (dft_bin x k)))))
    by (intros; apply Hnorm).
  rewrite <- Rsum_Csum_fst.
  (* exchange the two sums and invert the transform *)
  rewrite (Csum_ext _ (fun k => Csum (fun j =>
             Cmul (Cconj (nth j x C0))
                  (Cmul (dft_bin x k) (w n (- (Z.of_nat k * Z.of_nat j))))) n) n).
  2:{ intros k _. unfold dft_bin at 2. fold n.
      rewrite Cconj_Csum, <- Csum_scale. apply Csum_ext. intros j _.
      rewrite Cconj_mul, <- w_opp.
      replace (- (Z.of_nat j * Z.of_nat k))%Z with (- (Z.of_nat k * Z.of_nat j))%Z
        by lia.
      cpx. }
  rewrite Csum_swap.
  rewrite (Csum_ext _ (fun j =>
             Cmul (Cconj (nth j x C0)) (Cscale (INR n) (nth j x C0))) n).
  2:{ intros j Hj. rewrite Csum_scale. f_equal. apply (dft_inversion x j Hj). }
  rewrite Rsum_Csum_fst, <- Rsum_scale.
  apply Rsum_ext. intros j _. unfold Cnorm2. cpx. ring.
Qed.

Lemma Cnorm2_real_sum (x : list R) (n : nat) :
  (length x <= n)%nat ->
  Rsum (fun j => Cnorm2 (nth j (zero_imag x) C0)) n = energy x.
Proof.
  intros Hle. rewrite <- (energy_Rsum x n Hle).
  apply Rsum_ext. intros j _. change C0 with (0, 0).
  rewrite nth_zero_imag. unfold Cnorm2. cbn [fst snd]. ring.
Qed.

(** X5 (Parseval): the spectrum that [fft] returns for a real sequence of
    power-of-two length [n] carries [n] times the energy (sum of squares)
    that [calculateConfidence] computes for the sequence. *)
Theorem fft_preserves_energy (k fuel : nat) (x : Float32Array) :
  length x = (2 ^ k)%nat -> (k < fuel)%nat ->
  exists X,
    fft fuel x = Return X /\
    Rsum (fun j => Cnorm2 (nth j X C0)) (length x) = INR (length x) * energy x.
Proof.
  intros Hlen Hfuel. exists (dft (zero_imag x)).
  split; [apply (fft_dft k); assumption |].
  assert (Hn : length (zero_imag x) <> 0%nat).
  { rewrite zero_imag_length, Hlen. apply Nat.pow_nonzero. discriminate. }
  pose proof (dft_parseval (zero_imag x) Hn) as H.
  rewrite zero_imag_length in H.
  rewrite (Rsum_ext _ (fun j => Cnorm2 (dft_bin (zero_imag x) j))).
  - rewrite H. f_equal. apply Cnorm2_real_sum. lia.
  - intros j Hj. rewrite nth_dft by (rewrite zero_imag_length; exact Hj).
    reflexivity.
Qed.

Lemma fft_preserves_energy_witness :
  exists X,
    fft 3 [1; 2; 3; 4] = Return X /\
    Rsum (fun j => Cnorm2 (nth j X C0)) (length [1; 2; 3; 4])
    = INR (length [1; 2; 3; 4]) * energy [1; 2; 3; 4].
Proof.
  apply (fft_preserves_energy 2 3); [reflexivity | lia].
Defined.

(** * Further properties of the cross-correlation *)

Lemma circular_correlation_unpadded (a b : list R) (n i : nat) :
  (length a <= n)%nat -> (length b <= n)%nat ->
  circular_correlation (zero_pad a n) (zero_pad b n) i =
  Rsum (fun p => nth ((p + i) mod n) a 0 * nth p b 0) (length b).
Proof.
  intros Ha Hb. unfold circular_correlation.
  rewrite (zero_pad_length a n Ha).
  rewrite (Rsum_ext _ (fun p => nth ((p + i) mod n) a 0 * nth p b 0))
    by (intros; rewrite !nth_zero_pad; reflexivity).
  apply Rsum_tail_zero; [exact Hb |].
  intros p Hp. rewrite (nth_overflow b) by exact Hp. ring.
Qed.

Lemma sample_at_of_nat (a : list R) (m : nat) : sample_at a (Z.of_nat m) = nth m a 0.
Proof.
  unfold sample_at. destruct (Z.ltb_spec (Z.of_nat m) 0); [lia |].
  rewrite Nat2Z.id. reflexivity.
Qed.

Lemma sample_at_outside (a : list R) (k : Z) :
  (k < 0 \/ Z.of_nat (length a) <= k)%Z -> sample_at a k = 0.
Proof.
  intros H. unfold sample_at. destruct (Z.ltb_spec k 0); [reflexivity |].
  apply nth_overflow. lia.
Qed.

(** Zero padding to [n >= len(a) + len(b) - 1] keeps the two ends of the
    circular correlation apart: no product wraps around. *)
Lemma circular_is_linear (a b : list R) (n i : nat) :
  (length a + length b <= n + 1)%nat ->
  (length a <= n)%nat -> (length b <= n)%nat -> (i < n)%nat ->
  circular_correlation (zero_pad a n) (zero_pad b n) i =
  linear_correlation a b
    (if (i + length b <=? n)%nat then Z.of_nat i else Z.of_nat i - Z.of_nat n).
Proof.
  intros Hsum Ha Hb Hi.
  rewrite circular_correlation_unpadded by assumption.
  unfold linear_correlation. apply Rsum_ext. intros p Hp. f_equal.
  destruct (Nat.leb_spec (i + length b) n) as [Hlow | Hhigh].
  - rewrite Nat.mod_small by lia.
    rewrite <- Nat2Z.inj_add. symmetry. apply sample_at_of_nat.
  - destruct (Nat.lt_ge_cases (p + i) n) as [Hlt | Hge].
    + rewrite Nat.mod_small by exact Hlt.
      rewrite nth_overflow by lia.
      symmetry. apply sample_at_outside. lia.
    + replace ((p + i) mod n)%nat with (p + i - n)%nat.
      * replace (Z.of_nat p + (Z.of_nat i - Z.of_nat n))%Z
          with (Z.of_nat (p + i - n)) by lia.
        symmetry. apply sample_at_of_nat.
      * apply (Nat.mod_unique (p + i) n 1); lia.
Qed.

Lemma crossCorrelate_run {F32 : Float32Store}
  (fuel : nat) (a b : Float32Array) :
  a <> [] -> b <> [] ->
  (Z.of_nat (length a) + Z.of_nat (length b) - 1 <= 2 ^ 30)%Z ->
  (30 < fuel)%nat ->
  exists k,
    (length a + length b <= 2 ^ k + 1)%nat /\
    (length a <= 2 ^ k)%nat /\ (length b <= 2 ^ k)%nat /\
    crossCorrelate fuel a b =
    Return (map (fun i => fround (circular_correlation (zero_pad a (2 ^ k))
       (zero_pad b (2 ^ k)) i))
                (seq 0 (2 ^ k))).
Proof.
  intros Hna Hnb Hsmall Hfuel.
  assert (Hla : (0 < length a)%nat) by (destruct a; [congruence | simpl; lia]).
  assert (Hlb : (0 < length b)%nat) by (destruct b; [congruence | simpl; lia]).
  set (N := (Z.of_nat (length a) + Z.of_nat (length b) - 1)%Z) in *.
  pose proof (ceil_log2_covers N) as Hcov.
  pose proof (nextPowerOfTwo_small N Hsmall) as Hnext.
  destruct (crossCorrelate_returns a b) as [k [Hk [Hpow Hrun]]]; fold N;
    try (rewrite Hnext; lia); try exact Hsmall.
  fold N in Hpow. rewrite Hnext in Hpow.
  exists k. repeat split; try lia. apply Hrun. lia.
Qed.

(** X6: for non-empty [a] and [b] with [len(a) + len(b) - 1 <= 2^30],
    [crossCorrelate] returns the linear cross-correlation with no wrap-around,
    as the [Float32Array] stores it: entry [i] of the [N] entries is the
    binary32 rounding of [sum over p of a[p + i] * b[p]] for
    [i <= N - len(b)] and of [sum over p of a[p + i - N] * b[p]] above, with
    [a] read as 0 outside its range. *)
Theorem crossCorrelate_is_linear_correlation {F32 : Float32Store}
  (fuel : nat) (a b : Float32Array) :
  a <> [] -> b <> [] ->
  (Z.of_nat (length a) + Z.of_nat (length b) - 1 <= 2 ^ 30)%Z ->
  (30 < fuel)%nat ->
  exists correlation,
    crossCorrelate fuel a b = Return correlation /\
    forall i, (i < length correlation)%nat ->
      nth i correlation 0 =
      fround (linear_correlation a b
                (if (i + length b <=? length correlation)%nat then Z.of_nat i
                 else Z.of_nat i - Z.of_nat (length correlation))).
Proof.
  intros Hna Hnb Hsmall Hfuel.
  destruct (crossCorrelate_run fuel a b Hna Hnb Hsmall Hfuel)
    as [k [Hsum [Ha [Hb Hrun]]]].
  eexists. split; [exact Hrun |].
  rewrite length_map, length_seq. intros i Hi.
  rewrite nth_map_seq by exact Hi. f_equal.
  apply circular_is_linear; assumption.
Qed.

Lemma crossCorrelate_is_linear_correlation_witness :
  exists correlation,
    crossCorrelate (F32 := grid_store)
        31 [1; 2; 3] [4; 5] = Return correlation /\
    forall i, (i < length correlation)%nat ->
      nth i correlation 0 =
      grid_round
        (linear_correlation [1; 2; 3] [4; 5]
           (if (i + length [4; 5] <=? length correlation)%nat then Z.of_nat i
            else Z.of_nat i - Z.of_nat (length correlation))).
Proof.
  apply (crossCorrelate_is_linear_correlation (F32 := grid_store)
      31 [1; 2; 3] [4; 5]);
    [discriminate | discriminate | cbn; lia | lia].
Defined.

Lemma Rsum_zero (n : nat) : Rsum (fun _ => 0) n = 0.
Proof.
  induction n as [| n IH]; cbn [Rsum]; [reflexivity | rewrite IH; ring].
Qed.






Lemma circular_correlation_swap (a b : list R) (n i : nat) :
  length a = n -> length b = n -> (i < n)%nat ->
  circular_correlation b a i = circular_correlation a b ((n - i) mod n).
Proof.
  intros Ha Hb Hi. unfold circular_correlation. rewrite Ha, Hb.
  assert (Hn : n <> 0%nat) by lia.
  pose (h := fun q => nth ((q + (n - i) mod n) mod n) a 0 * nth q b 0).
  change (Rsum (fun p => nth ((p + i) mod n) b 0 * nth p a 0) n = Rsum h n).
  rewrite <- (Rsum_rotate h n i Hn).
  apply Rsum_ext. intros p Hp. unfold h.
  rewrite (Nat.add_comm i p), Rmult_comm. f_equal.
  f_equal.
  rewrite Nat.Div0.add_mod_idemp_l, Nat.Div0.add_mod_idemp_r.
  replace (p + i + (n - i))%nat with (p + 1 * n)%nat by lia.
  rewrite Nat.Div0.mod_add. symmetry. apply Nat.mod_small, Hp.
Qed.

(** X8: exchanging the two inputs mirrors the correlation sequence: entry
    [i] of [crossCorrelate(b, a)] is entry [(N - i) mod N] of
    [crossCorrelate(a, b)], so every lag changes sign. *)
Theorem crossCorrelate_swap {F32 : Float32Store}
  (fuel : nat) (a b : Float32Array) :
  a <> [] -> b <> [] ->
  (Z.of_nat (length a) + Z.of_nat (length b) - 1 <= 2 ^ 30)%Z ->
  (30 < fuel)%nat ->
  exists ab ba,
    crossCorrelate fuel a b = Return ab /\
    crossCorrelate fuel b a = Return ba /\
    length ba = length ab /\
    forall i, (i < length ab)%nat ->
      nth i ba 0 = nth ((length ab - i) mod length ab) ab 0.
Proof.
  intros Hna Hnb Hsmall Hfuel.
  destruct (crossCorrelate_run fuel a b Hna Hnb Hsmall Hfuel)
    as [k [Hsum [Ha [Hb Hab]]]].
  destruct (crossCorrelate_run fuel b a Hnb Hna ltac:(lia) Hfuel)
    as [k' [Hsum' [Hb' [Ha' Hba]]]].
  assert (Hk : k' = k).
  { pose proof (crossCorrelate_Return _ _ _ _ Hab) as [_ [_ [_ H1]]].
    pose proof (crossCorrelate_Return _ _ _ _ Hba) as [_ [_ [_ H2]]].
    rewrite length_map, length_seq in H1, H2.
    replace (Z.of_nat (length b) + Z.of_nat (length a) - 1)%Z
      with (Z.of_nat (length a) + Z.of_nat (length b) - 1)%Z in H2 by lia.
    rewrite <- H1 in H2. apply Nat2Z.inj in H2.
    apply (Nat.pow_inj_r 2); [lia | exact H2]. }
  subst k'.
  eexists. eexists. split; [exact Hab |]. split; [exact Hba |].
  rewrite !length_map, !length_seq. split; [reflexivity |].
  intros i Hi.
  assert (Hpow : (2 ^ k <> 0)%nat) by (apply Nat.pow_nonzero; discriminate).
  rewrite !nth_map_seq by (try exact Hi; apply Nat.mod_upper_bound; exact Hpow).
  f_equal.
  apply circular_correlation_swap; try exact Hi; apply zero_pad_length; assumption.
Qed.

Lemma crossCorrelate_swap_witness :
  exists ab ba,
    crossCorrelate (F32 := grid_store) 31 [1; 2; 3] [4; 5] = Return ab /\
    crossCorrelate (F32 := grid_store) 31 [4; 5] [1; 2; 3] = Return ba /\
    length ba = length ab.
Proof.
  destruct (crossCorrelate_swap (F32 := grid_store)
      31 [1; 2; 3] [4; 5]) as [ab [ba [H1 [H2 [H3 _]]]]];
    [discriminate | discriminate | cbn; lia | lia |].
  exists ab, ba. repeat split; assumption.
Defined.

Lemma self_correlation_at_zero (x : list R) (n : nat) :
  (length x <= n)%nat -> n <> 0%nat ->
  circular_correlation (zero_pad x n) (zero_pad x n) 0 = energy x.
Proof.
  intros Hle Hn. rewrite circular_correlation_unpadded by exact Hle.
  rewrite <- energy_Rsum_exact. apply Rsum_ext. intros p Hp.
  rewrite Nat.add_0_r, Nat.mod_small by lia. reflexivity.
Qed.

Lemma sixteen_le_huge : 16 <= 2 ^ 127.
Proof.
  replace 16 with (2 ^ 4) by (simpl; ring).
  apply Rle_pow; [lra | lia].
Qed.

Lemma tiny_le_one : / 2 ^ 126 <= 1.
Proof.
  assert (H : 1 <= 2 ^ 126) by (apply pow_R1_Rle; lra).
  apply Rle_trans with (/ 1); [| rewrite Rinv_1; lra].
  apply Rinv_le_contravar; lra.
Qed.

(** X9: a non-empty sequence with [2 * len - 1 <= 2^30] correlated with itself
    has its peak at offset 0; the confidence of that peak is the stored
    (binary32) energy over the energy: 0 when the sequence is all zero, and
    within [2^-24] of 1 when the energy is in the normal range of binary32
    (from [2^-126] to [2^127]). *)
Theorem self_correlation_peaks_at_zero {F32 : Float32Store}
  (fuel : nat) (x : Float32Array) :
  x <> [] -> (2 * Z.of_nat (length x) - 1 <= 2 ^ 30)%Z -> (30 < fuel)%nat ->
  exists correlation,
    crossCorrelate fuel x x = Return correlation /\
    findPeakOffset correlation (length x) = 0%Z /\
    calculateConfidence x x correlation 0 =
      Some (if Req_dec_T (energy x) 0 then 0 else fround (energy x) / energy x) /\
    (/ 2 ^ 126 <= energy x <= 2 ^ 127 ->
     exists c, calculateConfidence x x correlation 0 = Some c /\
               Rabs (c - 1) <= / 2 ^ 24).
Proof.
  intros Hne Hsmall Hfuel.
  destruct (crossCorrelate_run fuel x x Hne Hne ltac:(lia) Hfuel)
    as [k [_ [Hle [_ Hrun]]]].
  eexists. split; [exact Hrun |].
  set (corr := map (fun i => fround (circular_correlation (zero_pad x (2 ^ k))
       (zero_pad x (2 ^ k)) i))
                   (seq 0 (2 ^ k))).
  assert (Hpow : (2 ^ k <> 0)%nat) by (apply Nat.pow_nonzero; discriminate).
  assert (Hlen : length corr = (2 ^ k)%nat)
    by (unfold corr; rewrite length_map, length_seq; reflexivity).
  assert (H0 : nth 0 corr 0 = fround (energy x)).
  { unfold corr. rewrite nth_map_seq by lia. f_equal.
    apply self_correlation_at_zero; assumption. }
  pose proof (energy_nonneg x) as He.
  assert (Hsqrt : sqrt (energy x * energy x) = energy x) by (apply sqrt_square, He).
  assert (Hconf : calculateConfidence x x corr 0 =
                  Some (if Req_dec_T (energy x) 0 then 0
                        else fround (energy x) / energy x)).
  { unfold calculateConfidence.
    change (at_index corr (if (0 <? 0)%Z then (Z.of_nat (length corr) + 0)%Z else 0%Z))
      with (nth_error corr 0).
    rewrite (nth_error_nth' corr 0) by lia. rewrite H0, Hsqrt.
    destruct (Req_dec_T (energy x) 0) as [Hz | Hnz]; [reflexivity |].
    rewrite Rabs_pos_eq by (apply fround_nonneg, He). reflexivity. }
  split; [| split; [exact Hconf |]].
  - rewrite (findPeakOffset_at corr (length x) 0).
    + unfold lag. cbn [Nat.mul]. destruct (Nat.ltb_spec (length corr) 0); [lia | reflexivity].
    + split; [lia |]. split; [intros j Hj; lia |].
      intros j Hj. rewrite H0. rewrite Hlen in Hj.
      unfold corr. rewrite nth_map_seq by exact Hj.
      apply fround_monotone.
      pose proof (circular_correlation_bound x x (2 ^ k) j Hpow Hle Hle) as Hb.
      rewrite Hsqrt in Hb.
      pose proof (Rle_abs (circular_correlation (zero_pad x (2 ^ k))
                             (zero_pad x (2 ^ k)) j)). lra.
  - intros Hnormal. rewrite Hconf.
    assert (H126 : 0 < / 2 ^ 126) by (apply Rinv_0_lt_compat, pow_lt; lra).
    destruct (Req_dec_T (energy x) 0) as [Hz | Hnz]; [lra |].
    eexists. split; [reflexivity |].
    pose proof (fround_near (energy x) Hnormal) as [Hlow Hhigh].
    assert (Hpos : 0 < energy x) by lra.
    replace (fround (energy x) / energy x - 1)
      with ((fround (energy x) - energy x) / energy x) by (field; exact Hnz).
    apply Rabs_le. split.
    + apply (Rmult_le_reg_r (energy x)); [exact Hpos |].
      unfold Rdiv. rewrite Rmult_assoc, Rinv_l by exact Hnz. lra.
    + apply (Rmult_le_reg_r (energy x)); [exact Hpos |].
      unfold Rdiv. rewrite Rmult_assoc, Rinv_l by exact Hnz. lra.
Qed.

Lemma self_correlation_peaks_at_zero_witness :
  exists correlation c,
    crossCorrelate (F32 := grid_store)
        31 [1; 2; 3] [1; 2; 3] = Return correlation /\
    findPeakOffset correlation (length [1; 2; 3]) = 0%Z /\
    calculateConfidence [1; 2; 3] [1; 2; 3] correlation 0 = Some c /\
    Rabs (c - 1) <= / 2 ^ 24.
Proof.
  destruct (self_correlation_peaks_at_zero (F32 := grid_store) 31 [1; 2; 3])
    as [correlation [H1 [H2 [_ H3]]]]; [discriminate | cbn; lia | lia |].
  destruct H3 as [c [Hc Hnear]].
  { pose proof tiny_le_one. pose proof sixteen_le_huge.
    unfold energy. cbn [fold_left]. lra. }
  exists correlation, c. repeat split; assumption.
Defined.

(** X10: on a correlation sequence that [crossCorrelate(a, b)] returned, a
    number that [calculateConfidence] returns, whatever offset it is asked
    about, is not negative and exceeds 1 by no more than the binary32
    rounding of a stored correlation value: times the norm
    [sqrt(energyA * energyB)] it is at most the stored norm, so it is at most
    [1 + 2^-24] when the norm is in the normal range of binary32 (from
    [2^-126] to [2^127]). *)
Theorem confidence_is_barely_above_one {F32 : Float32Store} (fuel : nat)
  (a b correlation : Float32Array) (offset : Z) (c : R) :
  crossCorrelate fuel a b = Return correlation ->
  calculateConfidence a b correlation offset = Some c ->
  0 <= c /\
  c * sqrt (energy a * energy b) <= fround (sqrt (energy a * energy b)) /\
  (/ 2 ^ 126 <= sqrt (energy a * energy b) <= 2 ^ 127 -> c <= 1 + / 2 ^ 24).
Proof.
  intros Hrun Hc.
  pose proof (sqrt_pos (energy a * energy b)) as Hpos.
  unfold calculateConfidence in Hc.
  destruct (Req_dec_T (sqrt (energy a * energy b)) 0) as [Hz | Hnz].
  - injection Hc as <-. rewrite Hz, fround_0.
    assert (H126 : 0 < / 2 ^ 126) by (apply Rinv_0_lt_compat, pow_lt; lra).
    split; [lra |]. split; lra.
  - set (index := (if (offset <? 0)%Z then Z.of_nat (length correlation) + offset
                   else offset)%Z) in *.
    destruct (at_index correlation index) as [v |] eqn:Ev; [| discriminate].
    injection Hc as <-.
    assert (Hbound : Rabs v <= fround (sqrt (energy a * energy b))).
    { unfold at_index in Ev. destruct (index <? 0)%Z; [discriminate |].
      pose proof (nth_error_Some correlation (Z.to_nat index)) as Hin.
      rewrite Ev in Hin. assert (Hlt : (Z.to_nat index < length correlation)%nat)
        by (apply Hin; discriminate).
      rewrite (nth_error_nth' correlation 0 Hlt) in Ev. injection Ev as <-.
      apply (stored_peak_bound fuel); assumption. }
    assert (Hs : 0 < sqrt (energy a * energy b)) by lra.
    pose proof (Rabs_pos v) as Habs.
    assert (Hscaled : Rabs v / sqrt (energy a * energy b) * sqrt (energy a * energy b)
                      = Rabs v) by (field; exact Hnz).
    split; [| split].
    + apply Rmult_le_pos; [exact Habs |]. apply Rlt_le, Rinv_0_lt_compat, Hs.
    + rewrite Hscaled. exact Hbound.
    + intros Hnormal.
      pose proof (fround_near _ Hnormal) as [_ Hhigh].
      apply (Rmult_le_reg_r (sqrt (energy a * energy b))); [exact Hs |].
      rewrite Hscaled. lra.
Qed.

Lemma confidence_is_barely_above_one_witness :
  exists correlation v,
    crossCorrelate (F32 := grid_store) 31 [1; 2] [2; 1] = Return correlation /\
    nth_error correlation 1 = Some v /\
    calculateConfidence [1; 2] [2; 1] correlation 1 = Some (Rabs v / 5) /\
    0 <= Rabs v / 5 <= 1 + / 2 ^ 24.
Proof.
  destruct (crossCorrelate_run (F32 := grid_store) 31 [1; 2] [2; 1])
    as [k [_ [_ [_ Hrun]]]]; [discriminate | discriminate | cbn; lia | lia |].
  set (correlation := map _ _) in Hrun.
  assert (Hlen : (1 < length correlation)%nat).
  { unfold correlation. rewrite length_map, length_seq.
    destruct k as [| k]; [| rewrite Nat.pow_succ_r'; pose proof (Nat.pow_nonzero 2 k); lia].
    pose proof (crossCorrelate_Return _ _ _ _ Hrun) as [_ [_ [_ H]]].
    unfold correlation in H. rewrite length_map, length_seq in H.
    vm_compute in H. discriminate H. }
  destruct (nth_error correlation 1) as [v |] eqn:Ev;
    [| apply nth_error_None in Ev; lia].
  assert (Hnorm : sqrt (energy [1; 2] * energy [2; 1]) = 5).
  { unfold energy. cbn [fold_left].
    replace ((0 + 1 * 1 + 2 * 2) * (0 + 2 * 2 + 1 * 1)) with (5 * 5) by ring.
    apply sqrt_square. lra. }
  assert (Hc : calculateConfidence [1; 2] [2; 1] correlation 1 = Some (Rabs v / 5)).
  { unfold calculateConfidence. rewrite Hnorm.
    change (at_index correlation (if (1 <? 0)%Z then (Z.of_nat (length correlation) + 1)%Z else 1%Z))
      with (nth_error correlation 1).
    rewrite Ev. destruct (Req_dec_T 5 0) as [H | _]; [lra | reflexivity]. }
  destruct (confidence_is_barely_above_one (F32 := grid_store) 31 [1; 2] [2; 1]
              correlation 1 (Rabs v / 5) Hrun Hc) as [H0 [_ H1]].
  exists correlation, v. split; [exact Hrun |]. split; [exact Ev |].
  split; [exact Hc |]. split; [exact H0 |].
  apply H1. rewrite Hnorm. pose proof tiny_le_one. pose proof sixteen_le_huge. lra.
Defined.

(** X11: on a non-empty correlation sequence of length [N] the offset [d]
    that [findPeakOffset] returns satisfies [-N/2 < d <= N/2], and the
    circular index that [calculateConfidence] derives from it ([N + d] when
    [d] is negative) reads a greatest value of the sequence. *)
Theorem findPeakOffset_reads_back (correlation : Float32Array) (signalBLength : nat) :
  correlation <> [] ->
  let d := findPeakOffset correlation signalBLength in
  let N := Z.of_nat (length correlation) in
  (- N < 2 * d <= N)%Z /\
  exists m,
    at_index correlation (if (d <? 0)%Z then N + d else d)%Z = Some m /\
    forall j, (j < length correlation)%nat -> nth j correlation 0 <= m.
Proof.
  intros Hne d N.
  pose proof (peak_scan_first_max correlation Hne) as [Hi [_ Hall]].
  split.
  - unfold d. rewrite findPeakOffset_lag. unfold lag, N.
    destruct (Nat.ltb_spec (length correlation) (2 * peak_scan correlation 0 None 0));
      lia.
  - eexists. split; [apply (peak_lookup correlation signalBLength Hne) |].
    exact Hall.
Qed.

Lemma findPeakOffset_reads_back_witness :
  let d := findPeakOffset [1; 5; 2; 5] 4 in
  let N := Z.of_nat (length [1; 5; 2; 5]) in
  (- N < 2 * d <= N)%Z.
Proof.
  apply (findPeakOffset_reads_back [1; 5; 2; 5] 4). discriminate.
Defined.

(** X12: [nextPowerOfTwo(n)] is 1 for [n <= 0]; for [1 <= n <= 2^30] it is
    the least power of two that is at least [n]; for [n > 2^30] the 32-bit
    shift wraps and the result is below [n]. *)
Theorem nextPowerOfTwo_range (n : Z) :
  ((n <= 0)%Z -> nextPowerOfTwo n = 1%Z) /\
  ((1 <= n <= 2 ^ 30)%Z ->
   exists k, (0 <= k <= 30)%Z /\ nextPowerOfTwo n = (2 ^ k)%Z /\
             (n <= 2 ^ k < 2 * n)%Z) /\
  ((2 ^ 30 < n)%Z -> (nextPowerOfTwo n < n)%Z).
Proof.
  split; [| split].
  - intros H. unfold nextPowerOfTwo, ceil_log2.
    destruct (Z.leb_spec n 0); [reflexivity | lia].
  - intros [Hlo Hhi]. exists (ceil_log2 n).
    pose proof (ceil_log2_nonneg n). pose proof (ceil_log2_bound n Hhi).
    split; [lia |]. split; [apply nextPowerOfTwo_small, Hhi |].
    split; [apply ceil_log2_covers |].
    unfold ceil_log2. destruct (Z.leb_spec n 0); [lia |].
    destruct (Z.eq_dec n 1) as [-> | Hne]; [reflexivity |].
    pose proof (Z.log2_up_spec n ltac:(lia)) as [Hprev _].
    assert (Hpos : (0 < Z.log2_up n)%Z) by (apply Z.log2_up_pos; lia).
    replace (Z.log2_up n) with (Z.succ (Z.pred (Z.log2_up n))) at 1 by lia.
    rewrite Z.pow_succ_r by lia. lia.
  - intros H. unfold nextPowerOfTwo.
    destruct (shl_1_cases (ceil_log2 n)) as [[E _] | [s [Hs [_ E]]]]; rewrite E.
    + lia.
    + assert (2 ^ s <= 2 ^ 30)%Z by (apply Z.pow_le_mono_r; lia). lia.
Qed.

(** X13: when [len(a) + len(b) - 1] exceeds [2^30], [crossCorrelate] returns
    no sequence; up to [2^31] the wrapped length [-2^31] makes the typed-array
    constructor throw a [RangeError]. *)
Theorem crossCorrelate_size_limit {F32 : Float32Store}
  (fuel : nat) (a b : Float32Array) :
  (2 ^ 30 < Z.of_nat (length a) + Z.of_nat (length b) - 1)%Z ->
  (forall r, crossCorrelate fuel a b <> Return r) /\
  ((Z.of_nat (length a) + Z.of_nat (length b) - 1 <= 2 ^ 31)%Z ->
   crossCorrelate fuel a b = Throw RangeError).
Proof.
  intros Hbig. split.
  - intros r H. apply crossCorrelate_Return in H. lia.
  - intros Hle. apply crossCorrelate_overflow. lia.
Qed.

Lemma crossCorrelate_size_limit_witness :
  crossCorrelate (F32 := grid_store)
      31 (repeat 0 (2 ^ 29 + 1)) (repeat 0 (2 ^ 29 + 1))
  = Throw RangeError.
Proof.
  assert (Hlen : Z.of_nat (length (repeat 0 (2 ^ 29 + 1))) = (2 ^ 29 + 1)%Z).
  { rewrite repeat_length, Nat2Z.inj_add, of_nat_pow2. reflexivity. }
  apply (crossCorrelate_size_limit (F32 := grid_store)
      31 (repeat 0 (2 ^ 29 + 1)) (repeat 0 (2 ^ 29 + 1)));
    rewrite Hlen; lia.
Defined.

Lemma map_zero_seq (n : nat) : map (fun _ : nat => 0) (seq 0 n) = repeat 0 n.
Proof.
  rewrite <- (length_seq n 0) at 2. generalize (seq 0 n). intros l.
  induction l as [| x l IH]; [reflexivity |]. cbn [map length repeat]. f_equal. exact IH.
Qed.

Lemma crossCorrelate_silence {F32 : Float32Store}
  (fuel : nat) (a b : Float32Array) :
  (a = [] \/ b = []) ->
  (Z.of_nat (length a) + Z.of_nat (length b) - 1 <= 2 ^ 30)%Z ->
  (Z.of_nat (length a)
   <= nextPowerOfTwo (Z.of_nat (length a) + Z.of_nat (length b) - 1))%Z ->
  (Z.of_nat (length b)
   <= nextPowerOfTwo (Z.of_nat (length a) + Z.of_nat (length b) - 1))%Z ->
  (30 < fuel)%nat ->
  crossCorrelate fuel a b =
  Return (repeat 0 (Z.to_nat (nextPowerOfTwo
                                (Z.of_nat (length a) + Z.of_nat (length b) - 1)))).
Proof.
  intros Hempty Hsmall Ha Hb Hfuel.
  destruct (crossCorrelate_returns a b Hsmall Ha Hb) as [k [Hk [Hpow Hrun]]].
  rewrite (Hrun fuel ltac:(lia)), <- Hpow, Nat2Z.id, <- map_zero_seq.
  apply (f_equal (@Return (list R))). apply map_ext. intros i.
  rewrite <- Hpow in Ha, Hb.
  rewrite circular_correlation_unpadded by lia.
  rewrite (Rsum_ext _ (fun _ => 0)); [rewrite Rsum_zero; apply fround_0 |].
  intros p _. destruct Hempty as [-> | ->].
  - destruct ((p + i) mod 2 ^ k)%nat; cbn [nth]; ring.
  - destruct p; cbn [nth]; ring.
Qed.

(** X14: with one input empty and the other of [L <= 2^30] samples, the
    target length is [nextPowerOfTwo(L - 1)]; it is too short for the
    non-empty input exactly when [L = 2^j + 1], and then [crossCorrelate]
    throws a [RangeError]; otherwise it returns an all-zero sequence. *)
Theorem crossCorrelate_with_empty_input {F32 : Float32Store}
  (fuel : nat) (a : Float32Array) :
  a <> [] -> (Z.of_nat (length a) <= 2 ^ 30)%Z ->
  let n := nextPowerOfTwo (Z.of_nat (length a) - 1) in
  ((n < Z.of_nat (length a))%Z <-> exists j : nat, length a = (2 ^ j + 1)%nat) /\
  ((n < Z.of_nat (length a))%Z ->
   crossCorrelate fuel a [] = Throw RangeError /\
   crossCorrelate fuel [] a = Throw RangeError) /\
  ((Z.of_nat (length a) <= n)%Z -> (30 < fuel)%nat ->
   crossCorrelate fuel a [] = Return (repeat 0 (Z.to_nat n)) /\
   crossCorrelate fuel [] a = Return (repeat 0 (Z.to_nat n))).
Proof.
  intros Hne Hsmall n.
  assert (Hla : (0 < length a)%nat) by (destruct a; [congruence | simpl; lia]).
  set (N := (Z.of_nat (length a) - 1)%Z) in *.
  assert (Hn : n = (2 ^ ceil_log2 N)%Z)
    by (apply nextPowerOfTwo_small; unfold N; lia).
  pose proof (ceil_log2_covers N) as Hcov.
  pose proof (ceil_log2_nonneg N) as Hc0.
  assert (HNa : (Z.of_nat (length a) + Z.of_nat (length (@nil R)) - 1)%Z = N)
    by (cbn [length]; unfold N; lia).
  assert (HNb : (Z.of_nat (length (@nil R)) + Z.of_nat (length a) - 1)%Z = N)
    by (cbn [length]; unfold N; lia).
  split; [| split].
  - split.
    + intros Hlt. exists (Z.to_nat (ceil_log2 N)).
      apply Nat2Z.inj. rewrite Nat2Z.inj_add, of_nat_pow2, Z2Nat.id by lia.
      unfold N in *. lia.
    + intros [j Hj]. rewrite Hn.
      assert (HN : N = (2 ^ Z.of_nat j)%Z).
      { unfold N. rewrite Hj, Nat2Z.inj_add, of_nat_pow2. lia. }
      assert (Hc : ceil_log2 N = Z.of_nat j).
      { unfold ceil_log2. rewrite HN.
        pose proof (Z.pow_pos_nonneg 2 (Z.of_nat j) ltac:(lia) ltac:(lia)).
        destruct (Z.leb_spec (2 ^ Z.of_nat j) 0); [lia |].
        apply Z.log2_up_pow2. lia. }
      rewrite Hc, <- HN. unfold N. lia.
  - intros Hlt. unfold crossCorrelate. rewrite HNa, HNb. fold n.
    assert (Hpos : (0 <= n)%Z) by (rewrite Hn; apply Z.pow_nonneg; lia).
    assert (Hpad : padToPowerOfTwo a n = Throw RangeError).
    { unfold padToPowerOfTwo.
      destruct (Z.ltb_spec n 0); [reflexivity |].
      destruct (Z.ltb_spec n (Z.of_nat (length a))); [reflexivity | lia]. }
    rewrite Hpad. split; [reflexivity |].
    unfold padToPowerOfTwo at 1. cbn [length].
    destruct (Z.ltb_spec n 0); [lia |].
    destruct (Z.ltb_spec n (Z.of_nat 0)); [lia |]. reflexivity.
  - intros Hle Hfuel. split.
    + rewrite (crossCorrelate_silence fuel a []); rewrite ?HNa; fold n;
        try reflexivity; try (right; reflexivity); try (cbn [length]; lia);
        unfold N; lia.
    + rewrite (crossCorrelate_silence fuel [] a); rewrite ?HNb; fold n;
        try reflexivity; try (left; reflexivity); try (cbn [length]; lia);
        unfold N; lia.
Qed.

Lemma crossCorrelate_with_empty_input_witness :
  crossCorrelate (F32 := grid_store) 31 [1; 2; 3] [] = Throw RangeError /\
  crossCorrelate (F32 := grid_store) 31 [] [1; 2; 3] = Throw RangeError.
Proof.
  apply (crossCorrelate_with_empty_input (F32 := grid_store) 31 [1; 2; 3]);
    [discriminate | cbn; lia | vm_compute; reflexivity].
Defined.

(** * Further properties of the preprocessor *)

Lemma sum_from (l : list R) (acc : R) : fold_left Rplus l acc = acc + sum_of l.
Proof.
  unfold sum_of. revert acc. induction l as [| x l IH]; intros acc; cbn [fold_left].
  - ring.
  - rewrite IH, (IH (0 + x)). ring.
Qed.

Lemma sum_of_cons (x : R) (l : list R) : sum_of (x :: l) = x + sum_of l.
Proof. unfold sum_of at 1. cbn [fold_left]. rewrite sum_from. ring. Qed.

Lemma sum_of_affine (c d : R) (l : list R) :
  sum_of (map (fun x => c * x + d) l) = c * sum_of l + INR (length l) * d.
Proof.
  induction l as [| x l IH]; [unfold sum_of; simpl; ring |].
  cbn [map length]. rewrite !sum_of_cons, IH, S_INR. ring.
Qed.

Lemma maxAbs_from (l : list R) (acc : R) :
  0 <= acc ->
  fold_left (fun m x => Rmax m (Rabs x)) l acc = Rmax acc (maxAbs_of l).
Proof.
  unfold maxAbs_of. revert acc. induction l as [| x l IH]; intros acc Hacc;
    cbn [fold_left].
  - symmetry. apply Rmax_left. exact Hacc.
  - pose proof (Rabs_pos x) as Hx.
    rewrite IH by (apply Rle_trans with acc; [exact Hacc | apply Rmax_l]).
    rewrite (IH (Rmax 0 (Rabs x))) by apply Rmax_l.
    rewrite (Rmax_right 0 (Rabs x)) by exact Hx.
    symmetry. apply Rmax_assoc.
Qed.

Lemma maxAbs_of_cons (x : R) (l : list R) :
  maxAbs_of (x :: l) = Rmax (Rabs x) (maxAbs_of l).
Proof.
  unfold maxAbs_of at 1. cbn [fold_left].
  rewrite maxAbs_from by apply Rmax_l.
  rewrite (Rmax_right 0 (Rabs x)) by apply Rabs_pos. reflexivity.
Qed.

Lemma maxAbs_of_nonneg (l : list R) : 0 <= maxAbs_of l.
Proof.
  induction l as [| x l IH]; [unfold maxAbs_of; simpl; lra |].
  rewrite maxAbs_of_cons. apply Rle_trans with (maxAbs_of l); [exact IH | apply Rmax_r].
Qed.

Lemma maxAbs_of_bounds (l : list R) (x : R) : In x l -> Rabs x <= maxAbs_of l.
Proof.
  induction l as [| y l IH]; intros Hin; [contradiction |].
  rewrite maxAbs_of_cons. destruct Hin as [-> | Hin].
  - apply Rmax_l.
  - apply Rle_trans with (maxAbs_of l); [apply IH, Hin | apply Rmax_r].
Qed.

Lemma maxAbs_of_attained (l : list R) :
  0 < maxAbs_of l -> exists x, In x l /\ Rabs x = maxAbs_of l.
Proof.
  induction l as [| y l IH]; intros Hpos.
  - unfold maxAbs_of in Hpos. simpl in Hpos. lra.
  - rewrite maxAbs_of_cons in Hpos |- *.
    destruct (Rle_dec (Rabs y) (maxAbs_of l)) as [Hle | Hgt].
    + rewrite Rmax_right in Hpos |- * by exact Hle.
      destruct (IH Hpos) as [x [Hin Hx]]. exists x. split; [right; exact Hin | exact Hx].
    + rewrite Rmax_left by lra. exists y. split; [left; reflexivity | reflexivity].
Qed.

Lemma maxAbs_of_scale (c : R) (l : list R) :
  0 <= c -> maxAbs_of (map (fun r => c * r) l) = c * maxAbs_of l.
Proof.
  intros Hc. induction l as [| x l IH]; [unfold maxAbs_of; simpl; ring |].
  cbn [map]. rewrite !maxAbs_of_cons, IH, Rabs_mult, (Rabs_pos_eq c Hc).
  apply RmaxRmult. exact Hc.
Qed.

(** *** In exact arithmetic

    The next properties hold of the arithmetic that the code approximates:
    they are stated for [exact_store], the store that rounds nothing.  With
    binary32 stores they hold of the code up to the rounding of each stored
    sample. *)

(** The two stages of [preprocessAudio], named. *)
Lemma preprocessAudio_stages (samples : Float32Array) :
  let centred := map (fun x => x - sum_of samples / INR (length samples)) samples in
  preprocessAudio (F32 := exact_store) samples =
  if Rlt_dec 0 (maxAbs_of centred)
  then map (fun x => x / maxAbs_of centred) centred
  else centred.
Proof. reflexivity. Qed.

Lemma centred_sum (samples : Float32Array) :
  sum_of (map (fun x => x - sum_of samples / INR (length samples)) samples) = 0.
Proof.
  destruct samples as [| y l]; [reflexivity |].
  set (s := y :: l).
  assert (HINR : INR (length s) <> 0) by (apply not_0_INR; discriminate).
  rewrite (map_ext _ (fun x => 1 * x + - (sum_of s / INR (length s))))
    by (intros; ring).
  rewrite sum_of_affine. field. exact HINR.
Qed.

Lemma sum_of_scale (c : R) (l : list R) : sum_of (map (fun x => x / c) l) = sum_of l / c.
Proof.
  rewrite (map_ext _ (fun x => / c * x + 0)) by (intros; unfold Rdiv; ring).
  rewrite sum_of_affine. unfold Rdiv. ring.
Qed.

(** X15: in exact arithmetic (stores that round nothing), [preprocessAudio]
    keeps the length; when the samples are not all equal its output sums to
    0 (no DC bias), every output sample lies in [-1, 1] and one of them has
    absolute value exactly 1. *)
Theorem preprocessAudio_normalises (samples : Float32Array) (x y : R) :
  In x samples -> In y samples -> x <> y ->
  length (preprocessAudio (F32 := exact_store) samples) = length samples /\
  sum_of (preprocessAudio (F32 := exact_store) samples) = 0 /\
  (forall r, In r (preprocessAudio (F32 := exact_store)
      samples) -> Rabs r <= 1) /\
  (exists r, In r (preprocessAudio (F32 := exact_store) samples) /\ Rabs r = 1).
Proof.
  intros Hx Hy Hne.
  split; [apply preprocessAudio_length |].
  rewrite preprocessAudio_stages. cbv zeta.
  set (mean := sum_of samples / INR (length samples)).
  set (centred := map (fun x => x - mean) samples).
  assert (Hpos : 0 < maxAbs_of centred).
  { assert (Hsome : exists z, In z samples /\ z <> mean).
    { destruct (Req_dec x mean) as [Ex | Ex]; [| exists x; split; assumption].
      exists y. split; [exact Hy | congruence]. }
    destruct Hsome as [z [Hz Hzm]].
    pose proof (maxAbs_of_bounds centred (z - mean)
                  (in_map (fun x => x - mean) samples z Hz)) as Hb.
    assert (0 < Rabs (z - mean)) by (apply Rabs_pos_lt; lra). lra. }
  destruct (Rlt_dec 0 (maxAbs_of centred)) as [_ | Hn]; [| contradiction].
  split; [| split].
  - rewrite sum_of_scale. unfold centred, mean. rewrite centred_sum.
    unfold Rdiv. ring.
  - intros r Hr. apply in_map_iff in Hr. destruct Hr as [c [<- Hc]].
    pose proof (maxAbs_of_bounds centred c Hc) as Hb.
    unfold Rdiv. rewrite Rabs_mult, Rabs_inv, (Rabs_pos_eq (maxAbs_of centred)) by lra.
    apply (Rmult_le_reg_r (maxAbs_of centred)); [exact Hpos |].
    rewrite Rmult_assoc, Rinv_l by lra. lra.
  - destruct (maxAbs_of_attained centred Hpos) as [c [Hc Habs]].
    exists (c / maxAbs_of centred). split.
    + apply (in_map (fun x => x / maxAbs_of centred)), Hc.
    + unfold Rdiv. rewrite Rabs_mult, Rabs_inv, (Rabs_pos_eq (maxAbs_of centred)) by lra.
      rewrite Habs. apply Rinv_r. lra.
Qed.

Lemma preprocessAudio_normalises_witness :
  length (preprocessAudio (F32 := exact_store) [1; 3]) = length [1; 3] /\
  sum_of (preprocessAudio (F32 := exact_store) [1; 3]) = 0.
Proof.
  destruct (preprocessAudio_normalises [1; 3] 1 3) as [H1 [H2 _]].
  - left. reflexivity.
  - right. left. reflexivity.
  - lra.
  - split; assumption.
Defined.

Lemma all_zero_of_maxAbs (l : list R) :
  ~ 0 < maxAbs_of l -> forall r, In r l -> r = 0.
Proof.
  intros Hn r Hr. pose proof (maxAbs_of_bounds l r Hr) as Hb.
  pose proof (Rabs_pos r) as Hp.
  destruct (Req_dec r 0) as [E | E]; [exact E |].
  pose proof (Rabs_pos_lt r E). lra.
Qed.

(** X16: in exact arithmetic (stores that round nothing), [preprocessAudio]
    does not see the recording gain or a constant offset: for [c > 0], the
    samples [c * x + d] are preprocessed to the same sequence as the samples
    [x]. *)
Theorem preprocessAudio_gain_offset_invariant (c d : R) (samples : Float32Array) :
  0 < c ->
  preprocessAudio (F32 := exact_store) (map (fun x => c * x + d) samples)
  = preprocessAudio (F32 := exact_store) samples.
Proof.
  intros Hc. destruct samples as [| y l] eqn:Es.
  - reflexivity.
  - rewrite <- Es. assert (Hn : INR (length samples) <> 0)
      by (apply not_0_INR; rewrite Es; discriminate).
    clear Es.
    rewrite !preprocessAudio_stages. cbv zeta.
    rewrite length_map, sum_of_affine, map_map.
    set (mean := sum_of samples / INR (length samples)).
    set (centred := map (fun x => x - mean) samples).
    assert (Hcentred :
              map (fun x => c * x + d
                            - (c * sum_of samples + INR (length samples) * d)
                              / INR (length samples)) samples
              = map (fun r => c * r) centred).
    { unfold centred. rewrite map_map. apply map_ext. intros x.
      unfold mean. field. exact Hn. }
    rewrite Hcentred, maxAbs_of_scale by lra.
    destruct (Rlt_dec 0 (maxAbs_of centred)) as [Hpos | Hzero].
    + destruct (Rlt_dec 0 (c * maxAbs_of centred)) as [_ | H];
        [| exfalso; apply H, Rmult_lt_0_compat; assumption].
      rewrite map_map. apply map_ext. intros r. field. lra.
    + pose proof (maxAbs_of_nonneg centred) as Hnn.
      assert (Hz : maxAbs_of centred = 0) by lra.
      rewrite Hz, Rmult_0_r.
      destruct (Rlt_dec 0 0) as [H | _]; [lra |].
      rewrite <- (map_id centred) at 2. apply map_ext_in. intros r Hr.
      rewrite (all_zero_of_maxAbs centred Hzero r Hr). ring.
Qed.

Lemma preprocessAudio_gain_offset_invariant_witness :
  preprocessAudio (F32 := exact_store) (map (fun x => 2 * x + 7) [1; 3; 4])
  = preprocessAudio (F32 := exact_store) [1; 3; 4].
Proof.
  apply (preprocessAudio_gain_offset_invariant 2 7 [1; 3; 4]). lra.
Defined.

(** X17: in exact arithmetic (stores that round nothing), [preprocessAudio]
    is idempotent: preprocessing its own output changes nothing. *)
Theorem preprocessAudio_idempotent (samples : Float32Array) :
  preprocessAudio (F32 := exact_store)
    (preprocessAudio (F32 := exact_store) samples)
  = preprocessAudio (F32 := exact_store) samples.
Proof.
  rewrite (preprocessAudio_stages samples). cbv zeta.
  set (mean := sum_of samples / INR (length samples)).
  set (centred := map (fun x => x - mean) samples).
  destruct (Rlt_dec 0 (maxAbs_of centred)) as [Hpos | Hzero].
  - set (out := map (fun x => x / maxAbs_of centred) centred).
    assert (Hsum : sum_of out = 0).
    { unfold out. rewrite sum_of_scale. unfold centred, mean.
      rewrite centred_sum. unfold Rdiv. ring. }
    assert (Hmax : maxAbs_of out = 1).
    { unfold out.
      rewrite (map_ext _ (fun r => / maxAbs_of centred * r))
        by (intros; unfold Rdiv; ring).
      rewrite maxAbs_of_scale by (apply Rlt_le, Rinv_0_lt_compat, Hpos).
      apply Rinv_l. lra. }
    rewrite preprocessAudio_stages. cbv zeta. rewrite Hsum.
    assert (Hid : map (fun x => x - 0 / INR (length out)) out = out).
    { rewrite <- (map_id out) at 2. apply map_ext. intros x. unfold Rdiv. ring. }
    rewrite Hid, Hmax.
    destruct (Rlt_dec 0 1) as [_ | H]; [| lra].
    rewrite <- (map_id out) at 2. apply map_ext. intros x. field.
  - assert (Hrep : centred = repeat 0 (length centred)).
    { apply constant_is_repeat. apply all_zero_of_maxAbs, Hzero. }
    rewrite Hrep. destruct (length centred) as [| n].
    + cbn [repeat]. rewrite preprocessAudio_stages. cbv zeta. cbn [map].
      destruct (Rlt_dec 0 (maxAbs_of [])); reflexivity.
    + apply preprocessAudio_constant. discriminate.
Qed.

(** *** With binary32 stores *)

(** X30: whatever the stores round to, [preprocessAudio] keeps the length,
    every output sample lies in [-1, 1], and unless the output is all zero
    one output sample has absolute value exactly 1. *)
Theorem preprocessAudio_peak_normalised {F32 : Float32Store}
  (samples : Float32Array) :
  length (preprocessAudio samples) = length samples /\
  (forall r, In r (preprocessAudio samples) -> Rabs r <= 1) /\
  ((forall r, In r (preprocessAudio samples) -> r = 0) \/
   (exists r, In r (preprocessAudio samples) /\ Rabs r = 1)).
Proof.
  split; [apply preprocessAudio_length |].
  unfold preprocessAudio.
  set (mean := fold_left Rplus samples 0 / INR (length samples)).
  set (result := map (fun x => fround (x - mean)) samples).
  fold (maxAbs_of result).
  destruct (Rlt_dec 0 (maxAbs_of result)) as [Hpos | Hzero].
  - assert (Hunit : forall x, In x result -> Rabs (x / maxAbs_of result) <= 1).
    { intros x Hx. pose proof (maxAbs_of_bounds result x Hx) as Hb.
      unfold Rdiv. rewrite Rabs_mult, Rabs_inv, (Rabs_pos_eq (maxAbs_of result)) by lra.
      apply (Rmult_le_reg_r (maxAbs_of result)); [exact Hpos |].
      rewrite Rmult_assoc, Rinv_l by lra. lra. }
    split.
    + intros r Hr. apply in_map_iff in Hr. destruct Hr as [x [<- Hx]].
      rewrite <- fround_1. apply fround_Rabs_le, Hunit, Hx.
    + right. destruct (maxAbs_of_attained result Hpos) as [x [Hx Hmax]].
      exists (fround (x / maxAbs_of result)).
      split; [apply in_map_iff; exists x; split; [reflexivity | exact Hx] |].
      rewrite fround_Rabs. unfold Rdiv.
      rewrite Rabs_mult, Rabs_inv, (Rabs_pos_eq (maxAbs_of result)), Hmax by lra.
      rewrite Rinv_r by lra. apply fround_1.
  - pose proof (all_zero_of_maxAbs result Hzero) as Hall.
    split; [| left; exact Hall].
    intros r Hr. rewrite (Hall r Hr), Rabs_R0. lra.
Qed.

(** * Properties of the PCM decoder *)

Lemma byte_range (b : Byte.byte) : (0 <= Z.of_N (Byte.to_N b) <= 255)%Z.
Proof. pose proof (Byte.to_N_bounded b). lia. Qed.

Lemma getInt16_le_range (lo hi : Byte.byte) :
  (-32768 <= getInt16_le lo hi <= 32767)%Z.
Proof.
  unfold getInt16_le. pose proof (byte_range lo). pose proof (byte_range hi).
  destruct (Z.ltb_spec (Z.of_N (Byte.to_N lo) + 256 * Z.of_N (Byte.to_N hi)) 32768);
    lia.
Qed.

Lemma pair_induction {A : Type} (P : list A -> Prop) :
  P [] -> (forall x, P [x]) -> (forall x y l, P l -> P (x :: y :: l)) ->
  forall l, P l.
Proof.
  intros H0 H1 H2.
  assert (H : forall l, P l /\ forall x, P (x :: l)).
  { induction l as [| y l [IHl IHx]]; [split; [exact H0 | exact H1] |].
    split; [apply IHx |]. intros x. apply H2, IHl. }
  intros l. apply H.
Qed.

(** X18: [pcm16ToFloat32] throws a [RangeError] on a byte sequence of odd
    length; on an even length it returns one sample per pair of bytes, sample
    [i] being the little-endian signed 16-bit integer of bytes [2i], [2i + 1]
    divided by 32768, which lies in [-1, 1). *)
Theorem pcm16ToFloat32_decodes (pcmData : list Byte.byte) :
  (Nat.odd (length pcmData) = true -> pcm16ToFloat32 pcmData = Throw RangeError) /\
  (Nat.even (length pcmData) = true ->
   exists out,
     pcm16ToFloat32 pcmData = Return out /\
     length pcmData = (2 * length out)%nat /\
     forall i, (i < length out)%nat ->
       nth i out 0 =
         IZR (getInt16_le (nth (2 * i) pcmData Byte.x00)
                          (nth (2 * i + 1) pcmData Byte.x00)) / 32768 /\
       -1 <= nth i out 0 < 1).
Proof.
  induction pcmData as [| b | lo hi rest [IHodd IHeven]] using pair_induction.
  - split; [discriminate |]. intros _. exists []. split; [reflexivity |].
    split; [reflexivity |]. intros i Hi. simpl in Hi. lia.
  - split; [reflexivity | discriminate].
  - change (Nat.odd (length (lo :: hi :: rest))) with (Nat.odd (length rest)).
    change (Nat.even (length (lo :: hi :: rest))) with (Nat.even (length rest)).
    split.
    + intros Hodd. cbn [pcm16ToFloat32]. rewrite (IHodd Hodd). reflexivity.
    + intros Heven. destruct (IHeven Heven) as [out [Hout [Hlen Hnth]]].
      cbn [pcm16ToFloat32]. rewrite Hout. cbn [bind].
      eexists. split; [reflexivity |].
      split; [cbn [length]; lia |].
      intros i Hi. destruct i as [| i].
      * cbn [nth Nat.mul Nat.add]. split; [reflexivity |].
        pose proof (getInt16_le_range lo hi) as [Hlo Hhi].
        apply IZR_le in Hlo, Hhi. lra.
      * replace (2 * S i)%nat with (S (S (2 * i))) by lia.
        cbn [nth Nat.add length] in *. apply Hnth. lia.
Qed.

Lemma byte_of_Z_value (m : Z) :
  (0 <= m < 256)%Z -> Z.of_N (Byte.to_N (byte_of_Z m)) = m.
Proof.
  intros H. unfold byte_of_Z.
  destruct (Byte.of_N (Z.to_N m)) as [b |] eqn:E.
  - apply Byte.to_of_N in E. rewrite E. lia.
  - apply Byte.of_N_None_iff in E. lia.
Qed.

Lemma getInt16_le_int16_bytes (z : Z) :
  (-32768 <= z <= 32767)%Z ->
  getInt16_le (byte_of_Z (z mod 256)) (byte_of_Z ((z / 256) mod 256)) = z.
Proof.
  intros Hz. unfold getInt16_le.
  rewrite !byte_of_Z_value by (apply Z.mod_pos_bound; lia).
  pose proof (Z.div_mod z 256 ltac:(lia)) as Hdm.
  pose proof (Z.mod_pos_bound z 256 ltac:(lia)) as Hm.
  destruct (Z_le_gt_dec 0 z) as [Hpos | Hneg].
  - assert (Hq : (0 <= z / 256 < 128)%Z)
      by (split; [apply Z.div_pos; lia | apply Z.div_lt_upper_bound; lia]).
    rewrite (Z.mod_small (z / 256)) by lia.
    destruct (Z.ltb_spec (z mod 256 + 256 * (z / 256)) 32768); lia.
  - assert (Hq : (-128 <= z / 256 < 0)%Z)
      by (split; [apply Z.div_le_lower_bound; lia | apply Z.div_lt_upper_bound; lia]).
    assert (Hqm : ((z / 256) mod 256 = z / 256 + 256)%Z).
    { symmetry. apply (Z.mod_unique (z / 256) 256 (-1)); lia. }
    rewrite Hqm.
    destruct (Z.ltb_spec (z mod 256 + 256 * (z / 256 + 256)) 32768); lia.
Qed.

(** X19: decoding undoes the 16-bit little-endian encoding: the bytes of the
    16-bit samples [zs] are decoded by [pcm16ToFloat32] to [z / 32768] for
    each [z], in order. *)
Theorem pcm16ToFloat32_of_encoding (zs : list Z) :
  Forall (fun z => (-32768 <= z <= 32767)%Z) zs ->
  pcm16ToFloat32 (flat_map int16_bytes zs) = Return (map (fun z => IZR z / 32768) zs).
Proof.
  induction 1 as [| z zs Hz _ IH]; [reflexivity |].
  cbn [flat_map int16_bytes app pcm16ToFloat32]. rewrite IH. cbn [bind map].
  rewrite getInt16_le_int16_bytes by exact Hz. reflexivity.
Qed.

Lemma pcm16ToFloat32_of_encoding_witness :
  pcm16ToFloat32 (flat_map int16_bytes [-32768; -1; 0; 1; 32767]%Z)
  = Return (map (fun z => IZR z / 32768) [-32768; -1; 0; 1; 32767]%Z).
Proof.
  apply pcm16ToFloat32_of_encoding.
  repeat constructor; lia.
Defined.

(** * Properties of the resampler *)

Lemma floor_bounds (x : R) : IZR (floor x) <= x < IZR (floor x) + 1.
Proof. unfold floor. pose proof (base_Int_part x). lra. Qed.

Lemma floor_unique (x : R) (z : Z) : IZR z <= x < IZR z + 1 -> floor x = z.
Proof. intros H. unfold floor. symmetry. apply Int_part_spec. lra. Qed.

Lemma floor_nonneg (x : R) : 0 <= x -> (0 <= floor x)%Z.
Proof.
  intros Hx. pose proof (floor_bounds x) as [_ Hhi].
  apply Z.lt_succ_r. apply lt_IZR. rewrite succ_IZR. lra.
Qed.

Lemma floor_lt (x : R) (z : Z) : x < IZR z -> (floor x < z)%Z.
Proof.
  intros Hx. pose proof (floor_bounds x) as [Hlo _].
  apply lt_IZR. lra.
Qed.

(** X20: for different positive rates [downsample] returns
    [floor(len / ratio)] samples, [ratio = fromRate / toRate]; output sample
    [i] is the input sample at index [floor(i * ratio)], which is always
    inside the input. *)
Theorem downsample_reads_in_range (samples : Float32Array) (fromRate toRate : R) :
  0 < fromRate -> 0 < toRate -> fromRate <> toRate ->
  exists out,
    downsample samples fromRate toRate = Return out /\
    Z.of_nat (length out) = floor (INR (length samples) / (fromRate / toRate)) /\
    forall i, (i < length out)%nat ->
      exists j, (j < length samples)%nat /\
                Z.of_nat j = floor (INR i * (fromRate / toRate)) /\
                nth i out 0 = nth j samples 0.
Proof.
  intros Hfrom Hto Hne. unfold downsample.
  destruct (Req_dec_T fromRate toRate) as [E | _]; [contradiction |].
  destruct (Req_dec_T toRate 0) as [E | _]; [lra |].
  destruct (Req_dec_T fromRate 0) as [E | _]; [lra |].
  set (ratio := fromRate / toRate).
  assert (Hratio : 0 < ratio) by (apply Rdiv_lt_0_compat; assumption).
  set (newLength := floor (INR (length samples) / ratio)).
  assert (Hlen0 : 0 <= INR (length samples) / ratio).
  { apply Rmult_le_pos; [apply pos_INR | apply Rlt_le, Rinv_0_lt_compat, Hratio]. }
  pose proof (floor_nonneg _ Hlen0) as Hnn. fold newLength in Hnn.
  destruct (Z.ltb_spec newLength 0) as [Hneg | _]; [lia |].
  eexists. split; [reflexivity |].
  rewrite length_map, length_seq. split; [lia |].
  intros i Hi. rewrite nth_map_seq by exact Hi.
  assert (Hi0 : 0 <= INR i * ratio)
    by (apply Rmult_le_pos; [apply pos_INR | lra]).
  pose proof (floor_nonneg _ Hi0) as Hj0.
  exists (Z.to_nat (floor (INR i * ratio))).
  split; [| split; [lia | reflexivity]].
  (* [i + 1 <= newLength <= len / ratio], hence [i * ratio < len] *)
  apply Nat2Z.inj_lt. rewrite Z2Nat.id by exact Hj0.
  apply floor_lt. rewrite <- INR_IZR_INZ.
  pose proof (floor_bounds (INR (length samples) / ratio)) as [Hlo _].
  fold newLength in Hlo.
  assert (Hi1 : INR i + 1 <= IZR newLength).
  { rewrite <- S_INR, INR_IZR_INZ. apply IZR_le. lia. }
  assert (Hmul : (INR i + 1) * ratio <= INR (length samples)).
  { apply Rle_trans with (INR (length samples) / ratio * ratio).
    - apply Rmult_le_compat_r; lra.
    - unfold Rdiv. rewrite Rmult_assoc, Rinv_l by lra. lra. }
  nra.
Qed.

Lemma downsample_reads_in_range_witness :
  exists out,
    downsample [1; 2; 3; 4; 5] 48000 16000 = Return out /\
    Z.of_nat (length out) = floor (INR (length [1; 2; 3; 4; 5]) / (48000 / 16000)).
Proof.
  destruct (downsample_reads_in_range [1; 2; 3; 4; 5] 48000 16000)
    as [out [H1 [H2 _]]]; try lra.
  exists out. split; assumption.
Defined.

Lemma floor_INR_div (m k : nat) :
  k <> 0%nat -> floor (INR m / INR k) = Z.of_nat (m / k).
Proof.
  intros Hk. apply floor_unique.
  assert (HINR : 0 < INR k) by (apply lt_0_INR; lia).
  pose proof (Nat.div_mod_eq m k) as Hdm.
  pose proof (Nat.mod_upper_bound m k Hk) as Hr.
  assert (Hm : INR m = INR k * INR (m / k) + INR (m mod k)).
  { rewrite <- mult_INR, <- plus_INR. f_equal. exact Hdm. }
  assert (Hr0 : 0 <= INR (m mod k)) by apply pos_INR.
  assert (Hr1 : INR (m mod k) < INR k) by (apply lt_INR; exact Hr).
  rewrite <- INR_IZR_INZ. split.
  - apply (Rmult_le_reg_r (INR k)); [exact HINR |].
    unfold Rdiv. rewrite Rmult_assoc, Rinv_l by lra. nra.
  - apply (Rmult_lt_reg_r (INR k)); [exact HINR |].
    unfold Rdiv. rewrite Rmult_assoc, Rinv_l by lra. nra.
Qed.

(** X21: when [fromRate] is [k] times [toRate] for an integer [k >= 2],
    [downsample] keeps every [k]-th sample: it returns [len / k] samples
    (integer division) and output sample [i] is input sample [i * k]. *)
Theorem downsample_decimates (samples : Float32Array) (toRate : R) (k : nat) :
  0 < toRate -> (2 <= k)%nat ->
  downsample samples (INR k * toRate) toRate =
  Return (map (fun i => nth (i * k) samples 0) (seq 0 (length samples / k))).
Proof.
  intros Hto Hk. unfold downsample.
  assert (HINR : 2 <= INR k) by (apply (le_INR 2); exact Hk).
  destruct (Req_dec_T (INR k * toRate) toRate) as [E | _]; [nra |].
  destruct (Req_dec_T toRate 0) as [E | _]; [lra |].
  destruct (Req_dec_T (INR k * toRate) 0) as [E | _]; [nra |].
  replace (INR k * toRate / toRate) with (INR k) by (field; lra).
  rewrite floor_INR_div by lia.
  destruct (Z.ltb_spec (Z.of_nat (length samples / k)) 0) as [Hneg | _]; [lia |].
  rewrite Nat2Z.id. apply (f_equal (@Return (list R))).
  apply map_ext. intros i.
  rewrite <- mult_INR. unfold floor. rewrite Int_part_INR, Nat2Z.id. reflexivity.
Qed.

Lemma downsample_decimates_witness :
  downsample [1; 2; 3; 4; 5; 6; 7] (INR 3 * 16000) 16000 =
  Return (map (fun i => nth (i * 3) [1; 2; 3; 4; 5; 6; 7] 0)
              (seq 0 (length [1; 2; 3; 4; 5; 6; 7] / 3))).
Proof.
  apply (downsample_decimates [1; 2; 3; 4; 5; 6; 7] 16000 3); [lra | lia].
Defined.

(** X22: on a non-empty input, [downsample] throws a [RangeError] when
    [fromRate] is 0 and [toRate] is not, or when the two rates have opposite
    signs (the new length is infinite or negative); with [toRate] equal to 0
    and [fromRate] not, it returns an empty sequence. *)
Theorem downsample_degenerate_rates (samples : Float32Array) (fromRate toRate : R) :
  samples <> [] ->
  (fromRate = 0 -> toRate <> 0 -> downsample samples fromRate toRate = Throw RangeError) /\
  (fromRate * toRate < 0 -> downsample samples fromRate toRate = Throw RangeError) /\
  (toRate = 0 -> fromRate <> 0 -> downsample samples fromRate toRate = Return []).
Proof.
  intros Hne.
  assert (Hlen : (0 < length samples)%nat) by (destruct samples; [congruence | simpl; lia]).
  unfold downsample. split; [| split].
  - intros -> Hto.
    destruct (Req_dec_T 0 toRate) as [E | _]; [congruence |].
    destruct (Req_dec_T toRate 0) as [E | _]; [contradiction |].
    destruct (Req_dec_T 0 0) as [_ | E]; [| contradiction].
    destruct (Nat.eqb_spec (length samples) 0); [lia | reflexivity].
  - intros Hsign.
    destruct (Req_dec_T fromRate toRate) as [E | _]; [subst; nra |].
    destruct (Req_dec_T toRate 0) as [E | Hto]; [subst; lra |].
    destruct (Req_dec_T fromRate 0) as [E | Hfrom]; [subst; lra |].
    assert (Hratio : fromRate / toRate < 0).
    { unfold Rdiv. destruct (Rlt_dec 0 toRate) as [Hp | Hn].
      - pose proof (Rinv_0_lt_compat toRate Hp). nra.
      - assert (Hneg : toRate < 0) by lra.
        pose proof (Rinv_lt_0_compat toRate Hneg). nra. }
    assert (Hq : INR (length samples) / (fromRate / toRate) < 0).
    { unfold Rdiv at 1. pose proof (Rinv_lt_0_compat _ Hratio).
      pose proof (lt_0_INR _ Hlen). nra. }
    pose proof (floor_lt _ 0 Hq) as Hfl.
    destruct (Z.ltb_spec (floor (INR (length samples) / (fromRate / toRate))) 0);
      [reflexivity | lia].
  - intros -> Hfrom.
    destruct (Req_dec_T fromRate 0) as [E | _]; [contradiction |].
    destruct (Req_dec_T 0 0) as [_ | E]; [reflexivity | contradiction].
Qed.

Lemma downsample_degenerate_rates_witness :
  downsample [1; 2] 0 16000 = Throw RangeError.
Proof.
  assert (Hne : [1; 2] <> []) by discriminate.
  destruct (downsample_degenerate_rates [1; 2] 0 16000 Hne) as [H _].
  apply H; [reflexivity | lra].
Defined.

(** * Properties of the channel mixer *)

Lemma mix_channel_length (n : nat) (mixed channelData : Float32Array) :
  length (mix_channel (F32 := exact_store) n mixed channelData) = length mixed.
Proof. unfold mix_channel. rewrite length_map, length_seq. reflexivity. Qed.

Lemma mix_prefix (n L m : nat) (data : nat -> Float32Array) :
  fold_left (fun mixed ch => mix_channel (F32 := exact_store)
      n mixed (data ch)) (seq 0 m) (repeat 0 L)
  = map (fun i => Rsum (fun ch => nth i (data ch) 0 / INR n) m) (seq 0 L).
Proof.
  induction m as [| m IH].
  - cbn [seq fold_left Rsum]. symmetry. apply map_zero_seq.
  - rewrite seq_S, fold_left_app, IH. cbn [fold_left Nat.add].
    unfold mix_channel. rewrite length_map, length_seq.
    apply map_ext_in. intros i Hi. apply in_seq in Hi.
    rewrite nth_map_seq by lia. reflexivity.
Qed.

Lemma Rsum_div (f : nat -> R) (c : R) (n : nat) :
  Rsum (fun i => f i / c) n = Rsum f n / c.
Proof.
  induction n as [| n IH]; cbn [Rsum]; [unfold Rdiv; ring |].
  rewrite IH. unfold Rdiv. ring.
Qed.

(** X23: in exact arithmetic (stores that round nothing), for a buffer of
    [n >= 1] channels, each of the buffer's length, [audioBufferToFloat32]
    returns a sequence of that length whose sample [i] is the average of the
    channels' samples [i]. *)
Theorem audioBufferToFloat32_averages (audioBuffer : AudioBuffer) :
  (1 <= numberOfChannels audioBuffer)%nat ->
  (forall ch, (ch < numberOfChannels audioBuffer)%nat ->
     length (getChannelData audioBuffer ch) = bufferLength audioBuffer) ->
  length (audioBufferToFloat32 (F32 := exact_store) audioBuffer)
  = bufferLength audioBuffer /\
  forall i, (i < bufferLength audioBuffer)%nat ->
    nth i (audioBufferToFloat32 (F32 := exact_store) audioBuffer) 0 =
    Rsum (fun ch => nth i (getChannelData audioBuffer ch) 0)
         (numberOfChannels audioBuffer)
    / INR (numberOfChannels audioBuffer).
Proof.
  intros Hn Hlen. unfold audioBufferToFloat32.
  destruct (Nat.eqb_spec (numberOfChannels audioBuffer) 1) as [E | E].
  - rewrite E. split; [apply Hlen; lia |].
    intros i _. cbn [Rsum INR]. field.
  - rewrite mix_prefix. split; [rewrite length_map, length_seq; reflexivity |].
    intros i Hi. rewrite nth_map_seq by exact Hi. apply Rsum_div.
Qed.

Lemma audioBufferToFloat32_averages_witness :
  length (audioBufferToFloat32 (F32 := exact_store)
            {| numberOfChannels := 2; bufferLength := 3;
               getChannelData := fun ch => if (ch =? 0)%nat then [1; 2; 3] else [3; 2; 1] |})
  = 3%nat.
Proof.
  apply (audioBufferToFloat32_averages
           {| numberOfChannels := 2; bufferLength := 3;
              getChannelData := fun ch => if (ch =? 0)%nat then [1; 2; 3] else [3; 2; 1] |}).
  - cbn. lia.
  - intros ch _. cbn. destruct (ch =? 0)%nat; reflexivity.
Defined.

(** * Further properties of the multi-stream aligner *)

Section SyncRuns.

Context {F32 : Float32Store}.

Variables File Date FFmpeg : Type.
Variable getTime : Date -> R.
Variable newDate : R -> Date.
Variable ffmpeg_loaded : FFmpeg -> bool.
Variable ffmpeg_load : FFmpeg -> outcome FFmpeg.
Variable extractAudio :
  FFmpeg -> File -> ExtractOptions -> outcome (AudioData * FFmpeg).
Variable range_error_message : string.

Let run := syncVideos getTime newDate ffmpeg_loaded ffmpeg_load extractAudio
             range_error_message.

(** X24: [syncVideos] never throws: whatever the host does, a call that
    answers answers with a result record. *)
Theorem syncVideos_never_throws (fuel : nat) (self : AudioVideoSync FFmpeg)
  (videos : list (VideoInput File Date)) (options : SyncOptions) (e : exn) :
  run fuel self videos options <> Throw e.
Proof.
  unfold run, syncVideos.
  destruct (length videos <? 2)%nat; [discriminate |].
  destruct (_ || _)%bool; [discriminate |].
  destruct (nth_error videos _); [| discriminate].
  destruct (syncVideos_try _ _ _ _ _ _ _ _ _ _ _ _ _); discriminate.
Qed.

Lemma correlate_from_elements (fuel : nat) (cb : option (string -> R -> outcome unit))
  (total : nat) (referenceIdx : Z) (referenceVideo : VideoInput File Date)
  (referenceAudio : Float32Array) (rate : Z) (processed : list Float32Array)
  (rest : list (VideoInput File Date)) :
  forall i res,
  correlate_from getTime newDate fuel cb total referenceIdx referenceVideo
    referenceAudio rate processed i rest = Return res ->
  length res = length rest /\
  forall j v, nth_error rest j = Some v ->
    exists r, nth_error res j = Some r /\
      correlate_one getTime newDate fuel referenceIdx referenceVideo
        referenceAudio rate processed (i + j) v = Return r.
Proof.
  induction rest as [| video rest IH]; intros i res H.
  - injection H as <-. split; [reflexivity |]. intros j v Hj. destruct j; discriminate.
  - cbn [correlate_from] in H.
    apply bind_Return in H. destruct H as [u [_ H]].
    apply bind_Return in H. destruct H as [r [Hr H]].
    apply bind_Return in H. destruct H as [tl [Htl H]].
    injection H as <-. destruct (IH _ _ Htl) as [Hlen Hall].
    split; [cbn [length]; rewrite Hlen; reflexivity |].
    intros j v Hj. destruct j as [| j].
    + injection Hj as <-. exists r. rewrite Nat.add_0_r. split; [reflexivity | exact Hr].
    + cbn [nth_error] in Hj. destruct (Hall j v Hj) as [r' [Hr' Hone]].
      exists r'. split; [exact Hr' |].
      replace (i + S j)%nat with (S i + j)%nat by lia. exact Hone.
Qed.

(** A call that returns either stopped at a guard or in the [catch] clause,
    with no results, a [false] flag and a message, or went through the whole
    [try] block. *)
Lemma syncVideos_cases (fuel : nat) (self : AudioVideoSync FFmpeg)
  (videos : list (VideoInput File Date)) (options : SyncOptions)
  (r : MultiSyncResult Date) :
  run fuel self videos options = Return r ->
  (results r = [] /\ success r = false /\ exists m, error r = Some m) \/
  ((2 <= length videos)%nat /\
   (0 <= reference_of options < Z.of_nat (length videos))%Z /\
   exists referenceVideo self' audio,
     nth_error videos (Z.to_nat (reference_of options)) = Some referenceVideo /\
     load ffmpeg_loaded ffmpeg_load self = Return self' /\
     extract_from extractAudio (onProgress options) (extractOptions options)
       (length videos) (ffmpeg self') 0 videos = Return audio /\
     correlate_from getTime newDate fuel (onProgress options) (length videos)
       (reference_of options) referenceVideo
       (nth (Z.to_nat (reference_of options))
          (map (fun a => preprocessAudio (samples a)) audio) [])
       (match nth_error audio (Z.to_nat (reference_of options)) with
        | Some a => audioSampleRate a
        | None => 0%Z
        end)
       (map (fun a => preprocessAudio (samples a)) audio) 0 videos
     = Return (results r) /\
     referenceId r = string_or (id referenceVideo)
                       (toString (Z.to_nat (reference_of options))) /\
     resultSampleRate r = match nth_error audio (Z.to_nat (reference_of options)) with
                          | Some a => audioSampleRate a
                          | None => 0%Z
                          end /\
     success r = forallb (confidence_ok (minimum_of options)) (results r) /\
     error r = (if success r then None
                else Some "部分视频同步置信度过低"%string)).
Proof.
  unfold run, syncVideos. fold (reference_of options). fold (minimum_of options).
  intros H.
  destruct (Nat.ltb_spec (length videos) 2) as [Hlt | Hge].
  { injection H as <-. left. cbn. repeat split. eexists. reflexivity. }
  destruct (Z.ltb_spec (reference_of options) 0) as [Hneg | Hnn].
  { cbn [orb] in H. injection H as <-. left. cbn. repeat split. eexists. reflexivity. }
  destruct (Z.leb_spec (Z.of_nat (length videos)) (reference_of options))
    as [Hbig | Hin].
  { cbn [orb] in H. injection H as <-. left. cbn. repeat split. eexists. reflexivity. }
  cbn [orb] in H.
  destruct (nth_error videos (Z.to_nat (reference_of options)))
    as [referenceVideo |]; [| discriminate].
  destruct (syncVideos_try _ _ _ _ _ _ _ _ _ _ _ _ _) as [r' | e |] eqn:Etry;
    [| injection H as <-; left; cbn; repeat split; eexists; reflexivity
     | discriminate].
  injection H as ->. right.
  split; [exact Hge |]. split; [lia |].
  unfold syncVideos_try in Etry.
  apply bind_Return in Etry. destruct Etry as [self' [Hload Etry]].
  apply bind_Return in Etry. destruct Etry as [audio [Hext Etry]].
  apply bind_Return in Etry. destruct Etry as [res [Hcorr Etry]].
  injection Etry as <-. cbn [results resultSampleRate success error referenceId].
  exists referenceVideo, self', audio.
  repeat split; assumption.
Qed.

(** X25: the record that [syncVideos] returns is never half filled: its
    results list is empty or holds one entry per video; a [true] flag comes
    with all the entries, at least two of them, and no message; a [false]
    flag always comes with a message. *)
Theorem syncVideos_result_invariants (fuel : nat) (self : AudioVideoSync FFmpeg)
  (videos : list (VideoInput File Date)) (options : SyncOptions)
  (r : MultiSyncResult Date) :
  run fuel self videos options = Return r ->
  (results r = [] \/ length (results r) = length videos) /\
  (success r = true ->
   length (results r) = length videos /\ (2 <= length videos)%nat /\
   error r = None) /\
  (success r = false -> exists m, error r = Some m).
Proof.
  intros H. destruct (syncVideos_cases _ _ _ _ _ H)
    as [[Hres [Hs Hm]] | [Hlen [_ [rv [s' [audio [_ [_ [_ [Hc [_ [_ [Hs He]]]]]]]]]]]]].
  - split; [left; exact Hres |]. split; [rewrite Hs; discriminate |].
    intros _. exact Hm.
  - destruct (correlate_from_elements _ _ _ _ _ _ _ _ _ _ _ Hc) as [Hl _].
    split; [right; exact Hl |]. split.
    + intros Ht. rewrite Ht in He. repeat split; assumption.
    + intros Hf. rewrite Hf in He. eexists. exact He.
Qed.

(** X26: when [syncVideos] returns results, there is one per video, in the
    order of the input; the entry of video [i] carries the video's [id], or
    the decimal index [i] when the id is missing or empty; the entry of the
    reference video has offset 0 (samples and seconds), confidence 1 and the
    video's own start time, and its id is the record's [referenceId]. *)
Theorem syncVideos_results_follow_input (fuel : nat) (self : AudioVideoSync FFmpeg)
  (videos : list (VideoInput File Date)) (options : SyncOptions)
  (r : MultiSyncResult Date) :
  run fuel self videos options = Return r -> results r <> [] ->
  length (results r) = length videos /\
  forall i v, nth_error videos i = Some v ->
    exists res, nth_error (results r) i = Some res /\
      resultId res = string_or (id v) (toString i) /\
      (Z.of_nat i = reference_of options ->
       referenceId r = resultId res /\
       offsetSamples res = 0%Z /\ offsetSeconds res = 0 /\
       confidence res = Some 1 /\
       correctedStartTime res = originalStartTime v).
Proof.
  intros H Hne. destruct (syncVideos_cases _ _ _ _ _ H)
    as [[Hres _] | [Hlen [Href [rv [s' [audio [Hrv [_ [_ [Hc [Hid _]]]]]]]]]]];
    [contradiction |].
  destruct (correlate_from_elements _ _ _ _ _ _ _ _ _ _ _ Hc) as [Hl Hall].
  split; [exact Hl |]. intros i v Hv.
  destruct (Hall i v Hv) as [res [Hres Hone]]. exists res.
  split; [exact Hres |]. cbn [Nat.add] in Hone. unfold correlate_one in Hone.
  destruct (Z.eqb_spec (Z.of_nat i) (reference_of options)) as [E | E].
  - injection Hone as <-. cbn. split; [reflexivity |]. intros _.
    assert (Ei : Z.to_nat (reference_of options) = i) by lia.
    rewrite Ei in Hrv, Hid. rewrite Hv in Hrv. injection Hrv as <-.
    repeat split. exact Hid.
  - apply bind_Return in Hone. destruct Hone as [corr [_ Hone]].
    injection Hone as <-. cbn. split; [reflexivity |]. intros; contradiction.
Qed.

(** X27: when [syncVideos] returns results, the entry of a video other than
    the reference has [offsetSeconds = offsetSamples / sampleRate] with the
    record's sample rate, a confidence that is a number and not negative,
    and as corrected start time the reference video's start time minus
    [offsetSeconds * 1000] milliseconds ([null] when the reference has no
    start time): the video's own start time plays no part. *)
Theorem syncVideos_other_entries (fuel : nat) (self : AudioVideoSync FFmpeg)
  (videos : list (VideoInput File Date)) (options : SyncOptions)
  (r : MultiSyncResult Date) (i : nat) (res : SyncResult Date) :
  run fuel self videos options = Return r ->
  nth_error (results r) i = Some res ->
  Z.of_nat i <> reference_of options ->
  offsetSeconds res = IZR (offsetSamples res) / IZR (resultSampleRate r) /\
  (exists c, confidence res = Some c /\ 0 <= c) /\
  exists referenceVideo,
    nth_error videos (Z.to_nat (reference_of options)) = Some referenceVideo /\
    correctedStartTime res =
      match originalStartTime referenceVideo with
      | Some t => Some (newDate (getTime t - offsetSeconds res * 1000))
      | None => None
      end.
Proof.
  intros H Hres Hi. destruct (syncVideos_cases _ _ _ _ _ H)
    as [[Hnil _] | [Hlen [Href [rv [s' [audio [Hrv [_ [_ [Hc [_ [Hrate _]]]]]]]]]]]].
  { rewrite Hnil in Hres. destruct i; discriminate. }
  destruct (correlate_from_elements _ _ _ _ _ _ _ _ _ _ _ Hc) as [Hl Hall].
  destruct (nth_error videos i) as [v |] eqn:Ev.
  2:{ apply nth_error_None in Ev.
      assert (Hlt : (i < length (results r))%nat)
        by (apply nth_error_Some; rewrite Hres; discriminate).
      lia. }
  destruct (Hall i v Ev) as [res' [Hres' Hone]].
  rewrite Hres in Hres'. injection Hres' as <-.
  cbn [Nat.add] in Hone. unfold correlate_one in Hone.
  destruct (Z.eqb_spec (Z.of_nat i) (reference_of options)) as [E | _];
    [contradiction |].
  apply bind_Return in Hone. destruct Hone as [corr [Hcorr Hone]].
  injection Hone as <-. cbn. rewrite Hrate.
  split; [reflexivity |].
  split; [exact (confidence_of_peak fuel _ _ _ Hcorr) |].
  exists rv. split; [exact Hrv | reflexivity].
Qed.

Lemma preprocessAudio_constant_energy (c : R) (l : list R) :
  (forall x, In x l -> x = c) -> energy (preprocessAudio l) = 0.
Proof.
  intros H. rewrite (constant_is_repeat c l H).
  destruct (length l) as [| n] eqn:E.
  - unfold preprocessAudio. cbn.
    destruct (Rlt_dec 0 0); reflexivity.
  - rewrite preprocessAudio_constant by discriminate. apply energy_zeros.
Qed.

Lemma calculateConfidence_no_energy (a b correlation : Float32Array) (offset : Z) :
  energy a = 0 \/ energy b = 0 ->
  calculateConfidence a b correlation offset = Some 0.
Proof.
  intros H. unfold calculateConfidence.
  assert (E : sqrt (energy a * energy b) = 0).
  { destruct H as [-> | ->]; [rewrite Rmult_0_l | rewrite Rmult_0_r]; apply sqrt_0. }
  destruct (Req_dec_T (sqrt (energy a * energy b)) 0); [reflexivity | contradiction].
Qed.

Lemma nth_processed (audio : list AudioData) (i : nat) (a : AudioData) :
  nth_error audio i = Some a ->
  nth i (map (fun a => preprocessAudio (samples a)) audio) []
  = preprocessAudio (samples a).
Proof.
  intros H. apply nth_error_nth.
  rewrite nth_error_map, H. reflexivity.
Qed.

(** X28: a video whose extracted audio is constant (silence, or any DC
    level), compared with a reference, or any video compared with a reference
    whose audio is constant, gets confidence 0; with a positive threshold the
    whole run is then flagged as failed, with the low-confidence message. *)
Theorem constant_audio_scores_zero (fuel : nat) (self self' : AudioVideoSync FFmpeg)
  (videos : list (VideoInput File Date)) (audio : list AudioData)
  (options : SyncOptions) (r : MultiSyncResult Date)
  (i : nat) (a : AudioData) (c : R) (res : SyncResult Date) :
  run fuel self videos options = Return r ->
  load ffmpeg_loaded ffmpeg_load self = Return self' ->
  extract_from extractAudio (onProgress options) (extractOptions options)
    (length videos) (ffmpeg self') 0 videos = Return audio ->
  nth_error (results r) i = Some res ->
  Z.of_nat i <> reference_of options ->
  nth_error audio i = Some a \/
  nth_error audio (Z.to_nat (reference_of options)) = Some a ->
  (forall x, In x (samples a) -> x = c) ->
  confidence res = Some 0 /\
  (0 < minimum_of options ->
   success r = false /\ error r = Some "部分视频同步置信度过低"%string).
Proof.
  intros H Hload Hext Hres Hi Ha Hconst.
  destruct (syncVideos_cases _ _ _ _ _ H)
    as [[Hnil _] | [Hlen [Href [rv [s' [audio' [Hrv [Hload' [Hext' [Hc [_ [_ [Hs He]]]]]]]]]]]]].
  { rewrite Hnil in Hres. destruct i; discriminate. }
  rewrite Hload in Hload'. injection Hload' as <-.
  rewrite Hext in Hext'. injection Hext' as <-.
  destruct (correlate_from_elements _ _ _ _ _ _ _ _ _ _ _ Hc) as [Hl Hall].
  assert (Hlt : (i < length (results r))%nat)
    by (apply nth_error_Some; rewrite Hres; discriminate).
  destruct (nth_error videos i) as [v |] eqn:Ev;
    [| apply nth_error_None in Ev; lia].
  destruct (Hall i v Ev) as [res' [Hres' Hone]].
  rewrite Hres in Hres'. injection Hres' as <-.
  cbn [Nat.add] in Hone. unfold correlate_one in Hone.
  destruct (Z.eqb_spec (Z.of_nat i) (reference_of options)) as [E | _];
    [contradiction |].
  apply bind_Return in Hone. destruct Hone as [corr [Hcorr Hone]].
  assert (Hconf : confidence res = Some 0).
  { injection Hone as <-. cbn [confidence].
    apply calculateConfidence_no_energy.
    destruct Ha as [Ha | Ha]; rewrite (nth_processed _ _ _ Ha);
      [right | left]; apply (preprocessAudio_constant_energy c), Hconst. }
  split; [exact Hconf |]. intros Hmin.
  assert (Hflag : success r = false).
  { rewrite Hs. destruct (forallb _ _) eqn:Eall; [| reflexivity].
    rewrite forallb_forall in Eall.
    specialize (Eall res (nth_error_In _ _ Hres)).
    apply (confidence_ok_true _ _ 0 Hconf) in Eall. lra. }
  split; [exact Hflag |]. rewrite Hflag in He. exact He.
Qed.

(** The branch in which a stage threw: [calculateOffset] throws the fault on,
    [syncVideos] catches it. *)
Ltac caught :=
  split;
  [ intros ? ? Hret; discriminate Hret
  | intros ? Hthrown; injection Hthrown as <-; eexists; repeat split ].

(** X29: [calculateOffset(ref, target)] and [syncVideos([ref, target])] with
    reference index 0, the same extraction options and a progress callback
    that returns (or none) do the same work on the same host: when
    [calculateOffset] returns, [syncVideos] returns the same offset in
    seconds and the same confidence in its entry 1; when [calculateOffset]
    throws, [syncVideos] returns a failed record with no results that carries
    the fault's message. *)
Theorem calculateOffset_matches_syncVideos (fuel : nat)
  (self : AudioVideoSync FFmpeg) (v1 v2 : VideoInput File Date)
  (options : SyncOptions) :
  reference_of options = 0%Z ->
  (forall stage progress, report (onProgress options) stage progress = Return tt) ->
  (forall seconds conf,
     calculateOffset ffmpeg_loaded ffmpeg_load extractAudio fuel self
       (file v1) (file v2) (extractOptions options) = Return (seconds, conf) ->
     exists r res,
       run fuel self [v1; v2] options = Return r /\
       nth_error (results r) 1 = Some res /\
       offsetSeconds res = seconds /\ confidence res = conf) /\
  (forall e,
     calculateOffset ffmpeg_loaded ffmpeg_load extractAudio fuel self
       (file v1) (file v2) (extractOptions options) = Throw e ->
     exists r,
       run fuel self [v1; v2] options = Return r /\
       results r = [] /\ success r = false /\
       error r = Some (message_of range_error_message e)).
Proof.
  intros Href Hcb.
  unfold run, syncVideos, calculateOffset. fold (reference_of options).
  rewrite Href. cbn [length Nat.ltb Nat.leb Z.ltb Z.leb Z.of_nat Pos.of_succ_nat
                     Pos.succ Z.compare orb Z.to_nat nth_error].
  unfold syncVideos_try.
  destruct (load ffmpeg_loaded ffmpeg_load self) as [s' | e' |]; cbn [bind];
    [| caught | split; intros; discriminate].
  cbn [extract_from]. rewrite Hcb. cbn [bind].
  destruct (extractAudio (ffmpeg s') (file v1) (extractOptions options))
    as [[a1 f1] | e' |]; cbn [bind fst snd];
    [| caught | split; intros; discriminate].
  rewrite Hcb. cbn [bind].
  destruct (extractAudio f1 (file v2) (extractOptions options))
    as [[a2 f2] | e' |]; cbn [bind fst snd];
    [| caught | split; intros; discriminate].
  cbn [map nth nth_error Z.to_nat correlate_from]. rewrite !Hcb. cbn [bind].
  unfold correlate_one.
  cbn [Z.of_nat Z.eqb Pos.of_succ_nat bind nth].
  destruct (crossCorrelate fuel (preprocessAudio (samples a1))
              (preprocessAudio (samples a2))) as [corr | e' |]; cbn [bind];
    [| caught | split; intros; discriminate].
  split; [| intros; discriminate].
  intros seconds conf Hret. injection Hret as <- <-.
  eexists. eexists. split; [reflexivity |]. cbn. repeat split.
Qed.

End SyncRuns.

(** The run on two videos whose audio is two silent samples, on a loaded
    host, returns two results. *)
Lemma silent_run {F32 : Float32Store} :
  exists r,
    syncVideos (fun t : R => t) (fun t : R => t) (fun _ : unit => true)
      (fun f : unit => Return f) silent_extract "RangeError" 31 ready two_videos
      default_options = Return r /\
    length (results r) = 2%nat.
Proof.
  destruct (syncVideos_no_fault unit R unit (fun t => t) (fun t => t)
              (fun _ => true) (fun f => Return f) silent_extract "RangeError"
              31 ready ready two_videos [silent_audio; silent_audio]
              (extractOptions default_options) None None)
    as [res [Hlen [_ [_ Hrun]]]].
  - cbn. lia.
  - cbn. lia.
  - reflexivity.
  - reflexivity.
  - reflexivity.
  - intros i Hi _.
    cbn [map samples silent_audio Z.to_nat nth].
    change [0; 0] with (repeat 0 2).
    rewrite preprocessAudio_constant by discriminate.
    cbn [length two_videos] in Hi.
    destruct i as [| [| i]]; [| | lia]; apply silent_correlates.
  - destruct (Hrun None) as [r [Hr [Hres _]]].
    exists r. split; [exact Hr |]. rewrite Hres. exact Hlen.
Qed.

Lemma syncVideos_result_invariants_witness :
  exists r,
    syncVideos (F32 := grid_store)
        (fun t : R => t) (fun t : R => t) (fun _ : unit => true)
      (fun f : unit => Return f) silent_extract "RangeError" 31 ready two_videos
      default_options = Return r /\
    (results r = [] \/ length (results r) = length two_videos).
Proof.
  destruct (silent_run (F32 := grid_store)) as [r [Hr _]]. exists r. split; [exact Hr |].
  exact (proj1 (syncVideos_result_invariants (F32 := grid_store)
      unit R unit (fun t => t) (fun t => t)
                  (fun _ => true) (fun f => Return f) silent_extract "RangeError"
                  31 ready two_videos default_options r Hr)).
Defined.

(** The run on the two videos with start times, whose audio is the tone, on
    a loaded host, returns two results. *)
Lemma tone_run {F32 : Float32Store} :
  exists r,
    syncVideos (fun t : R => t) (fun t : R => t) (fun _ : unit => true)
      (fun f : unit => Return f) tone_extract "RangeError" 31 ready timed_videos
      default_options = Return r /\
    length (results r) = 2%nat.
Proof.
  destruct (syncVideos_no_fault unit R unit (fun t => t) (fun t => t)
              (fun _ => true) (fun f => Return f) tone_extract "RangeError"
              31 ready ready timed_videos [tone_audio; tone_audio]
              (extractOptions default_options) None None)
    as [res [Hlen [_ [_ Hrun]]]].
  - cbn. lia.
  - cbn. lia.
  - reflexivity.
  - reflexivity.
  - reflexivity.
  - intros i Hi _. cbn [map Z.to_nat nth].
    cbn [length timed_videos] in Hi.
    destruct i as [| [| i]]; [| | lia]; apply tone_correlates.
  - destruct (Hrun None) as [r [Hr [Hres _]]].
    exists r. split; [exact Hr |]. rewrite Hres. exact Hlen.
Qed.

Lemma syncVideos_results_follow_input_witness :
  exists r first second,
    syncVideos (F32 := grid_store)
        (fun t : R => t) (fun t : R => t) (fun _ : unit => true)
      (fun f : unit => Return f) tone_extract "RangeError" 31 ready timed_videos
      default_options = Return r /\
    results r <> [] /\
    length (results r) = length timed_videos /\
    nth_error (results r) 0 = Some first /\
    resultId first = "cam1"%string /\ referenceId r = "cam1"%string /\
    offsetSamples first = 0%Z /\ confidence first = Some 1 /\
    correctedStartTime first = Some 5000 /\
    nth_error (results r) 1 = Some second /\
    resultId second = "1"%string.
Proof.
  destruct (tone_run (F32 := grid_store)) as [r [Hr Hlen]].
  assert (Hne : results r <> []).
  { intros E. rewrite E in Hlen. discriminate Hlen. }
  destruct (syncVideos_results_follow_input (F32 := grid_store) unit R unit
              (fun t => t) (fun t => t) (fun _ => true) (fun f => Return f)
              tone_extract "RangeError" 31 ready timed_videos default_options
              r Hr Hne) as [Hlen' Hall].
  destruct (Hall 0%nat _ eq_refl) as [first [H0 [Hid0 Href]]].
  destruct (Href eq_refl) as [Hrid [Hoff [_ [Hconf Hstart]]]].
  destruct (Hall 1%nat _ eq_refl) as [second [H1 [Hid1 _]]].
  exists r, first, second.
  split; [exact Hr |]. split; [exact Hne |]. split; [exact Hlen' |].
  split; [exact H0 |]. split; [exact Hid0 |].
  split; [rewrite Hrid; exact Hid0 |].
  split; [exact Hoff |]. split; [exact Hconf |]. split; [exact Hstart |].
  split; [exact H1 | exact Hid1].
Defined.

Lemma syncVideos_other_entries_witness :
  exists r res c,
    syncVideos (F32 := grid_store)
        (fun t : R => t) (fun t : R => t) (fun _ : unit => true)
      (fun f : unit => Return f) tone_extract "RangeError" 31 ready timed_videos
      default_options = Return r /\
    nth_error (results r) 1 = Some res /\
    Z.of_nat 1 <> reference_of default_options /\
    offsetSeconds res = IZR (offsetSamples res) / IZR (resultSampleRate r) /\
    confidence res = Some c /\ 0 <= c /\
    correctedStartTime res = Some (5000 - offsetSeconds res * 1000).
Proof.
  destruct (tone_run (F32 := grid_store)) as [r [Hr Hlen]].
  destruct (nth_error (results r) 1) as [res |] eqn:E;
    [| apply nth_error_None in E; lia].
  assert (Hi : Z.of_nat 1 <> reference_of default_options) by discriminate.
  destruct (syncVideos_other_entries (F32 := grid_store)
      unit R unit (fun t => t)
              (fun t => t) (fun _ => true) (fun f => Return f) tone_extract
              "RangeError" 31 ready timed_videos default_options r 1 res Hr E Hi)
    as [Hsec [[c [Hc Hpos]] [rv [Hrv Hstart]]]].
  injection Hrv as <-. cbn [originalStartTime] in Hstart.
  exists r, res, c. split; [exact Hr |]. split; [exact E |]. split; [exact Hi |].
  split; [exact Hsec |]. split; [exact Hc |]. split; [exact Hpos | exact Hstart].
Defined.

Lemma constant_audio_scores_zero_witness :
  exists r res,
    syncVideos (F32 := grid_store)
        (fun t : R => t) (fun t : R => t) (fun _ : unit => true)
      (fun f : unit => Return f) silent_extract "RangeError" 31 ready two_videos
      default_options = Return r /\
    nth_error (results r) 1 = Some res /\
    confidence res = Some 0 /\
    success r = false.
Proof.
  destruct (silent_run (F32 := grid_store)) as [r [Hr Hlen]].
  destruct (nth_error (results r) 1) as [res |] eqn:E;
    [| apply nth_error_None in E; lia].
  assert (Hi : Z.of_nat 1 <> reference_of default_options) by discriminate.
  assert (Hconst : forall x, In x (samples silent_audio) -> x = 0).
  { intros x [<- | [<- | []]]; reflexivity. }
  assert (Hmin : 0 < minimum_of default_options) by (cbn; lra).
  destruct (constant_audio_scores_zero (F32 := grid_store)
      unit R unit (fun t => t) (fun t => t)
              (fun _ => true) (fun f => Return f) silent_extract "RangeError"
              31 ready ready two_videos [silent_audio; silent_audio]
              default_options r 1 silent_audio 0 res Hr eq_refl eq_refl E Hi
              (or_introl eq_refl) Hconst) as [Hconf Hflag].
  exists r, res. split; [exact Hr |]. split; [exact E |].
  split; [exact Hconf |]. exact (proj1 (Hflag Hmin)).
Defined.

Lemma calculateOffset_matches_syncVideos_witness :
  exists seconds conf r res,
    calculateOffset (F32 := grid_store)
        (fun _ : unit => true) (fun f : unit => Return f)
      tone_extract 31 ready tt tt (extractOptions default_options)
    = Return (seconds, conf) /\
    syncVideos (F32 := grid_store)
        (fun t : R => t) (fun t : R => t) (fun _ : unit => true)
      (fun f : unit => Return f) tone_extract "RangeError" 31 ready timed_videos
      default_options = Return r /\
    nth_error (results r) 1 = Some res /\
    offsetSeconds res = seconds /\ confidence res = conf.
Proof.
  destruct (tone_correlates (F32 := grid_store)) as [correlation Hrun].
  assert (Hoff : exists seconds conf,
            calculateOffset (F32 := grid_store) (fun _ : unit => true)
              (fun f : unit => Return f)
              tone_extract 31 ready tt tt (extractOptions default_options)
            = Return (seconds, conf)).
  { unfold calculateOffset.
    cbn [load ready loaded bind tone_extract fst snd].
    rewrite Hrun. cbn [bind].
    eexists. eexists. reflexivity. }
  destruct Hoff as [seconds [conf Hoff]].
  destruct (calculateOffset_matches_syncVideos (F32 := grid_store)
      unit R unit (fun t => t)
              (fun t => t) (fun _ => true) (fun f => Return f) tone_extract
              "RangeError" 31 ready
              {| file := tt; id := Some "cam1"%string; originalStartTime := Some 5000 |}
              {| file := tt; id := None; originalStartTime := Some 7000 |}
              default_options eq_refl (fun _ _ => eq_refl)) as [Hsame _].
  destruct (Hsame seconds conf Hoff) as [r [res H]].
  exists seconds, conf, r, res. split; [exact Hoff | exact H].
Defined.
